(** * Zordon recorder / player: selector generation and step replay

    A shallow embedding of the custom step recorder
    ([DOMRecorder.generateSelectors], [createEventData], the life of a
    recording from [startRecording] to [stopRecording]), of the custom
    step player ([DOMPlayer] in [src/content/player.ts]), and of the way
    a recording takes between them (the session the service worker
    assembles, the stored recordings, the replay request), with the
    properties of recording and replay stated over them.

    The page is a parameter of the player: what its queries answer and
    which of its calls throw may depend on everything the player has done
    so far.  [setTimeout] registers a timer; timers fire one at a time, in
    an order a scheduler chooses, for as long as the page stays loaded: a
    run of the player is a run on a page that is not unloaded meanwhile.
    JavaScript numbers are modelled by exact rationals ([Q]), and a
    coordinate is stated as the sum or difference the code forms; strings
    by Rocq strings (bytes), with the ASCII fragment of [toLowerCase],
    [trim] and the [\s] character class. *)

From Stdlib Require Import String Ascii List Bool Arith ZArith QArith Qminmax.
From Stdlib Require Import Lia Lqa Wf_nat.
From Stdlib Require Import DecimalString.
Import ListNotations.

Close Scope Q_scope.
Local Open Scope nat_scope.
Local Open Scope string_scope.
Local Open Scope list_scope.

Set Warnings "-register-all".

(** String concatenation, as [+] and template literals write it. *)
Notation "a +++ b" := (String.append a b) (at level 60, right associativity).

(* ================================================================== *)
(** * JavaScript string primitives used by the recorder *)
(* ================================================================== *)

Module JsString.

(** The double quote character, as a one-character string. *)
Definition dquote : string := String (ascii_of_nat 34) EmptyString.

Definition is_upper (c : ascii) : bool :=
  let n := nat_of_ascii c in Nat.leb 65 n && Nat.leb n 90.

Definition lower_char (c : ascii) : ascii :=
  if is_upper c then ascii_of_nat (nat_of_ascii c + 32) else c.

(** [String.prototype.toLowerCase] on ASCII letters. *)
Fixpoint toLowerCase (s : string) : string :=
  match s with
  | EmptyString => EmptyString
  | String c r => String (lower_char c) (toLowerCase r)
  end.

(** The ASCII members of the [\s] class: TAB, LF, VT, FF, CR, space. *)
Definition is_ws (c : ascii) : bool :=
  let n := nat_of_ascii c in
  (Nat.leb 9 n && Nat.leb n 13) || Nat.eqb n 32.

Fixpoint trimStart (s : string) : string :=
  match s with
  | EmptyString => EmptyString
  | String c r => if is_ws c then trimStart r else s
  end.

Fixpoint rev_onto (s acc : string) : string :=
  match s with
  | EmptyString => acc
  | String c r => rev_onto r (String c acc)
  end.

Definition rev (s : string) : string := rev_onto s EmptyString.

(** [String.prototype.trim]. *)
Definition trim (s : string) : string := rev (trimStart (rev (trimStart s))).

(** [s.split(/\s+/)]: the pieces between maximal runs of white space.
    [cur] is the piece being read, reversed; [skipping] tells that the
    previous character was white space.  As in JavaScript, the empty
    string splits into one empty piece, and leading or trailing white
    space yields an empty first or last piece. *)
Fixpoint split_ws_from (s cur : string) (skipping : bool) : list string :=
  match s with
  | EmptyString => [rev cur]
  | String c r =>
      if is_ws c then
        if skipping then split_ws_from r cur true
        else rev cur :: split_ws_from r EmptyString true
      else split_ws_from r (String c cur) false
  end.

Definition split_ws (s : string) : list string :=
  split_ws_from s EmptyString false.

(** [Array.prototype.join]. *)
Fixpoint join (sep : string) (l : list string) : string :=
  match l with
  | [] => EmptyString
  | [x] => x
  | x :: r => x +++ sep +++ join sep r
  end.

(** Decimal rendering of a non-negative integer (template literal). *)
Definition of_nat (n : nat) : string := NilEmpty.string_of_uint (Nat.to_uint n).

(** JavaScript truthiness of a string: non-empty. *)
Definition truthy (s : string) : bool :=
  match s with EmptyString => false | _ => true end.

End JsString.

(* ================================================================== *)
(** * The DOM as the recorder reads it *)
(* ================================================================== *)

Module Dom.

(** [Element.className] is a string on HTML elements and an
    [SVGAnimatedString] object on SVG elements; the recorder tests
    [typeof element.className === "string"]. *)
Inductive ClassName : Type :=
| ClassString (s : string)
| ClassAnimated.

Record ElementData : Type := mkElementData {
  tagName : string;
  id : string;
  className : ClassName;
  attributes : list (string * string)
}.

Inductive Node : Type :=
| Elem (data : ElementData) (children : list Node).

Definition data (n : Node) : ElementData := let '(Elem d _) := n in d.
Definition children (n : Node) : list Node := let '(Elem _ c) := n in c.

(** An element is named by its position: its index among the children of
    its parent, followed by the name of the parent.  The empty list is the
    document element. *)
Definition Element : Type := list nat.

(** A document: the tree under the document element, and [document.body]
    ([None] when the document has no body). *)
Record Document : Type := mkDocument {
  documentElement : Node;
  body : option Element
}.

Fixpoint descend (n : Node) (down : list nat) : option Node :=
  match down with
  | [] => Some n
  | i :: rest =>
      match nth_error (children n) i with
      | Some c => descend c rest
      | None => None
      end
  end.

Definition node_at (doc : Document) (e : Element) : option Node :=
  descend (documentElement doc) (List.rev e).

Definition attached (doc : Document) (e : Element) : Prop :=
  node_at doc e <> None.

Definition attachedb (doc : Document) (e : Element) : bool :=
  match node_at doc e with Some _ => true | None => false end.

Definition Element_eqb (a b : Element) : bool :=
  if list_eq_dec Nat.eq_dec a b then true else false.

(** [current === document.body]. *)
Definition is_body (doc : Document) (e : Element) : bool :=
  match body doc with
  | Some b => Element_eqb e b
  | None => false
  end.

(** [Element.getAttribute]: the value of the first attribute of that
    name, [None] for [null]. *)
Fixpoint getAttribute (attrs : list (string * string)) (name : string)
  : option string :=
  match attrs with
  | [] => None
  | (k, v) :: r => if String.eqb k name then Some v else getAttribute r name
  end.

End Dom.

(* ================================================================== *)
(** * The recorder: [generateSelectors] *)
(* ================================================================== *)

Module Recorder.
Import JsString Dom.

(** First strategy: [element.id ? [`#${element.id}`] : null]. *)
Definition idStrategy (d : ElementData) : option (list string) :=
  if truthy (id d) then Some ["#" +++ id d] else None.

(** Second strategy: the tag name followed by the class names. *)
Definition classStrategy (d : ElementData) : option (list string) :=
  match className d with
  | ClassString s =>
      if truthy s then
        let classes := split_ws (trim s) in
        if Nat.ltb 0 (length classes)
        then Some [toLowerCase (tagName d) +++ "." +++ join "." classes]
        else None
      else None
  | ClassAnimated => None
  end.

(** The same-tag children of the parent that come before position [i],
    counted; [siblings.indexOf(current)] for the child at position [i]. *)
Definition sameTag (tag : string) (n : Node) : bool :=
  String.eqb (tagName (data n)) tag.

Definition indexOfSameTag (tag : string) (kids : list Node) (i : nat) : nat :=
  length (filter (sameTag tag) (firstn i kids)).

(** The selector of one level of the path, for an element without id. *)
Definition levelSelector (doc : Document) (cur : Element) (d : ElementData)
  : string :=
  let selector := toLowerCase (tagName d) in
  match cur with
  | [] => selector
  | i :: up =>
      match node_at doc up with
      | None => selector
      | Some parent =>
          let siblings := filter (sameTag (tagName d)) (children parent) in
          if Nat.ltb 1 (length siblings) then
            selector +++ ":nth-child("
              +++ of_nat (indexOfSameTag (tagName d) (children parent) i + 1)
              +++ ")"
          else selector
      end
  end.

(** The body of the third strategy: the loop
    [while (current && current !== document.body)], with [path] the
    selectors already put in front. *)
Fixpoint walkPath (doc : Document) (cur : Element) (path : list string)
  : list string :=
  if is_body doc cur then path
  else
    match node_at doc cur with
    | None => path
    | Some n =>
        if truthy (id (data n)) then ("#" +++ id (data n)) :: path
        else
          let path' := levelSelector doc cur (data n) :: path in
          match cur with
          | [] => path'
          | _ :: up => walkPath doc up path'
          end
    end.

Definition pathStrategy (doc : Document) (e : Element) : option (list string) :=
  match walkPath doc e [] with
  | [] => None
  | p => Some p
  end.

(** One attribute test of the fourth strategy. *)
Definition attrSelector (d : ElementData) (name : string) : list string :=
  match getAttribute (attributes d) name with
  | Some v =>
      if truthy v then ["[" +++ name +++ "=" +++ dquote +++ v +++ dquote +++ "]"]
      else []
  | None => []
  end.

(** Fourth strategy ("Fallback: use attributes"). *)
Definition attrStrategy (d : ElementData) : option (list string) :=
  let attrs := attrSelector d "data-testid" ++ attrSelector d "name"
               ++ attrSelector d "type" in
  match attrs with
  | [] => None
  | _ => Some [toLowerCase (tagName d) +++ join EmptyString attrs]
  end.

Definition strategies (doc : Document) (e : Element) (d : ElementData)
  : list (option (list string)) :=
  [ idStrategy d; classStrategy d; pathStrategy doc e; attrStrategy d ].

(** [for (const strategy of strategies) { ... selectors.push(result) }]. *)
Fixpoint runStrategies (l : list (option (list string)))
                       (selectors : list (list string))
  : list (list string) :=
  match l with
  | [] => selectors
  | Some result :: r => runStrategies r (selectors ++ [result])
  | None :: r => runStrategies r selectors
  end.

(** [generateSelectors(element)], for an element of the document. *)
Definition generateSelectorsOf (doc : Document) (e : Element) (d : ElementData)
  : list (list string) :=
  let selectors := runStrategies (strategies doc e d) [] in
  match selectors with
  | [] => [[toLowerCase (tagName d)]]
  | _ => selectors
  end.

(** [None] when [e] names no element of the document. *)
Definition generateSelectors (doc : Document) (e : Element)
  : option (list (list string)) :=
  match node_at doc e with
  | Some n => Some (generateSelectorsOf doc e (data n))
  | None => None
  end.

Definition optlist {A} (o : option A) : list A :=
  match o with Some a => [a] | None => [] end.

(** The candidates the four strategies produce, in the order the loop
    pushes them. *)
Definition produced (doc : Document) (e : Element) (d : ElementData)
  : list (list string) :=
  optlist (idStrategy d) ++ optlist (classStrategy d)
  ++ optlist (pathStrategy doc e) ++ optlist (attrStrategy d).

End Recorder.

(* ================================================================== *)
(** * Recorded steps and sessions *)
(* ================================================================== *)

Module Recording.

(** The union of step types of the Chrome DevTools compatible step. *)
Inductive StepType : Type :=
| navigate | click | change | keyDown | keyUp | scroll
| waitForElement | assertElement.

Inductive Button : Type := primary | secondary | middle.

(** [RecordedStep] / [ChromeDevToolsStep]; [target] holds
    [target.selectors] when the step has a target. *)
Record Step : Type := mkStep {
  type : StepType;
  target : option (list (list string));
  offsetX : option Q;
  offsetY : option Q;
  button : option Button;
  key : option string;
  value : option string;
  url : option string
}.

(** [RecordedEvent]: what the recorder stores for one DOM event, with
    the fields read below (the capture time, the scroll position, the
    step). *)
Record RecordedEvent : Type := mkRecordedEvent {
  eventType : string;
  timestamp : Z;
  scrollY : option Q;
  eventStep : option Step
}.

(** [RecordingSession], with the fields that playback reads. *)
Record RecordingSession : Type := mkRecordingSession {
  recordingId : string;
  title : option string;
  events : option (list RecordedEvent);
  steps : option (list Step)
}.

End Recording.

(* ================================================================== *)
(** * The page and the runtime, as the player sees them *)
(* ================================================================== *)

Module Runtime.
Import Recording.

Definition Element : Type := Dom.Element.

Record Rect : Type := mkRect {
  rectLeft : Q; rectTop : Q; rectWidth : Q; rectHeight : Q
}.

Inductive Exn : Type :=
| SyntaxError (selector : string)
| DOMException (name : string)
| TypeError (message : string).

(** Events the player constructs. *)
Inductive DomEvent : Type :=
| MouseEvent (type : string) (bubbles cancelable : bool)
             (clientX clientY : Q) (button : nat)
| KeyboardEvent (type : string) (key : string) (bubbles cancelable : bool)
| Event (type : string) (bubbles : bool).

(** The closures handed to [setTimeout], one constructor per closure of
    the source, with the variables it captures. *)
Inductive Callback : Type :=
| CbExecuteNextStep
| CbDispatchClick (element : Element) (step : Step)
| CbApplyChange (element : Element) (step : Step)
| CbDispatchKey (element : Element) (step : Step)
| CbRestoreStyle (element : Element) (originalStyle : string)
| CbCleanup.

Inductive LogArg : Type :=
| NoArg
| TextArg (s : string)
| StepArg (s : Step)
| TypeArg (t : StepType)
| ErrorArg (e : Exn).

(** Calls from the player into the page and the runtime, in the order
    they are made.  The last four are those on the player's own container:
    the assignment to [innerHTML] of the status that carries the title,
    [document.body.appendChild], the assignment to [innerHTML] of the
    completion message, and [remove()]. *)
Inductive Call : Type :=
| console_log (message : string) (arg : LogArg)
| console_error (message : string) (arg : LogArg)
| alert (message : string)
| querySelector (selector : string)
| getAttribute (e : Element) (name : string)
| setAttribute (e : Element) (name value : string)
| getBoundingClientRect (e : Element)
| dispatchEvent (e : Element) (ev : DomEvent)
| set_value (e : Element) (v : string)
| window_scrollTo (top : Q) (behavior : string)
| setTimeout (timerId : nat) (cb : Callback) (delay : Q)
| clearTimeout (timerId : nat)
| fillPlayerContainer (title : string)
| appendPlayerContainer
| showCompletion
| removePlayerContainer.

Definition Trace : Type := list Call.

(** The page.  Every answer may depend on everything the player has done
    so far.  [querySelectorAll] answers [None] for a selector that is not
    valid CSS; [throws] tells which calls on elements and on the window
    raise. *)
Record Env : Type := mkEnv {
  querySelectorAll : Trace -> string -> option (list Element);
  styleAttribute : Trace -> Element -> option string;
  boundingClientRect : Trace -> Element -> Rect;
  window_scrollY : Trace -> Q;
  location_href : Trace -> string;
  throws : Trace -> Call -> option Exn
}.

Inductive Display : Type := display_none | display_block.

(** The fields of [DOMPlayer]. *)
Record DOMPlayer : Type := mkDOMPlayer {
  playerContainer : option Display;
  isPlaying : bool;
  currentStepIndex : nat;
  steps : list Step;
  playbackSpeed : Q;
  playbackInterval : option nat
}.

Record Timer : Type := mkTimer {
  timerId : nat;
  due : Q;
  callback : Callback
}.

(** The player together with the runtime: calls made so far, pending
    timers, the clock, and the exceptions no handler caught. *)
Record Sys : Type := mkSys {
  player : DOMPlayer;
  trace : Trace;
  timers : list Timer;
  nextTimerId : nat;
  now : Q;
  uncaught : list Exn
}.

Definition with_player (f : DOMPlayer -> DOMPlayer) (s : Sys) : Sys :=
  mkSys (f (player s)) (trace s) (timers s) (nextTimerId s) (now s) (uncaught s).

Definition with_trace (f : Trace -> Trace) (s : Sys) : Sys :=
  mkSys (player s) (f (trace s)) (timers s) (nextTimerId s) (now s) (uncaught s).

Definition with_timers (f : list Timer -> list Timer) (s : Sys) : Sys :=
  mkSys (player s) (trace s) (f (timers s)) (nextTimerId s) (now s) (uncaught s).

Definition record (c : Call) (s : Sys) : Sys := with_trace (fun t => t ++ [c]) s.

(** ** Computations that may throw *)

Inductive Result (A : Type) : Type :=
| Ok (a : A)
| Throw (e : Exn).
Arguments Ok {A} a.
Arguments Throw {A} e.

Definition M (A : Type) : Type := Sys -> Result A * Sys.

Definition ret {A} (a : A) : M A := fun s => (Ok a, s).

Definition bind {A B} (m : M A) (k : A -> M B) : M B :=
  fun s => match m s with
           | (Ok a, s') => k a s'
           | (Throw e, s') => (Throw e, s')
           end.

(** [try { m } catch (e) { handler e }]. *)
Definition try_catch {A} (m : M A) (handler : Exn -> M A) : M A :=
  fun s => match m s with
           | (Ok a, s') => (Ok a, s')
           | (Throw e, s') => handler e s'
           end.

Definition get : M Sys := fun s => (Ok s, s).
Definition update (f : Sys -> Sys) : M unit := fun s => (Ok tt, f s).

End Runtime.

Declare Scope js_scope.
Delimit Scope js_scope with js.
Notation "x <- m ;; k" := (Runtime.bind m (fun x => k))
  (at level 61, m at next level, right associativity) : js_scope.
Notation "m ;; k" := (Runtime.bind m (fun _ => k))
  (at level 61, right associativity) : js_scope.

(* ================================================================== *)
(** * The player: [DOMPlayer] of [src/content/player.ts] *)
(* ================================================================== *)

Module Player.
Import Recording Runtime.
Local Open Scope js_scope.

(** [x || d] on an optional number: [undefined] and [0] are falsy. *)
Definition orNumber (x : option Q) (d : Q) : Q :=
  match x with
  | Some q => if Qeq_bool q 0 then d else q
  | None => d
  end.

(** [x || d] on an optional string: [undefined], [null] and the empty
    string are falsy. *)
Definition orString (x : option string) (d : string) : string :=
  match x with
  | Some s => if JsString.truthy s then s else d
  | None => d
  end.

(** Truthiness of an optional string. *)
Definition truthyString (x : option string) : bool :=
  match x with
  | Some s => JsString.truthy s
  | None => false
  end.

Definition initialPlayer : DOMPlayer :=
  mkDOMPlayer None false 0 [] 1%Q None.

(** A page on which nothing has happened yet; timer handles are positive
    integers. *)
Definition initialSys : Sys := mkSys initialPlayer [] [] 1 0%Q [].

Section WithPage.
Variable env : Env.

(** ** Primitive calls *)

(** The console, a dialog and [remove()] on the player's container never
    throw. *)
Definition emit (c : Call) : M unit := update (record c).

(** A call on an element, on the window or on the document: it is
    recorded, and throws when the page says so. *)
Definition domCall (c : Call) : M unit :=
  fun s => match throws env (trace s) c with
           | Some e => (Throw e, record c s)
           | None => (Ok tt, record c s)
           end.

Definition domRead {A} (c : Call) (answer : Trace -> A) : M A :=
  fun s => match throws env (trace s) c with
           | Some e => (Throw e, record c s)
           | None => (Ok (answer (trace s)), record c s)
           end.

(** [document.querySelector]: the first element of the match list,
    [null] when nothing matches, [SyntaxError] on an invalid selector. *)
Definition document_querySelector (selector : string) : M (option Element) :=
  fun s => match querySelectorAll env (trace s) selector with
           | None => (Throw (SyntaxError selector), record (querySelector selector) s)
           | Some l => (Ok (hd_error l), record (querySelector selector) s)
           end.

Definition js_setTimeout (cb : Callback) (delay : Q) : M nat :=
  fun s =>
    let id := nextTimerId s in
    (Ok id,
     mkSys (player s) (trace s ++ [setTimeout id cb delay])
           (timers s ++ [mkTimer id (now s + delay)%Q cb])
           (S id) (now s) (uncaught s)).

Definition js_clearTimeout (id : nat) : M unit :=
  update (fun s =>
    record (clearTimeout id)
      (with_timers (filter (fun t => negb (Nat.eqb (timerId t) id))) s)).

Definition setPlayer (f : DOMPlayer -> DOMPlayer) : M unit :=
  update (with_player f).

Definition set_playerContainer (v : option Display) (p : DOMPlayer) :=
  mkDOMPlayer v (isPlaying p) (currentStepIndex p) (Runtime.steps p)
              (playbackSpeed p) (playbackInterval p).
Definition set_isPlaying (v : bool) (p : DOMPlayer) :=
  mkDOMPlayer (playerContainer p) v (currentStepIndex p) (Runtime.steps p)
              (playbackSpeed p) (playbackInterval p).
Definition set_currentStepIndex (v : nat) (p : DOMPlayer) :=
  mkDOMPlayer (playerContainer p) (isPlaying p) v (Runtime.steps p)
              (playbackSpeed p) (playbackInterval p).
Definition set_steps (v : list Step) (p : DOMPlayer) :=
  mkDOMPlayer (playerContainer p) (isPlaying p) (currentStepIndex p) v
              (playbackSpeed p) (playbackInterval p).
Definition set_playbackInterval (v : option nat) (p : DOMPlayer) :=
  mkDOMPlayer (playerContainer p) (isPlaying p) (currentStepIndex p)
              (Runtime.steps p) (playbackSpeed p) v.

(** ** [findElement] *)

(** The inner loop, over one selector array. *)
Fixpoint findInArray (selectorArray : list string) : M (option Element) :=
  match selectorArray with
  | [] => ret None
  | selector :: rest =>
      found <- try_catch (document_querySelector selector)
                         (fun _ => ret None) ;;
      match found with
      | Some element => ret (Some element)
      | None => findInArray rest
      end
  end.

(** The outer loop, over the selector strategies. *)
Fixpoint findInArrays (selectors : list (list string)) : M (option Element) :=
  match selectors with
  | [] => ret None
  | selectorArray :: rest =>
      found <- findInArray selectorArray ;;
      match found with
      | Some element => ret (Some element)
      | None => findInArrays rest
      end
  end.

Definition findElement (selectors : option (list (list string)))
  : M (option Element) :=
  match selectors with
  | None => ret None
  | Some [] => ret None
  | Some l => findInArrays l
  end.

(** ** Step executors *)

Definition highlightStyle : string :=
  "; outline: 3px solid #ff6b6b; outline-offset: 2px; transition: outline 0.3s;".

Definition highlightElement (element : Element) : M unit :=
  attr <- domRead (getAttribute element "style")
                  (fun tr => styleAttribute env tr element) ;;
  let originalStyle := orString attr EmptyString in
  domCall (setAttribute element "style" (originalStyle +++ highlightStyle)) ;;
  _ <- js_setTimeout (CbRestoreStyle element originalStyle) 1000 ;;
  ret tt.

Definition executeNavigate (step : Step) : M unit :=
  s <- get ;;
  match url step with
  | Some u =>
      if JsString.truthy u && negb (String.eqb u (location_href env (trace s)))
      then emit (console_log "[Zordon Player] Navigate to:" (TextArg u))
      else ret tt
  | None => ret tt
  end.

Definition executeClick (step : Step) : M unit :=
  element <- findElement (target step) ;;
  match element with
  | Some el =>
      highlightElement el ;;
      _ <- js_setTimeout (CbDispatchClick el step) 200 ;;
      ret tt
  | None => ret tt
  end.

Definition buttonCode (b : option Button) : nat :=
  match b with
  | Some primary => 0
  | Some middle => 1
  | _ => 2
  end.

(** The point at which the click is dispatched. *)
Definition clickPoint (step : Step) (rect : Rect) : Q * Q :=
  ((rectLeft rect + orNumber (offsetX step) (rectWidth rect / 2))%Q,
   (rectTop rect + orNumber (offsetY step) (rectHeight rect / 2))%Q).

(** The closure of [executeClick], run 200 ms later. *)
Definition dispatchClick (element : Element) (step : Step) : M unit :=
  rect <- domRead (getBoundingClientRect element)
                  (fun tr => boundingClientRect env tr element) ;;
  let event := MouseEvent "click" true true
                 (fst (clickPoint step rect)) (snd (clickPoint step rect))
                 (buttonCode (button step)) in
  domCall (dispatchEvent element event).

Definition executeChange (step : Step) : M unit :=
  element <- findElement (target step) ;;
  match element, value step with
  | Some el, Some _ =>
      highlightElement el ;;
      _ <- js_setTimeout (CbApplyChange el step) 200 ;;
      ret tt
  | _, _ => ret tt
  end.

(** The closure of [executeChange]. *)
Definition applyChange (element : Element) (step : Step) : M unit :=
  domCall (set_value element (orString (value step) EmptyString)) ;;
  domCall (dispatchEvent element (Event "input" true)) ;;
  domCall (dispatchEvent element (Event "change" true)).

Definition executeKeyPress (step : Step) : M unit :=
  element <- findElement (target step) ;;
  match element with
  | Some el =>
      if truthyString (key step) then
        highlightElement el ;;
        _ <- js_setTimeout (CbDispatchKey el step) 200 ;;
        ret tt
      else ret tt
  | None => ret tt
  end.

(** The closure of [executeKeyPress]. *)
Definition dispatchKey (element : Element) (step : Step) : M unit :=
  let event := KeyboardEvent
                 (match type step with keyDown => "keydown" | _ => "keyup" end)
                 (orString (key step) EmptyString) true true in
  domCall (dispatchEvent element event).

Definition executeScroll (_step : Step) : M unit :=
  s <- get ;;
  domCall (window_scrollTo (window_scrollY env (trace s) + 100)%Q "smooth").

(** The [switch] of [executeStep]. *)
Definition dispatchStep (step : Step) : M unit :=
  match type step with
  | navigate => executeNavigate step
  | click => executeClick step
  | change => executeChange step
  | keyDown | keyUp => executeKeyPress step
  | scroll => executeScroll step
  | _ => emit (console_log "[Zordon Player] Unsupported step type:"
                         (TypeArg (type step)))
  end.

Definition executeStep (step : Step) : M unit :=
  emit (console_log "[Zordon Player] Executing step:" (StepArg step)) ;;
  try_catch
  (dispatchStep step)
  (fun error =>
     emit (console_error "[Zordon Player] Error executing step:"
                         (ErrorArg error))).

(** The closure of [highlightElement], run one second later. *)
Definition restoreStyle (element : Element) (originalStyle : string) : M unit :=
  domCall (setAttribute element "style" originalStyle).

(** ** The playback loop *)

(** [if (this.playbackInterval)]: a timer handle is truthy unless 0. *)
Definition truthyHandle (h : option nat) : option nat :=
  match h with
  | Some id => if Nat.eqb id 0 then None else Some id
  | None => None
  end.

Definition cleanup : M unit :=
  s <- get ;;
  match truthyHandle (playbackInterval (player s)) with
   | Some id =>
       js_clearTimeout id ;;
       setPlayer (set_playbackInterval None)
   | None => ret tt
   end ;;
  setPlayer (set_isPlaying false) ;;
  setPlayer (set_currentStepIndex 0) ;;
  setPlayer (set_steps []) ;;
  s' <- get ;;
  match playerContainer (player s') with
  | Some _ =>
      emit removePlayerContainer ;;
      setPlayer (set_playerContainer None)
  | None => ret tt
  end.

(** [showCompletionMessage]: the assignment to [innerHTML] is not
    guarded; when it throws, the timer of the auto-hide is not set. *)
Definition showCompletionMessage : M unit :=
  s <- get ;;
  match playerContainer (player s) with
  | Some _ =>
      setPlayer (set_playerContainer (Some display_block)) ;;
      domCall showCompletion ;;
      _ <- js_setTimeout CbCleanup 3000 ;;
      ret tt
  | None => ret tt
  end.

(** The delay before the next step: [Math.max(500, 1000 / playbackSpeed)]. *)
Definition stepDelay (p : DOMPlayer) : Q :=
  Qmax 500 (1000 / playbackSpeed p).

Definition executeNextStep : M unit :=
  s <- get ;;
  let p := player s in
  if negb (isPlaying p)
     || Nat.leb (length (Runtime.steps p)) (currentStepIndex p)
  then
    setPlayer (set_isPlaying false) ;;
    showCompletionMessage
  else
    match nth_error (Runtime.steps p) (currentStepIndex p) with
    | Some step =>
        executeStep step ;;
        setPlayer (fun p => set_currentStepIndex (currentStepIndex p + 1) p) ;;
        s' <- get ;;
        id <- js_setTimeout CbExecuteNextStep (stepDelay (player s')) ;;
        setPlayer (set_playbackInterval (Some id))
    | None => ret tt
    end.

Definition startPlayback : M unit :=
  s <- get ;;
  if Nat.eqb (length (Runtime.steps (player s))) 0 then ret tt
  else
    setPlayer (set_isPlaying true) ;;
    executeNextStep.

(** [createPlayerUI]: the new element is kept in [playerContainer]
    first; the assignment to [innerHTML] and [document.body.appendChild]
    that follow are not guarded. *)
Definition createPlayerUI (recording : RecordingSession) : M unit :=
  setPlayer (set_playerContainer (Some display_none)) ;;
  domCall (fillPlayerContainer (orString (title recording) "Untitled")) ;;
  domCall appendPlayerContainer.

Definition playRecording (recording : RecordingSession) : M unit :=
  emit (console_log "[Zordon] Starting playback for:"
                    (TextArg (recordingId recording))) ;;
  cleanup ;;
  setPlayer (set_steps (match Recording.steps recording with
                        | Some l => l
                        | None => []
                        end)) ;;
  setPlayer (set_currentStepIndex 0) ;;
  s <- get ;;
  if Nat.eqb (length (Runtime.steps (player s))) 0 then
    emit (console_error "[Zordon] No steps found in recording" NoArg) ;;
    emit (alert "This recording has no steps to play back.")
  else
    createPlayerUI recording ;;
    startPlayback.

(** The [message] listener installed by [init]. *)
Definition onMessage (messageType : string) (recording : RecordingSession)
  : M unit :=
  if String.eqb messageType "ZORDON_PLAY" then playRecording recording
  else ret tt.

(** ** Timers firing *)

Definition runCallback (cb : Callback) : M unit :=
  match cb with
  | CbExecuteNextStep => executeNextStep
  | CbDispatchClick el step => dispatchClick el step
  | CbApplyChange el step => applyChange el step
  | CbDispatchKey el step => dispatchKey el step
  | CbRestoreStyle el style => restoreStyle el style
  | CbCleanup => cleanup
  end.

Fixpoint removeAt {A} (i : nat) (l : list A) : list A :=
  match l, i with
  | [], _ => []
  | _ :: r, O => r
  | x :: r, S j => x :: removeAt j r
  end.

(** The [i]-th pending timer fires: the clock moves to its due time, the
    callback runs, and an exception it lets escape is reported by the
    runtime, not to any caller. *)
Definition fire (i : nat) (s : Sys) : Sys :=
  match nth_error (timers s) i with
  | None => s
  | Some t =>
      let s1 := mkSys (player s) (trace s) (removeAt i (timers s))
                      (nextTimerId s) (Qmax (now s) (due t))
                      (uncaught s) in
      match runCallback (callback t) s1 with
      | (Ok _, s2) => s2
      | (Throw e, s2) =>
          mkSys (player s2) (trace s2) (timers s2) (nextTimerId s2)
                (now s2) (uncaught s2 ++ [e])
      end
  end.

(** A scheduler names the pending timer that fires next.  Timers fire
    while the page stays loaded; when it is unloaded, by a navigation that
    a dispatched click started for instance, none of the pending timers
    fires any more, and the run ends there. *)
Definition Scheduler : Type := Sys -> nat.

Definition tick (sched : Scheduler) (s : Sys) : Sys :=
  fire (Nat.modulo (sched s) (length (timers s))) s.

Fixpoint run (sched : Scheduler) (fuel : nat) (s : Sys) : Sys :=
  match fuel with
  | O => s
  | S f => run sched f (tick sched s)
  end.

End WithPage.

(** The scheduler of a browser: the timer that is due first, the one
    registered first among equals. *)
Fixpoint earliestFrom (l : list Timer) (i best : nat) (bestDue : Q) : nat :=
  match l with
  | [] => best
  | t :: r =>
      if Qle_bool bestDue (due t) then earliestFrom r (S i) best bestDue
      else earliestFrom r (S i) i (due t)
  end.

Definition earliest : Scheduler :=
  fun s => match timers s with
           | [] => 0
           | t :: r => earliestFrom r 1 0 (due t)
           end.

(** The steps whose execution the player announced, in order. *)
Definition executedStep (c : Call) : option Step :=
  match c with
  | console_log msg (StepArg st) =>
      if String.eqb msg "[Zordon Player] Executing step:" then Some st else None
  | _ => None
  end.

Fixpoint executedSteps (tr : Trace) : list Step :=
  match tr with
  | [] => []
  | c :: r =>
      match executedStep c with
      | Some st => st :: executedSteps r
      | None => executedSteps r
      end
  end.

End Player.

(* ================================================================== *)
(** * Selector matching on a document tree *)
(* ================================================================== *)

(** The fragment of CSS that [generateSelectors] emits: one compound
    selector made of a type selector, [#id], [.class], [[name="value"]] and
    [:nth-child(n)].  It gives the pages of the examples their
    [querySelectorAll]; a string outside the fragment is reported as invalid,
    so the examples only query inside it. *)
Module Css.
Import JsString Dom.

Inductive Simple : Type :=
| SType (tag : string)
| SId (name : string)
| SClass (name : string)
| SAttr (name value : string)
| SNthChild (n : nat).

Definition is_digit (c : ascii) : bool :=
  let n := nat_of_ascii c in Nat.leb 48 n && Nat.leb n 57.

Definition is_letter (c : ascii) : bool :=
  let n := nat_of_ascii c in
  (Nat.leb 65 n && Nat.leb n 90) || (Nat.leb 97 n && Nat.leb n 122).

Definition ident_start (c : ascii) : bool :=
  is_letter c || Nat.eqb (nat_of_ascii c) 95 || Nat.leb 128 (nat_of_ascii c).

Definition ident_char (c : ascii) : bool :=
  ident_start c || is_digit c || Nat.eqb (nat_of_ascii c) 45.

(** An identifier does not start with a digit, nor with a hyphen followed
    by a digit, and is not a lone hyphen. *)
Definition valid_ident (s : string) : bool :=
  match s with
  | EmptyString => false
  | String c r =>
      if ident_start c then true
      else if Nat.eqb (nat_of_ascii c) 45 then
        match r with
        | EmptyString => false
        | String c' _ => ident_start c' || Nat.eqb (nat_of_ascii c') 45
        end
      else false
  end.

Fixpoint span (p : ascii -> bool) (s : string) : string * string :=
  match s with
  | EmptyString => (EmptyString, EmptyString)
  | String c r =>
      if p c then let (a, b) := span p r in (String c a, b)
      else (EmptyString, s)
  end.

Fixpoint digits_value (s : string) (acc : nat) : nat :=
  match s with
  | EmptyString => acc
  | String c r => digits_value r (10 * acc + (nat_of_ascii c - 48))
  end.

Fixpoint strip_prefix (p s : string) : option string :=
  match p, s with
  | EmptyString, _ => Some s
  | String a p', String b s' => if Ascii.eqb a b then strip_prefix p' s' else None
  | _, EmptyString => None
  end.

Definition not_dquote (c : ascii) : bool := negb (Nat.eqb (nat_of_ascii c) 34).

Definition cons_simple (x : Simple) (r : option (list Simple)) : option (list Simple) :=
  option_map (cons x) r.

Fixpoint parse_suffixes (fuel : nat) (s : string) : option (list Simple) :=
  match fuel with
  | O => None
  | S f =>
      match s with
      | EmptyString => Some []
      | String c r =>
          match nat_of_ascii c with
          | 35 (* # *) =>
              let (i, rest) := span ident_char r in
              if valid_ident i then cons_simple (SId i) (parse_suffixes f rest)
              else None
          | 46 (* . *) =>
              let (i, rest) := span ident_char r in
              if valid_ident i then cons_simple (SClass i) (parse_suffixes f rest)
              else None
          | 91 (* [ *) =>
              let (n, rest) := span ident_char r in
              if valid_ident n then
                match strip_prefix ("=" +++ dquote) rest with
                | Some r2 =>
                    let (v, rest2) := span not_dquote r2 in
                    match strip_prefix (dquote +++ "]") rest2 with
                    | Some r3 => cons_simple (SAttr n v) (parse_suffixes f r3)
                    | None => None
                    end
                | None => None
                end
              else None
          | 58 (* : *) =>
              match strip_prefix "nth-child(" r with
              | Some r1 =>
                  let (d, rest) := span is_digit r1 in
                  match d, strip_prefix ")" rest with
                  | String _ _, Some r2 =>
                      cons_simple (SNthChild (digits_value d 0)) (parse_suffixes f r2)
                  | _, _ => None
                  end
              | None => None
              end
          | _ => None
          end
      end
  end.

(** [None] for a string that is not a compound selector of the fragment. *)
Definition parse (s : string) : option (list Simple) :=
  let (t, rest) := span ident_char s in
  match t with
  | EmptyString =>
      match rest with
      | EmptyString => None
      | _ => parse_suffixes (S (String.length rest)) rest
      end
  | _ =>
      if valid_ident t
      then cons_simple (SType t) (parse_suffixes (S (String.length rest)) rest)
      else None
  end.

Definition classList (d : ElementData) : list string :=
  match className d with
  | ClassString s => split_ws (trim s)
  | ClassAnimated => []
  end.

Definition matches_simple (e : Element) (d : ElementData) (x : Simple) : bool :=
  match x with
  | SType t => String.eqb (toLowerCase (tagName d)) (toLowerCase t)
  | SId i => String.eqb (id d) i
  | SClass c => existsb (String.eqb c) (classList d)
  | SAttr n v =>
      match getAttribute (attributes d) n with
      | Some v' => String.eqb v' v
      | None => false
      end
  | SNthChild n =>
      match e with
      | [] => Nat.eqb n 1
      | i :: _ => Nat.eqb n (i + 1)
      end
  end.

(** The elements under [n], itself first, in document order; [e] is the
    name of [n]. *)
Fixpoint elementsFrom (n : Node) (e : Element) : list (Element * ElementData) :=
  match n with
  | Elem d kids =>
      (e, d) ::
      (fix children_from (l : list Node) (i : nat) : list (Element * ElementData) :=
         match l with
         | [] => []
         | c :: r => elementsFrom c (i :: e) ++ children_from r (S i)
         end) kids 0
  end.

Definition querySelectorAll (doc : Document) (selector : string)
  : option (list Element) :=
  match parse selector with
  | None => None
  | Some simples =>
      Some (map fst
              (filter (fun '(e, d) => forallb (matches_simple e d) simples)
                      (elementsFrom (documentElement doc) [])))
  end.

End Css.

(* ================================================================== *)
(** * Pages built from a document tree *)
(* ================================================================== *)

Module Page.
Import Recording Runtime.

Definition dataOf (doc : Dom.Document) (e : Element) : option Dom.ElementData :=
  option_map Dom.data (Dom.node_at doc e).

(** Assigning a non-empty [value] to a file input raises
    [InvalidStateError]; no other call of the player raises. *)
Definition isFileInput (doc : Dom.Document) (e : Element) : bool :=
  match dataOf doc e with
  | Some d =>
      String.eqb (JsString.toLowerCase (Dom.tagName d)) "input"
      && match Dom.getAttribute (Dom.attributes d) "type" with
         | Some t => String.eqb t "file"
         | None => false
         end
  | None => false
  end.

Definition staticThrows (doc : Dom.Document) (c : Call) : option Exn :=
  match c with
  | set_value e v =>
      if isFileInput doc e && JsString.truthy v
      then Some (DOMException "InvalidStateError")
      else None
  | _ => None
  end.

(** A page whose tree does not change while the player runs. *)
Definition static (doc : Dom.Document) (rects : Element -> Rect)
                  (scrollTop : Q) (href : string) : Env :=
  mkEnv (fun _ selector => Css.querySelectorAll doc selector)
        (fun _ e => match dataOf doc e with
                    | Some d => Dom.getAttribute (Dom.attributes d) "style"
                    | None => None
                    end)
        (fun _ e => rects e)
        (fun _ => scrollTop)
        (fun _ => href)
        (fun _ c => staticThrows doc c).

End Page.

(* ================================================================== *)
(** * The recorder: the step built for a DOM event *)
(* ================================================================== *)

Module RecorderEvents.
Import Recording Runtime.

(** What [createEventData] reads from the event and its target.
    [inputValue] is the [value] property of the target, [undefined]
    ([None]) on a target that has none, as an element that is edited in
    place. *)
Record DomEventInfo : Type := mkDomEventInfo {
  domType : string;
  clientX : Q;
  clientY : Q;
  mouseButton : nat;
  targetRect : Rect;
  inputValue : option string;
  keyName : string;
  windowScrollY : Q
}.

Definition recordedButton (b : nat) : Button :=
  match b with
  | 0 => primary
  | 1 => middle
  | _ => secondary
  end.

(** The [step] of [createEventData], by the [switch] on [event.type]. *)
Definition createStep (selectors : list (list string)) (ev : DomEventInfo) : Step :=
  let t := domType ev in
  if String.eqb t "click" then
    mkStep click (Some selectors)
           (Some (clientX ev - rectLeft (targetRect ev))%Q)
           (Some (clientY ev - rectTop (targetRect ev))%Q)
           (Some (recordedButton (mouseButton ev))) None None None
  else if String.eqb t "input" || String.eqb t "change" then
    mkStep change (Some selectors) None None None None (inputValue ev) None
  else if String.eqb t "keydown" then
    mkStep keyDown (Some selectors) None None None (Some (keyName ev)) None None
  else if String.eqb t "keyup" then
    mkStep keyUp (Some selectors) None None None (Some (keyName ev)) None None
  else if String.eqb t "scroll" then
    mkStep scroll (Some selectors) None None None None None None
  else
    mkStep click (Some selectors) None None None None None None.

(** [createEventData]: the recorded event with its step. *)
Definition createEventData (selectors : list (list string)) (ev : DomEventInfo)
                           (dateNow : Z) : RecordedEvent :=
  mkRecordedEvent (domType ev) dateNow
    (if String.eqb (domType ev) "scroll" then Some (windowScrollY ev) else None)
    (Some (createStep selectors ev)).

End RecorderEvents.

(* ================================================================== *)
(** * The replay request on its way to the player *)
(* ================================================================== *)

(** [BackgroundService.playRecording] of the service worker. *)
Module Background.
Import Recording.

Inductive Reply : Type :=
| Thrown (message : string)
| Sent (tabId : nat) (recording : RecordingSession).

Definition playRecording (recordings : list RecordingSession)
                         (sendMessage : nat -> RecordingSession -> bool)
                         (id : string) (tabId : option nat) : Reply :=
  match tabId with
  | None | Some O => Thrown "No active tab"
  | Some tab =>
      match find (fun r => String.eqb (recordingId r) id) recordings with
      | None => Thrown "Recording not found"
      | Some recording =>
          match events recording with
          | None | Some [] => Thrown "Recording has no events"
          | Some _ =>
              if sendMessage tab recording then Sent tab recording
              else Thrown "Failed to communicate with page. Try refreshing the page."
          end
      end
  end.

End Background.

(** [DOMRecorder.playRecording] of the content script, which hands the
    recording to the player with a [ZORDON_PLAY] message. *)
Module ContentScript.
Import Recording.

Inductive Handoff : Type :=
| Ignored
| Alerted (message : string)
| Posted (messageType : string) (recording : RecordingSession).

Definition playRecording (playbackEnabled scriptLoads : bool)
                         (recording : RecordingSession) : Handoff :=
  if playbackEnabled then
    match events recording with
    | None | Some [] => Alerted "This recording has no events to play back."
    | Some _ =>
        if scriptLoads then Posted "ZORDON_PLAY" recording
        else Alerted "Failed to load player. Please try again."
    end
  else Ignored.

End ContentScript.

(* ================================================================== *)
(** * The behaviour the specification describes, for comparison *)
(* ================================================================== *)

Module Described.
Import Recording Runtime.

(** The candidate order of the specification: id, stable attributes,
    ancestor path, then the bare tag name. *)
Definition candidateOrder (doc : Dom.Document) (e : Element) (d : Dom.ElementData)
  : list (list string) :=
  Recorder.optlist (Recorder.idStrategy d)
  ++ Recorder.optlist (Recorder.attrStrategy d)
  ++ Recorder.optlist (Recorder.pathStrategy doc e)
  ++ [[JsString.toLowerCase (Dom.tagName d)]].

(** The inter-step delay of the specification: the recorded gap, cut to
    the cap when there is one, divided by the speed multiplier. *)
Definition interStepDelay (gap speedMultiplier : Q) (cap : option Q) : Q :=
  match cap with
  | Some c => (Qmin gap c / speedMultiplier)%Q
  | None => (gap / speedMultiplier)%Q
  end.

Definition recordedGap (a b : RecordedEvent) : Q :=
  inject_Z (timestamp b - timestamp a).


Inductive ScrollContainer : Type :=
| TheDocument
| Container (e : Element).

(** The nearest scrollable ancestor; the document when there is none. *)
Fixpoint nearestScrollable (scrollable : Element -> bool) (e : Element)
  : ScrollContainer :=
  match e with
  | [] => TheDocument
  | _ :: up => if scrollable up then Container up
               else nearestScrollable scrollable up
  end.

(** The scroll of the specification: where, and by how much. *)
Definition scrollEffect (scrollable : Element -> bool) (target : option Element)
                        (delta : Q) : ScrollContainer * Q :=
  match target with
  | Some e => (nearestScrollable scrollable e, delta)
  | None => (TheDocument, delta)
  end.

(** The scroll a call of the player amounts to, the window being at
    [scrollTop] before it. *)
Definition observedScroll (scrollTop : Q) (c : Call) : option (ScrollContainer * Q) :=
  match c with
  | window_scrollTo top _ => Some (TheDocument, (top - scrollTop)%Q)
  | _ => None
  end.

End Described.

(* ================================================================== *)
(** * Pages and recordings used in the examples *)
(* ================================================================== *)

Module Examples.
Import Recording Runtime.

Definition el (tag ident cls : string) (attrs : list (string * string))
              (kids : list Dom.Node) : Dom.Node :=
  Dom.Elem (Dom.mkElementData tag ident (Dom.ClassString cls) attrs) kids.

(** html > head, body > [ div#app > [button.btn.primary, button],
                          div (blank class) > [span, input, span],
                          input type=file ] *)
Definition page : Dom.Document :=
  Dom.mkDocument
    (el "HTML" EmptyString EmptyString [] [
       el "HEAD" EmptyString EmptyString [] [];
       el "BODY" EmptyString EmptyString [] [
         el "DIV" "app" EmptyString [] [
           el "BUTTON" EmptyString " btn  primary "
              [("data-testid", "go"); ("type", "submit")] [];
           el "BUTTON" EmptyString EmptyString [] [] ];
         el "DIV" EmptyString "  " [] [
           el "SPAN" EmptyString EmptyString [] [];
           el "INPUT" EmptyString EmptyString [("name", "q")] [];
           el "SPAN" EmptyString EmptyString [] [] ];
         el "INPUT" EmptyString EmptyString [("type", "file")] [] ] ])
    (Some [1]).

Definition goButton : Element := [0; 0; 1].
Definition plainButton : Element := [1; 0; 1].
Definition blankDiv : Element := [1; 1].
Definition queryInput : Element := [1; 1; 1].
Definition fileInput : Element := [2; 1].

Definition box (l t w h : Q) : Rect := mkRect l t w h.

(** Every element is laid out in the same 100 by 40 box at (10, 20). *)
Definition env : Env :=
  Page.static page (fun _ => box 10 20 100 40) 0 "https://example.test/".

(** The same page with every box twice as large. *)
Definition envResized : Env :=
  Page.static page (fun _ => box 10 20 200 80) 0 "https://example.test/".

(** The same page under a policy that refuses a string assigned to
    [innerHTML]. *)
Definition envTrustedTypes : Env :=
  mkEnv (querySelectorAll env) (styleAttribute env) (boundingClientRect env)
        (window_scrollY env) (location_href env)
        (fun tr c =>
           match c with
           | fillPlayerContainer _ | showCompletion =>
               Some (TypeError "This document requires TrustedHTML assignment.")
           | _ => throws env tr c
           end).

Definition plainStep (t : StepType) (sel : option (list (list string))) : Step :=
  mkStep t sel None None None None None None.

Definition clickStep : Step :=
  mkStep click (Some [["#app"]]) (Some 50%Q) (Some 10%Q) (Some primary)
         None None None.

Definition changeStep : Step :=
  mkStep change (Some [["div."; "input"]]) None None None None (Some "hello") None.

Definition fileStep : Step :=
  mkStep change (Some [["#missing"]; ["input:nth-child(3)"]])
         None None None None (Some "C:/fakepath/a.txt") None.

Definition scrollStep : Step := plainStep scroll (Some [["span"]]).

Definition recordedAt (t : Z) (s : Step) : RecordedEvent :=
  mkRecordedEvent "click" t None (Some s).

(** Two events captured 100 ms apart, and the session holding their steps. *)
Definition firstEvent : RecordedEvent := recordedAt 0 clickStep.
Definition secondEvent : RecordedEvent := recordedAt 100 changeStep.

Definition session : RecordingSession :=
  mkRecordingSession "rec_1" (Some "Demo")
    (Some [firstEvent; secondEvent])
    (Some [clickStep; changeStep]).

Definition longSession : RecordingSession :=
  mkRecordingSession "rec_2" None
    (Some [firstEvent; secondEvent])
    (Some [plainStep navigate None; clickStep; fileStep; scrollStep;
           plainStep waitForElement None]).

Definition emptySession : RecordingSession :=
  mkRecordingSession "rec_3" None (Some [firstEvent]) (Some []).

End Examples.

(* ================================================================== *)
(** * What a run of the player shows *)
(* ================================================================== *)

Module Observe.
Import Recording Runtime Player.

(** [s] after the calls [calls] were made. *)
Definition logged (s : Sys) (calls : list Call) : Sys :=
  mkSys (player s) (trace s ++ calls) (timers s) (nextTimerId s) (now s)
        (uncaught s).

(** [s] after the calls [calls] were made and the timers [new] registered. *)
Definition extended (s : Sys) (calls : list Call) (new : list Timer) : Sys :=
  mkSys (player s) (trace s ++ calls) (timers s ++ new)
        (nextTimerId s + length new) (now s) (uncaught s).

(** The selector strings of a target, in the order of the two loops. *)
Definition candidates (selectors : option (list (list string))) : list string :=
  match selectors with
  | Some l => concat l
  | None => []
  end.

(** The queries a scan of the candidates makes on the page, and what it
    finds: it stops at the first candidate whose query yields an element. *)
Fixpoint scan (env : Env) (tr : Trace) (cands : list string)
  : option Element * list string :=
  match cands with
  | [] => (None, [])
  | c :: r =>
      match querySelectorAll env tr c with
      | Some (e :: _) => (Some e, [c])
      | _ => let (found, tried) := scan env (tr ++ [querySelector c]) r in
             (found, c :: tried)
      end
  end.

(** Every candidate of [cands], at the time it is queried, is invalid or
    matches nothing. *)
Fixpoint AllFail (env : Env) (tr : Trace) (cands : list string) : Prop :=
  match cands with
  | [] => True
  | c :: r =>
      (querySelectorAll env tr c = None \/ querySelectorAll env tr c = Some [])
      /\ AllFail env (tr ++ [querySelector c]) r
  end.

(** The page lets every call of [calls] through, made one after the other
    from [tr] on. *)
Fixpoint Accepted (env : Env) (tr : Trace) (calls : list Call) : Prop :=
  match calls with
  | [] => True
  | c :: r => throws env tr c = None /\ Accepted env (tr ++ [c]) r
  end.

(** The calls on the player's own container that the page can refuse. *)
Definition onContainer (c : Call) : bool :=
  match c with
  | fillPlayerContainer _ | appendPlayerContainer | showCompletion => true
  | _ => false
  end.

(** The page lets the player fill, attach and rewrite its container. *)
Definition ContainerAllowed (env : Env) : Prop :=
  forall tr c, onContainer c = true -> throws env tr c = None.

(** Timers whose callbacks leave the player alone. *)
Definition inertCallback (cb : Callback) : bool :=
  match cb with
  | CbExecuteNextStep | CbCleanup => false
  | _ => true
  end.

Definition inertTimer (t : Timer) : bool := inertCallback (callback t).

(** The delays with which the next step was scheduled, in order. *)
Definition nextStepDelay (c : Call) : option Q :=
  match c with
  | setTimeout _ CbExecuteNextStep d => Some d
  | _ => None
  end.

Fixpoint nextStepDelays (tr : Trace) : list Q :=
  match tr with
  | [] => []
  | c :: r =>
      match nextStepDelay c with
      | Some d => d :: nextStepDelays r
      | None => nextStepDelays r
      end
  end.

(** Calls that neither announce a step nor schedule the next one. *)
Definition quiet (c : Call) : bool :=
  match executedStep c, nextStepDelay c with
  | None, None => true
  | _, _ => false
  end.

(** A computation that leaves the player alone: it only makes quiet calls
    and registers inert timers. *)
Definition Frames {A} (m : M A) : Prop :=
  forall s, exists calls new,
    snd (m s) = extended s calls new /\
    forallb quiet calls = true /\
    forallb inertTimer new = true.

(** A computation that only makes quiet calls. *)
Definition Silent {A} (m : M A) : Prop :=
  forall s, exists calls,
    snd (m s) = logged s calls /\ forallb quiet calls = true.

Definition active (t : Timer) : bool := negb (inertTimer t).

(** The player is playing [ss], with [k] of its steps announced so far;
    [base] is what had been announced before this playback. *)
Definition Underway (base ss : list Step) (k : nat) (s : Sys) : Prop :=
  isPlaying (player s) = true /\
  Runtime.steps (player s) = ss /\
  currentStepIndex (player s) = k /\
  k <= length ss /\
  playerContainer (player s) <> None /\
  executedSteps (trace s) = base ++ firstn k ss.

(** ... and [executeNextStep] is about to run. *)
Definition Ready (base ss : list Step) (k : nat) (s : Sys) : Prop :=
  Underway base ss k s /\ filter active (timers s) = [].

(** ... and the timer of the next step is pending, no other timer touching
    the player. *)
Definition Playing (base ss : list Step) (k : nat) (s : Sys) : Prop :=
  Underway base ss k s /\
  map callback (filter active (timers s)) = [CbExecuteNextStep].

(** Playback of [ss] has just completed. *)
Definition Completed (base ss : list Step) (s : Sys) : Prop :=
  isPlaying (player s) = false /\
  Runtime.steps (player s) = ss /\
  currentStepIndex (player s) = length ss /\
  playerContainer (player s) = Some display_block /\
  executedSteps (trace s) = base ++ ss /\
  exists before id,
    trace s = before ++ [showCompletion; setTimeout id CbCleanup 3000].

(** Every pending timer that touches the player is the one whose handle
    the player holds in [playbackInterval], so that [cleanup] cancels it. *)
Definition Tracked (s : Sys) : Prop :=
  forall t, In t (timers s) -> active t = true ->
            truthyHandle (playbackInterval (player s)) = Some (timerId t).

(** The speed is the initial one and every next step was scheduled one
    second ahead. *)
Definition SteadyPace (s : Sys) : Prop :=
  playbackSpeed (player s) = 1%Q /\
  Forall (fun d => d = 1000%Q) (nextStepDelays (trace s)).

(** A computation that keeps the pace. *)
Definition Paced {A} (m : M A) : Prop :=
  forall s, SteadyPace s -> SteadyPace (snd (m s)).

(** The call by which [executeStep] announces a step. *)
Definition announce (step : Step) : Call :=
  console_log "[Zordon Player] Executing step:" (StepArg step).

(** The highlight of [element], as calls. *)
Definition highlightCalls (env : Env) (tr : Trace) (element : Element) : list Call :=
  let originalStyle := orString (styleAttribute env tr element) EmptyString in
  [getAttribute element "style";
   setAttribute element "style" (originalStyle +++ highlightStyle)].

End Observe.

(* ================================================================== *)
(** * Two replays in a row *)
(* ================================================================== *)

Module Scenario.
Import Recording Runtime Player.

(** The long session played by a fresh player on the example page, up to
    the timer that finds no step left: the ninth. *)
Definition afterFirstReplay : Sys :=
  run Examples.env earliest 9
      (snd (playRecording Examples.env Examples.longSession initialSys)).

(** Time passing, no timer being due meanwhile. *)
Definition later (d : Q) (s : Sys) : Sys :=
  mkSys (player s) (trace s) (timers s) (nextTimerId s) (now s + d)%Q
        (uncaught s).

(** The same session requested again two and a half seconds after the
    first completed, [fuel] timers later. *)
Definition secondReplay (fuel : nat) : Sys :=
  run Examples.env earliest fuel
      (snd (playRecording Examples.env Examples.longSession
                          (later 2500 afterFirstReplay))).

Definition longSteps : list Step :=
  [Examples.plainStep navigate None; Examples.clickStep; Examples.fileStep;
   Examples.scrollStep; Examples.plainStep waitForElement None].

End Scenario.

(* ================================================================== *)
(** * The recorder: the single selector stored with an event *)
(* ================================================================== *)

Module Legacy.
Import JsString Dom.

(** [getUniqueSelector(el)]; [None] stands for [null], as an argument and
    as a result. *)
Definition getUniqueSelector (el : option ElementData) : option string :=
  match el with
  | None => None
  | Some d =>
      if truthy (id d) then Some ("#" +++ id d)
      else
        match className d with
        | ClassString s =>
            if truthy s then
              let classes := join "." (split_ws (trim s)) in
              Some (toLowerCase (tagName d) +++ "." +++ classes)
            else Some (toLowerCase (tagName d))
        | ClassAnimated => Some (toLowerCase (tagName d))
        end
  end.

End Legacy.

(* ================================================================== *)
(** * The recorder: from [startRecording] to [stopRecording] *)
(* ================================================================== *)

(** [DOMRecorder] of the content script: its fields, and what it has
    registered on the page.  The target of a DOM event is an element of
    the document as it is when the event arrives, or it is none: [null],
    for which [handleRecordedEvent] returns at once, or the document or
    the window, for which [createEventData] throws in [getUniqueSelector],
    at [el.tagName.toLowerCase()], before anything is recorded.  The field
    [stopRecordingFn] is never assigned and stays [null]. *)
Module DomRecorder.
Import Recording RecorderEvents.

Definition EVENT_TYPES : list string :=
  ["click"; "dblclick"; "mousedown"; "mouseup"; "contextmenu"; "keydown";
   "keyup"; "input"; "change"; "submit"; "scroll"; "focus"; "blur";
   "touchstart"; "touchend"].

(** [eventListeners] holds the keys of the map, in insertion order; each
    key has one handler.  [captureListeners] are the event types for which
    a handler of the recorder listens on [window] in the capture phase;
    [popstateListeners] counts its [popstate] handlers, which are added
    without the capture flag; [historyWrappers] counts the wrappers it has
    put around [history.pushState] (and as many around
    [history.replaceState]); [indicators] and [pulseStyles] count the
    indicator elements in the body and the style elements in the head. *)
Record State : Type := mkState {
  events : list RecordedEvent;
  sessionId : option string;
  isRecording : bool;
  eventListeners : list string;
  captureListeners : list string;
  popstateListeners : nat;
  historyWrappers : nat;
  indicators : nat;
  pulseStyles : nat
}.

(** A recorder that was just constructed. *)
Definition initial : State := mkState [] None false [] [] 0 0 0 0.

Definition navigationEvent (href : string) (now : Z) : RecordedEvent :=
  mkRecordedEvent "navigate" now None
    (Some (mkStep navigate None None None None None None (Some href))).

(** [recordNavigationStep()]: there is no test of [isRecording]. *)
Definition recordNavigationStep (href : string) (now : Z) (r : State) : State :=
  mkState (events r ++ [navigationEvent href now]) (sessionId r)
          (isRecording r) (eventListeners r) (captureListeners r)
          (popstateListeners r) (historyWrappers r) (indicators r)
          (pulseStyles r).

Definition mem (t : string) (l : list string) : bool :=
  existsb (String.eqb t) l.

(** [removeListeners()]: every handler of the map is removed from the
    capture listeners of its event type, which leaves a handler added
    without the capture flag in place; then the map is cleared. *)
Definition removeListeners (r : State) : State :=
  mkState (events r) (sessionId r) (isRecording r) []
          (filter (fun t => negb (mem t (eventListeners r)))
                  (captureListeners r))
          (popstateListeners r) (historyWrappers r) (indicators r)
          (pulseStyles r).

(** [addListeners()]. *)
Definition addListeners (r : State) : State :=
  let r1 := removeListeners r in
  mkState (events r1) (sessionId r1) (isRecording r1)
          (EVENT_TYPES ++ ["popstate"])
          (captureListeners r1 ++ EVENT_TYPES)
          (popstateListeners r1 + 1) (historyWrappers r1 + 1)
          (indicators r1) (pulseStyles r1).

Definition showRecordingIndicator (r : State) : State :=
  mkState (events r) (sessionId r) (isRecording r) (eventListeners r)
          (captureListeners r) (popstateListeners r) (historyWrappers r)
          (indicators r + 1) (pulseStyles r + 1).

(** [hideRecordingIndicator()]: the first indicator found is removed. *)
Definition hideRecordingIndicator (r : State) : State :=
  mkState (events r) (sessionId r) (isRecording r) (eventListeners r)
          (captureListeners r) (popstateListeners r) (historyWrappers r)
          (Nat.pred (indicators r)) (pulseStyles r).

(** [startRecording(sessionId)], the page being at [href] and the clock
    reading [now]. *)
Definition startRecording (id : string) (href : string) (now : Z) (r : State)
  : State :=
  if isRecording r then r
  else
    let r1 := mkState [] (Some id) true (eventListeners r)
                      (captureListeners r) (popstateListeners r)
                      (historyWrappers r) (indicators r) (pulseStyles r) in
    showRecordingIndicator (addListeners (recordNavigationStep href now r1)).

(** [stopRecording()]: the recorder afterwards, and the events returned. *)
Definition stopRecording (r : State) : State * list RecordedEvent :=
  if isRecording r then
    (hideRecordingIndicator
       (removeListeners
          (mkState (events r) (sessionId r) false (eventListeners r)
                   (captureListeners r) (popstateListeners r)
                   (historyWrappers r) (indicators r) (pulseStyles r))),
     events r)
  else (r, []).

(** [handleRecordedEvent(event)], the clock reading [now]. *)
Definition handleRecordedEvent (doc : Dom.Document) (ev : DomEventInfo)
                               (target : option Dom.Element) (now : Z)
                               (r : State) : State :=
  if isRecording r then
    match target with
    | Some e =>
        match Recorder.generateSelectors doc e with
        | Some selectors =>
            mkState (events r ++ [createEventData selectors ev now])
                    (sessionId r) (isRecording r) (eventListeners r)
                    (captureListeners r) (popstateListeners r)
                    (historyWrappers r) (indicators r) (pulseStyles r)
        | None => r
        end
    | None => r
    end
  else r.

(** A DOM event as it reaches [window]: the document at that time, what
    [createEventData] reads from the event, its target, the reading of the
    clock in [createEventData], the address of the page, and the readings
    of the clock in the [popstate] handlers, in the order in which they
    run. *)
Record Arrival : Type := mkArrival {
  arrivalDocument : Dom.Document;
  arrivalEvent : DomEventInfo;
  arrivalTarget : option Dom.Element;
  arrivalNow : Z;
  arrivalHref : string;
  arrivalClock : nat -> Z
}.

(** [recordNavigationStep] called once per reading of the clock. *)
Fixpoint recordNavigations (href : string) (readings : list Z) (r : State)
  : State :=
  match readings with
  | [] => r
  | now :: rest =>
      recordNavigations href rest (recordNavigationStep href now r)
  end.

(** The readings of the clock in [k] [popstate] handlers. *)
Definition popstateReadings (a : Arrival) (k : nat) : list Z :=
  map (arrivalClock a) (seq 0 k).

(** A DOM event reaching [window]: the handler listening to its type in
    the capture phase runs; a [popstate] event then runs every [popstate]
    handler, each of which calls [recordNavigationStep]. *)
Definition deliver (a : Arrival) (r : State) : State :=
  let ev := arrivalEvent a in
  let r1 :=
    if mem (domType ev) (captureListeners r)
    then handleRecordedEvent (arrivalDocument a) ev (arrivalTarget a)
                             (arrivalNow a) r
    else r in
  if String.eqb (domType ev) "popstate"
  then recordNavigations (arrivalHref a)
                         (popstateReadings a (popstateListeners r1)) r1
  else r1.

(** Several events in a row. *)
Fixpoint deliverAll (l : list Arrival) (r : State) : State :=
  match l with
  | [] => r
  | a :: rest => deliverAll rest (deliver a r)
  end.

(** The navigation events that [k] [popstate] handlers record for a DOM
    event: none unless it is a [popstate] event. *)
Definition popstateEvents (k : nat) (a : Arrival) : list RecordedEvent :=
  if String.eqb (domType (arrivalEvent a)) "popstate"
  then map (navigationEvent (arrivalHref a)) (popstateReadings a k)
  else [].

(** The events recorded for a DOM event that arrives during a recording,
    [k] [popstate] handlers being in place. *)
Definition captured (k : nat) (a : Arrival) : list RecordedEvent :=
  let ev := arrivalEvent a in
  (if mem (domType ev) EVENT_TYPES then
     match arrivalTarget a with
     | Some e =>
         match Recorder.generateSelectors (arrivalDocument a) e with
         | Some selectors => [createEventData selectors ev (arrivalNow a)]
         | None => []
         end
     | None => []
     end
   else [])
  ++ popstateEvents k a.

(** The recorder [r] with [more] appended to its events. *)
Definition appended (more : list RecordedEvent) (r : State) : State :=
  mkState (events r ++ more) (sessionId r) (isRecording r) (eventListeners r)
          (captureListeners r) (popstateListeners r) (historyWrappers r)
          (indicators r) (pulseStyles r).

(** What can happen to a recorder, with the number of recordings that
    were started: [startRecording] and [stopRecording] are called, DOM
    events reach [window], the page calls [history.pushState] or
    [history.replaceState], in which every wrapper, from the innermost,
    calls [recordNavigationStep] once the call it wraps has returned, or a
    [popstate] event is dispatched, for which every [popstate] handler
    does; [readings] are the readings of the clock, one per call. *)
Inductive Ran : nat -> State -> Prop :=
| ran_initial : Ran 0 initial
| ran_start n r id href now :
    Ran n r ->
    Ran (if isRecording r then n else S n) (startRecording id href now r)
| ran_stop n r :
    Ran n r -> Ran n (fst (stopRecording r))
| ran_deliver n r a :
    Ran n r -> Ran n (deliver a r)
| ran_history n r href readings :
    Ran n r -> length readings = historyWrappers r ->
    Ran n (recordNavigations href readings r)
| ran_popstate n r href readings :
    Ran n r -> length readings = popstateListeners r ->
    Ran n (recordNavigations href readings r).

(** The registrations of a recorder for which [n] recordings were
    started: its listeners are in place exactly while it is recording, and
    the history calls are wrapped [n] times. *)
Definition Registered (n : nat) (r : State) : Prop :=
  historyWrappers r = n /\ popstateListeners r = n /\
  captureListeners r = (if isRecording r then EVENT_TYPES else []) /\
  eventListeners r
    = (if isRecording r then EVENT_TYPES ++ ["popstate"] else []).

End DomRecorder.

(* ================================================================== *)
(** * The stored recordings *)
(* ================================================================== *)

(** [chrome.storage.local] under the key [recordings], as the service
    worker ([saveRecording]) and the popup ([deleteRecording]) update it.
    The stored value is [undefined] ([None]) or an array. *)
Module Store.
Import Recording.

(** [data.recordings || []]. *)
Definition orEmpty (stored : option (list RecordingSession))
  : list RecordingSession :=
  match stored with
  | Some l => l
  | None => []
  end.

(** [recordings.findIndex((r) => r.id === id)]; [None] stands for -1. *)
Fixpoint findIndex (id : string) (recordings : list RecordingSession)
  : option nat :=
  match recordings with
  | [] => None
  | r :: rest =>
      if String.eqb (recordingId r) id then Some 0
      else option_map S (findIndex id rest)
  end.

(** [recordings[index] = recording], for an index inside the array. *)
Fixpoint setAt (index : nat) (recording : RecordingSession)
               (recordings : list RecordingSession) : list RecordingSession :=
  match recordings, index with
  | [], _ => []
  | _ :: rest, O => recording :: rest
  | r :: rest, S i => r :: setAt i recording rest
  end.

(** [saveRecording(recording)]: the array written back to the store. *)
Definition saveRecording (stored : option (list RecordingSession))
                         (recording : RecordingSession)
  : list RecordingSession :=
  let recordings := orEmpty stored in
  match findIndex (recordingId recording) recordings with
  | Some index => setAt index recording recordings
  | None => recordings ++ [recording]
  end.

(** [deleteRecording(recordingId)] of the popup: the value of the store
    afterwards; nothing is written when the user does not confirm. *)
Definition deleteRecording (confirmed : bool)
                           (stored : option (list RecordingSession))
                           (id : string)
  : option (list RecordingSession) :=
  if confirmed then
    Some (filter (fun r => negb (String.eqb (recordingId r) id))
                 (orEmpty stored))
  else stored.

(** [recordings.find((r) => r.id === id)], as [playRecording] looks a
    recording up. *)
Definition lookup (id : string) (recordings : list RecordingSession)
  : option RecordingSession :=
  find (fun r => String.eqb (recordingId r) id) recordings.

End Store.

(* ================================================================== *)
(** * The session the service worker assembles *)
(* ================================================================== *)

(** [currentRecording] of the service worker, from [startRecording] to
    [stopRecording]: the fields playback reads ([base]) and the others. *)
Module Worker.
Import Recording.

Record Session : Type := mkSession {
  base : RecordingSession;
  url : string;
  startTime : Z;
  endTime : option Z;
  duration : option Z
}.

(** The decimal rendering of [Date.now()] in a template literal. *)
Definition decimal (z : Z) : string := NilEmpty.string_of_int (Z.to_int z).

(** [startRecording]: the session it makes current.  [idNow] and
    [startNow] are the two readings of the clock, [tabUrl] and [tabTitle]
    the fields of the tab.  No [steps] field is written. *)
Definition startRecording (idNow startNow : Z) (tabUrl tabTitle : option string)
  : Session :=
  mkSession
    (mkRecordingSession ("rec_" +++ decimal idNow)
                        (Some (Player.orString tabTitle "Untitled Recording"))
                        (Some []) None)
    (Player.orString tabUrl EmptyString)
    startNow None None.

(** The [RECORDING_DATA] case of [handleMessage]:
    [this.currentRecording.events = message.payload.events]. *)
Definition recordingData (payload : list RecordedEvent) (current : Session)
  : Session :=
  mkSession
    (mkRecordingSession (recordingId (base current)) (title (base current))
                        (Some payload) (steps (base current)))
    (url current) (startTime current) (endTime current) (duration current).

(** [stopRecording]: the current session with its end time and its
    duration filled in, as it is saved and returned. *)
Definition stopRecording (now : Z) (current : Session) : Session :=
  mkSession (base current) (url current) (startTime current)
            (Some now) (Some (now - startTime current)%Z).

(** The sessions the service worker can hold or store. *)
Inductive Assembled : Session -> Prop :=
| assembled_start idNow startNow tabUrl tabTitle :
    Assembled (startRecording idNow startNow tabUrl tabTitle)
| assembled_data payload current :
    Assembled current -> Assembled (recordingData payload current)
| assembled_stop now current :
    Assembled current -> Assembled (stopRecording now current).

End Worker.

(* ================================================================== *)
(** * The states the player can be in *)
(* ================================================================== *)

Module Reach.
Import Recording Runtime Player Observe.

Definition isNextStep (t : Timer) : bool :=
  match callback t with
  | CbExecuteNextStep => true
  | _ => false
  end.

Definition isAutoHide (t : Timer) : bool :=
  match callback t with
  | CbCleanup => true
  | _ => false
  end.

(** Time passing, no timer firing meanwhile. *)
Definition later (d : Q) (s : Sys) : Sys :=
  mkSys (player s) (trace s) (timers s) (nextTimerId s) (now s + d)%Q
        (uncaught s).

(** What can happen to the player of a page: a message arrives, a pending
    timer fires, time passes. *)
Inductive Reachable (env : Env) : Sys -> Prop :=
| reach_initial : Reachable env initialSys
| reach_message s messageType recording :
    Reachable env s ->
    Reachable env (snd (onMessage env messageType recording s))
| reach_timer s i :
    Reachable env s -> Reachable env (fire env i s)
| reach_later s d :
    Reachable env s -> Reachable env (later d s).

(** Timer handles are positive and never handed out twice: those of the
    pending timers [tm] differ and lie below the next handle [next]. *)
Definition FreshHandles (tm : list Timer) (next : nat) : Prop :=
  1 <= next /\
  (forall t, In t tm -> 1 <= timerId t < next) /\
  NoDup (map timerId tm).

Definition HandlesFresh (s : Sys) : Prop :=
  FreshHandles (timers s) (nextTimerId s).

(** No timer of the next step is pending. *)
Definition NoNextStep (s : Sys) : Prop :=
  forall t, In t (timers s) -> isNextStep t = false.

(** A computation that returns normally in every state. *)
Definition Safe (m : M unit) : Prop := forall s, fst (m s) = Ok tt.

(** The handle the player holds was handed out, and names no pending timer
    other than one of the next step. *)
Definition HandleKnown (s : Sys) : Prop :=
  forall h, playbackInterval (player s) = Some h ->
    1 <= h < nextTimerId s /\
    forall t, In t (timers s) -> timerId t = h -> isNextStep t = true.

(** The page refuses some call on the player's container. *)
Definition Refusing (env : Env) : Prop :=
  exists tr c e, onContainer c = true /\ throws env tr c = Some e.

(** The player was left where [createPlayerUI] threw: the steps loaded,
    the cursor at 0, the container created and hidden. *)
Definition Stranded (env : Env) (p : DOMPlayer) : Prop :=
  currentStepIndex p = 0 /\ playerContainer p = Some display_none /\
  Refusing env.

(** The cursor is inside the steps: past the first step while the player
    is playing; when it is not, at the end, unless the player was left
    stranded. *)
Definition CursorSound (env : Env) (p : DOMPlayer) : Prop :=
  currentStepIndex p <= length (Runtime.steps p) /\
  (isPlaying p = false ->
   currentStepIndex p = length (Runtime.steps p) \/ Stranded env p) /\
  (isPlaying p = true -> 1 <= currentStepIndex p).

(** The player and its timers agree: the cursor is sound, the pending
    timer of the next step is the one whose handle the player holds, and
    there is one exactly while the player is playing. *)
Definition Coherent (env : Env) (s : Sys) : Prop :=
  HandlesFresh s /\
  CursorSound env (player s) /\
  HandleKnown s /\
  (forall t, In t (timers s) -> isNextStep t = true ->
             playbackInterval (player s) = Some (timerId t)) /\
  (isPlaying (player s) = true <->
   exists t, In t (timers s) /\ isNextStep t = true).

(** A computation that leaves the player alone and registers inert timers
    only, under the handles that come next. *)
Definition Orderly {A} (m : M A) : Prop :=
  forall s, exists calls new,
    snd (m s) = extended s calls new /\
    forallb inertTimer new = true /\
    map timerId new = seq (nextTimerId s) (length new).

(** Calls on the console. *)
Definition isConsoleLog (c : Call) : bool :=
  match c with
  | console_log _ _ => true
  | _ => false
  end.

End Reach.

(* ================================================================== *)
(** * Properties of [generateSelectors] *)
(* ================================================================== *)

Module RecorderFacts.
Import JsString Dom Recorder Described.

Lemma runStrategies_flat (l : list (option (list string))) (acc : list (list string)) :
  runStrategies l acc = acc ++ flat_map optlist l.
Proof.
  revert acc; induction l as [|[r|] l IH]; intro acc; simpl.
  - now rewrite app_nil_r.
  - rewrite IH, <- app_assoc; reflexivity.
  - apply IH.
Qed.

Lemma runStrategies_produced doc e d :
  runStrategies (strategies doc e d) [] = produced doc e d.
Proof.
  rewrite runStrategies_flat; unfold strategies, produced; simpl.
  now rewrite app_nil_r.
Qed.

Lemma generateSelectorsOf_cases doc e d :
  generateSelectorsOf doc e d =
  match produced doc e d with
  | [] => [[toLowerCase (tagName d)]]
  | l => l
  end.
Proof.
  unfold generateSelectorsOf; rewrite runStrategies_produced.
  destruct (produced doc e d); reflexivity.
Qed.

Lemma idStrategy_nonempty d c : idStrategy d = Some c -> c <> [].
Proof. unfold idStrategy; destruct (truthy (id d)); intros [= <-]; discriminate. Qed.

Lemma classStrategy_nonempty d c : classStrategy d = Some c -> c <> [].
Proof.
  unfold classStrategy; destruct (className d) as [s|]; [|discriminate].
  destruct (truthy s); [|discriminate].
  destruct (Nat.ltb 0 _); intros [= <-]; discriminate.
Qed.

Lemma pathStrategy_nonempty doc e c : pathStrategy doc e = Some c -> c <> [].
Proof.
  unfold pathStrategy; destruct (walkPath doc e []); intros [= <-]; discriminate.
Qed.

Lemma attrStrategy_nonempty d c : attrStrategy d = Some c -> c <> [].
Proof.
  unfold attrStrategy; destruct (_ ++ _); intros [= <-]; discriminate.
Qed.

Lemma optlist_Forall {A} (P : A -> Prop) (o : option A) :
  (forall a, o = Some a -> P a) -> Forall P (optlist o).
Proof. destruct o; simpl; auto. Qed.

Lemma produced_arrays_nonempty doc e d :
  Forall (fun c => c <> []) (produced doc e d).
Proof.
  unfold produced; repeat (apply Forall_app; split); apply optlist_Forall.
  - apply idStrategy_nonempty.
  - apply classStrategy_nonempty.
  - apply pathStrategy_nonempty.
  - apply attrStrategy_nonempty.
Qed.

(** Away from [document.body] the path walk always yields a selector. *)
Lemma walkPath_grows doc e path :
  path <> [] -> walkPath doc e path <> [].
Proof.
  revert path; induction e as [|i up IH]; intros path Hp; cbn [walkPath].
  - destruct (is_body doc []); [assumption|].
    destruct (node_at doc []); [|assumption].
    destruct (truthy _); discriminate.
  - destruct (is_body doc (i :: up)); [assumption|].
    destruct (node_at doc (i :: up)); [|assumption].
    destruct (truthy _); [discriminate|].
    apply IH; discriminate.
Qed.

Lemma pathStrategy_away_from_body doc e :
  attached doc e -> is_body doc e = false -> pathStrategy doc e <> None.
Proof.
  unfold attached, pathStrategy; intros Ha Hb.
  assert (H : walkPath doc e [] <> []).
  { destruct e as [|i up]; cbn [walkPath]; rewrite Hb.
    - destruct (node_at doc []); [|contradiction].
      destruct (truthy _); discriminate.
    - destruct (node_at doc (i :: up)); [|contradiction].
      destruct (truthy _); [discriminate|].
      apply walkPath_grows; discriminate. }
  destruct (walkPath doc e []); [contradiction|discriminate].
Qed.

(** C7.  For every element of the document, [generateSelectors] returns a
    list of candidates that is not empty, none of whose selector arrays is
    empty; when none of the four strategies produces a candidate, the
    result is the tag name alone. *)
Theorem generateSelectors_never_empty (doc : Document) (e : Element) :
  attached doc e ->
  exists d sels,
    option_map data (node_at doc e) = Some d /\
    generateSelectors doc e = Some sels /\
    sels <> [] /\
    Forall (fun c => c <> []) sels /\
    (produced doc e d = [] -> sels = [[toLowerCase (tagName d)]]).
Proof.
  unfold attached, generateSelectors; intro Ha.
  destruct (node_at doc e) as [n|]; [|contradiction].
  exists (data n), (generateSelectorsOf doc e (data n)); simpl.
  rewrite generateSelectorsOf_cases.
  pose proof (produced_arrays_nonempty doc e (data n)) as HF.
  destruct (produced doc e (data n)) as [|c l] eqn:Hp.
  - repeat split; try discriminate.
    repeat constructor; discriminate.
  - repeat split; try discriminate; try assumption.
Qed.

Lemma generateSelectors_never_empty_witness :
  attached Examples.page Examples.queryInput /\
  exists d sels,
    option_map data (node_at Examples.page Examples.queryInput) = Some d /\
    generateSelectors Examples.page Examples.queryInput = Some sels /\
    sels <> [] /\
    Forall (fun c => c <> []) sels /\
    (produced Examples.page Examples.queryInput d = []
     -> sels = [[toLowerCase (tagName d)]]).
Proof.
  assert (Ha : attached Examples.page Examples.queryInput)
    by (unfold attached; vm_compute; discriminate).
  split; [exact Ha|].
  exact (generateSelectors_never_empty Examples.page Examples.queryInput Ha).
Defined.

(** C6, as the code has it.  For every element of the document the
    candidates come in the order: id selector, class selector (tag name
    with the class names), ancestor path, attribute selector (tag name
    with [data-testid], [name], [type]); the bare tag name is the only
    candidate when the four strategies produce nothing, and is absent
    otherwise.  An element with a non-empty id has its id selector first. *)
Theorem generateSelectors_order (doc : Document) (e : Element) :
  attached doc e ->
  exists d,
    option_map data (node_at doc e) = Some d /\
    generateSelectors doc e =
      Some (match produced doc e d with
            | [] => [[toLowerCase (tagName d)]]
            | l => l
            end) /\
    produced doc e d =
      optlist (idStrategy d) ++ optlist (classStrategy d)
      ++ optlist (pathStrategy doc e) ++ optlist (attrStrategy d) /\
    (truthy (id d) = true ->
     exists rest, generateSelectors doc e = Some (["#" +++ id d] :: rest)).
Proof.
  unfold attached, generateSelectors; intro Ha.
  destruct (node_at doc e) as [n|]; [|contradiction].
  exists (data n); simpl; rewrite generateSelectorsOf_cases.
  repeat split.
  intro Hid. unfold produced, idStrategy. rewrite Hid; simpl.
  eexists; reflexivity.
Qed.

Lemma generateSelectors_order_witness :
  attached Examples.page Examples.goButton /\
  generateSelectors Examples.page Examples.goButton =
    Some [ ["button.btn.primary"];
           ["#app"; "button:nth-child(1)"];
           ["button[data-testid=" +++ dquote +++ "go" +++ dquote
            +++ "][type=" +++ dquote +++ "submit" +++ dquote +++ "]"] ].
Proof.
  assert (Ha : attached Examples.page Examples.goButton)
    by (unfold attached; vm_compute; discriminate).
  split; [exact Ha|].
  destruct (generateSelectors_order Examples.page Examples.goButton Ha)
    as (d & Hd & Hg & _).
  rewrite Hg. vm_compute in Hd. injection Hd as <-. vm_compute. reflexivity.
Defined.

(** C6, as the specification words it, fails: on the input named [q] of
    the example page the attribute selector comes after the ancestor path,
    and no bare tag name closes the list. *)
Lemma generateSelectors_order_counterexample :
  generateSelectors Examples.page Examples.queryInput =
    Some [ ["div:nth-child(2)"; "input"];
           ["input[name=" +++ dquote +++ "q" +++ dquote +++ "]"] ]
  /\ option_map (candidateOrder Examples.page Examples.queryInput)
                (option_map data (node_at Examples.page Examples.queryInput)) =
    Some [ ["input[name=" +++ dquote +++ "q" +++ dquote +++ "]"];
           ["div:nth-child(2)"; "input"];
           ["input"] ]
  /\ generateSelectors Examples.page Examples.queryInput <>
     option_map (candidateOrder Examples.page Examples.queryInput)
                (option_map data (node_at Examples.page Examples.queryInput)).
Proof.
  split; [vm_compute; reflexivity|].
  split; [vm_compute; reflexivity|].
  vm_compute; discriminate.
Qed.

End RecorderFacts.

(* ================================================================== *)
(** * Properties of [findElement] *)
(* ================================================================== *)

Module LocatorFacts.
Import Recording Runtime Player Observe.

Lemma logged_nil s : logged s [] = s.
Proof. destruct s; unfold logged; simpl; now rewrite app_nil_r. Qed.

Lemma logged_logged s a b : logged (logged s a) b = logged s (a ++ b).
Proof. unfold logged; simpl; now rewrite app_assoc. Qed.

Lemma record_logged c s : record c s = logged s [c].
Proof. reflexivity. Qed.

Section Locator.
Variable env : Env.

(** One turn of the inner loop. *)
Lemma findInArray_cons selector rest s :
  findInArray env (selector :: rest) s =
  match querySelectorAll env (trace s) selector with
  | Some (e :: _) => (Ok (Some e), logged s [querySelector selector])
  | _ => findInArray env rest (logged s [querySelector selector])
  end.
Proof.
  cbn [findInArray]; unfold bind, try_catch, document_querySelector, ret.
  destruct (querySelectorAll env (trace s) selector) as [[|e l]|]; reflexivity.
Qed.

Lemma findInArray_scan l s :
  findInArray env l s =
  (Ok (fst (scan env (trace s) l)),
   logged s (map querySelector (snd (scan env (trace s) l)))).
Proof.
  revert s; induction l as [|c r IH]; intro s.
  - simpl; unfold ret; now rewrite logged_nil.
  - rewrite findInArray_cons; cbn [scan].
    destruct (querySelectorAll env (trace s) c) as [[|e l]|]; try reflexivity;
      rewrite IH; cbn [logged trace];
      destruct (scan env (trace s ++ [querySelector c]) r) as [found tried];
      cbn [fst snd map]; now rewrite logged_logged.
Qed.

Lemma scan_app tr a b :
  scan env tr (a ++ b) =
  match scan env tr a with
  | (Some e, tried) => (Some e, tried)
  | (None, tried) =>
      let (found, more) := scan env (tr ++ map querySelector tried) b in
      (found, tried ++ more)
  end.
Proof.
  revert tr; induction a as [|c r IH]; intro tr; cbn [app scan].
  - simpl; rewrite app_nil_r; now destruct (scan env tr b).
  - destruct (querySelectorAll env tr c) as [[|e l]|]; try reflexivity;
      rewrite IH;
      destruct (scan env (tr ++ [querySelector c]) r) as [[e'|] tried];
      try reflexivity; cbn [map]; rewrite <- app_assoc; cbn [app];
      now destruct (scan env _ b).
Qed.

Lemma findInArrays_scan sels s :
  findInArrays env sels s =
  (Ok (fst (scan env (trace s) (concat sels))),
   logged s (map querySelector (snd (scan env (trace s) (concat sels))))).
Proof.
  revert s; induction sels as [|a rest IH]; intro s; cbn [findInArrays concat].
  - simpl; unfold ret; now rewrite logged_nil.
  - unfold bind; rewrite findInArray_scan, scan_app.
    destruct (scan env (trace s) a) as [[e|] tried]; cbn [fst snd].
    + reflexivity.
    + rewrite IH; cbn [logged trace].
      destruct (scan env (trace s ++ map querySelector tried) (concat rest))
        as [found more]; cbn [fst snd].
      now rewrite logged_logged, map_app.
Qed.

(** [findElement] is the scan of the candidates. *)
Lemma findElement_scan selectors s :
  findElement env selectors s =
  (Ok (fst (scan env (trace s) (candidates selectors))),
   logged s (map querySelector (snd (scan env (trace s) (candidates selectors))))).
Proof.
  destruct selectors as [[|a rest]|]; cbn [findElement candidates].
  - simpl; unfold ret; now rewrite logged_nil.
  - apply findInArrays_scan.
  - simpl; unfold ret; now rewrite logged_nil.
Qed.

Lemma scan_first_success tr pre c post e more :
  AllFail env tr pre ->
  querySelectorAll env (tr ++ map querySelector pre) c = Some (e :: more) ->
  scan env tr (pre ++ c :: post) = (Some e, pre ++ [c]).
Proof.
  revert tr; induction pre as [|p r IH]; intros tr Hfail Hc; cbn [app scan].
  - simpl in Hc; rewrite app_nil_r in Hc; now rewrite Hc.
  - destruct Hfail as [Hp Hr].
    cbn [map] in Hc.
    replace (tr ++ querySelector p :: map querySelector r)
      with ((tr ++ [querySelector p]) ++ map querySelector r) in Hc
      by (rewrite <- app_assoc; reflexivity).
    rewrite (IH _ Hr Hc).
    destruct Hp as [-> | ->]; reflexivity.
Qed.

Lemma scan_tried_prefix tr cands :
  exists rest, cands = snd (scan env tr cands) ++ rest /\
               (fst (scan env tr cands) = None -> rest = []).
Proof.
  revert tr; induction cands as [|c r IH]; intro tr; cbn [scan].
  - exists []; split; reflexivity.
  - destruct (querySelectorAll env tr c) as [[|e l]|].
    2:{ exists r; split; [reflexivity|discriminate]. }
    all: destruct (IH (tr ++ [querySelector c])) as (rest & Hr & Hn);
      destruct (scan env (tr ++ [querySelector c]) r) as [found tried];
      cbn [fst snd] in *; exists rest; split; [now rewrite Hr at 1|exact Hn].
Qed.

End Locator.

(** C1, as the code has it.  Whenever some candidate of the target, every
    candidate before it being invalid or matching nothing, matches at
    least one live element, [findElement] returns the first element of
    that match (the matched element itself when the match is unique),
    having queried the candidates in order up to that one and no further.
    The result is the element alone: no confidence comes with it. *)
Theorem findElement_first_success (env : Env) (selectors : list (list string))
        (pre : list string) (c : string) (post : list string)
        (e : Element) (more : list Element) (s : Sys) :
  concat selectors = pre ++ c :: post ->
  AllFail env (trace s) pre ->
  querySelectorAll env (trace s ++ map querySelector pre) c = Some (e :: more) ->
  findElement env (Some selectors) s =
  (Ok (Some e), logged s (map querySelector (pre ++ [c]))).
Proof.
  intros Hc Hfail Hq.
  rewrite findElement_scan; cbn [candidates]; rewrite Hc.
  now rewrite (scan_first_success env _ _ _ post _ _ Hfail Hq).
Qed.

Lemma findElement_first_success_witness :
  findElement Examples.env (Some [["div."; "input"]; ["span"]]) initialSys =
  (Ok (Some Examples.queryInput),
   logged initialSys [querySelector "div."; querySelector "input"]).
Proof.
  apply (findElement_first_success Examples.env [["div."; "input"]; ["span"]]
           ["div."] "input" ["span"] Examples.queryInput [Examples.fileInput]).
  - reflexivity.
  - simpl; split; [left; vm_compute; reflexivity | exact I].
  - vm_compute; reflexivity.
Defined.

(** C1, as the specification words it, fails: what [findElement] returns
    when the first candidate matches one element and what it returns when
    the first candidate matches several are the same value, so no score
    read off the result can be 1.0 in the first case and 0.8 in the
    second. *)
Lemma findElement_confidence_counterexample :
  querySelectorAll Examples.env [] "#app" = Some [[0; 1]] /\
  querySelectorAll Examples.env [] "div" = Some [[0; 1]; [1; 1]] /\
  fst (findElement Examples.env (Some [["#app"]]) initialSys) = Ok (Some [0; 1]) /\
  fst (findElement Examples.env (Some [["div"]]) initialSys) = Ok (Some [0; 1]) /\
  ~ exists confidence : Result (option Element) -> Q,
      (confidence (fst (findElement Examples.env (Some [["#app"]]) initialSys)) == 1)%Q /\
      (confidence (fst (findElement Examples.env (Some [["div"]]) initialSys)) == 8 # 10)%Q.
Proof.
  repeat split; try (vm_compute; reflexivity).
  intros (confidence & H1 & H2).
  replace (fst (findElement Examples.env (Some [["div"]]) initialSys))
    with (fst (findElement Examples.env (Some [["#app"]]) initialSys)) in H2
    by (vm_compute; reflexivity).
  rewrite H1 in H2. discriminate H2.
Qed.

(** C10.  [findElement] is total: for every selectors argument, absent,
    empty or holding invalid selector strings, it returns an element or
    [null] and never throws.  The candidates are queried in order; the
    queries made are a prefix of the candidates, all of them when the
    result is [null]; an invalid candidate is skipped and the search goes
    on with the remaining ones. *)
Theorem findElement_total (env : Env) (selectors : option (list (list string)))
        (s : Sys) :
  (exists found tried rest,
     findElement env selectors s = (Ok found, logged s (map querySelector tried)) /\
     candidates selectors = tried ++ rest /\
     (found = None -> rest = [])) /\
  findElement env None s = (Ok None, s) /\
  findElement env (Some []) s = (Ok None, s) /\
  (forall c cs more,
     querySelectorAll env (trace s) c = None ->
     findElement env (Some ((c :: cs) :: more)) s =
     findElement env (Some (cs :: more)) (logged s [querySelector c])).
Proof.
  split; [|split; [reflexivity|split; [reflexivity|]]].
  - rewrite findElement_scan.
    destruct (scan_tried_prefix env (trace s) (candidates selectors))
      as (rest & Hr & Hn).
    eexists _, _, rest; split; [reflexivity|split; assumption].
  - intros c cs more Hc.
    cbn [findElement findInArrays]; unfold bind.
    rewrite findInArray_cons, Hc; reflexivity.
Qed.

Lemma findElement_total_witness :
  querySelectorAll Examples.env [] "div." = None /\
  findElement Examples.env (Some [["div."; "input"]]) initialSys =
  (Ok (Some Examples.queryInput),
   logged initialSys [querySelector "div."; querySelector "input"]).
Proof.
  split; [vm_compute; reflexivity|].
  destruct (findElement_total Examples.env (Some [["div."; "input"]]) initialSys)
    as (_ & _ & _ & Hskip).
  rewrite (Hskip "div." ["input"] []) by (vm_compute; reflexivity).
  vm_compute; reflexivity.
Defined.

End LocatorFacts.

(* ================================================================== *)
(** * Computations that leave the player alone *)
(* ================================================================== *)

Module FrameFacts.
Import Recording Runtime Player Observe LocatorFacts.

Lemma extended_nil s : extended s [] [] = s.
Proof.
  destruct s; unfold extended; cbn.
  now rewrite !app_nil_r, Nat.add_0_r.
Qed.

Lemma extended_extended s c1 n1 c2 n2 :
  extended (extended s c1 n1) c2 n2 = extended s (c1 ++ c2) (n1 ++ n2).
Proof.
  unfold extended; cbn.
  now rewrite !app_assoc, length_app, Nat.add_assoc.
Qed.

Lemma logged_extended s calls : logged s calls = extended s calls [].
Proof.
  destruct s; unfold logged, extended; cbn.
  now rewrite app_nil_r, Nat.add_0_r.
Qed.

Lemma extended_record c s calls new :
  extended (record c s) calls new = extended s (c :: calls) new.
Proof.
  destruct s; unfold extended, record, with_trace; cbn.
  now rewrite <- app_assoc.
Qed.

Lemma record_extended c s calls new :
  record c (extended s calls new) = extended s (calls ++ [c]) new.
Proof.
  destruct s; unfold extended, record, with_trace; cbn.
  now rewrite <- app_assoc.
Qed.

Lemma Silent_Frames {A} (m : M A) : Silent m -> Frames m.
Proof.
  intros H s; destruct (H s) as (calls & Hs & Hq).
  exists calls, []; rewrite Hs, logged_extended; auto.
Qed.

Lemma Silent_ret {A} (a : A) : Silent (ret a).
Proof. intro s; exists []; now rewrite logged_nil. Qed.

Lemma Silent_bind {A B} (m : M A) (k : A -> M B) :
  Silent m -> (forall a, Silent (k a)) -> Silent (bind m k).
Proof.
  intros Hm Hk s; unfold bind.
  destruct (Hm s) as (c1 & H1 & Q1).
  destruct (m s) as [[a|e] s1]; cbn [snd] in *; subst s1.
  - destruct (Hk a (logged s c1)) as (c2 & H2 & Q2).
    exists (c1 ++ c2); rewrite H2, logged_logged, forallb_app, Q1, Q2; auto.
  - exists c1; auto.
Qed.

Lemma Silent_try_catch {A} (m : M A) (h : Exn -> M A) :
  Silent m -> (forall e, Silent (h e)) -> Silent (try_catch m h).
Proof.
  intros Hm Hh s; unfold try_catch.
  destruct (Hm s) as (c1 & H1 & Q1).
  destruct (m s) as [[a|e] s1]; cbn [snd] in *; subst s1.
  - exists c1; auto.
  - destruct (Hh e (logged s c1)) as (c2 & H2 & Q2).
    exists (c1 ++ c2); rewrite H2, logged_logged, forallb_app, Q1, Q2; auto.
Qed.

Lemma Silent_get : Silent get.
Proof. intro s; exists []; now rewrite logged_nil. Qed.

Section Page.
Variable env : Env.

Lemma Silent_emit c : quiet c = true -> Silent (emit c).
Proof. intros Hc s; exists [c]; cbn; now rewrite Hc. Qed.

Lemma Silent_domCall c : quiet c = true -> Silent (domCall env c).
Proof.
  intros Hc s; exists [c]; unfold domCall.
  destruct (throws env (trace s) c); cbn; now rewrite Hc.
Qed.

Lemma Silent_domRead {A} c (f : Trace -> A) :
  quiet c = true -> Silent (domRead env c f).
Proof.
  intros Hc s; exists [c]; unfold domRead.
  destruct (throws env (trace s) c); cbn; now rewrite Hc.
Qed.

Lemma quiet_queries l : forallb quiet (map querySelector l) = true.
Proof. induction l; cbn; auto. Qed.

Lemma Silent_findElement selectors : Silent (findElement env selectors).
Proof.
  intro s; rewrite findElement_scan; eexists; split; [reflexivity|].
  apply quiet_queries.
Qed.

Lemma Frames_ret {A} (a : A) : Frames (ret a).
Proof. apply Silent_Frames, Silent_ret. Qed.

Lemma Frames_bind {A B} (m : M A) (k : A -> M B) :
  Frames m -> (forall a, Frames (k a)) -> Frames (bind m k).
Proof.
  intros Hm Hk s; unfold bind.
  destruct (Hm s) as (c1 & n1 & H1 & Q1 & I1).
  destruct (m s) as [[a|e] s1]; cbn [snd] in *; subst s1.
  - destruct (Hk a (extended s c1 n1)) as (c2 & n2 & H2 & Q2 & I2).
    exists (c1 ++ c2), (n1 ++ n2).
    rewrite H2, extended_extended, !forallb_app, Q1, Q2, I1, I2; auto.
  - exists c1, n1; auto.
Qed.

Lemma Frames_setTimeout cb delay :
  inertCallback cb = true -> Frames (js_setTimeout cb delay).
Proof.
  intros Hcb s.
  exists [setTimeout (nextTimerId s) cb delay],
         [mkTimer (nextTimerId s) (now s + delay)%Q cb].
  unfold js_setTimeout, extended; cbn.
  rewrite Nat.add_1_r. repeat split.
  - unfold quiet; cbn. destruct cb; cbn in *; auto; discriminate.
  - unfold inertTimer; cbn; now rewrite Hcb.
Qed.

Lemma Frames_highlightElement el : Frames (highlightElement env el).
Proof.
  unfold highlightElement.
  apply Frames_bind; [apply Silent_Frames, Silent_domRead; reflexivity|intro a].
  apply Frames_bind; [apply Silent_Frames, Silent_domCall; reflexivity|intros _].
  apply Frames_bind; [apply Frames_setTimeout; reflexivity|intros _].
  apply Frames_ret.
Qed.

Lemma Frames_executeNavigate step : Frames (executeNavigate env step).
Proof.
  unfold executeNavigate.
  apply Frames_bind; [apply Silent_Frames, Silent_get|intro s0].
  destruct (url step) as [u|]; [|apply Frames_ret].
  destruct (_ && _); [|apply Frames_ret].
  apply Silent_Frames, Silent_emit; reflexivity.
Qed.

Lemma Frames_executeClick step : Frames (executeClick env step).
Proof.
  unfold executeClick.
  apply Frames_bind; [apply Silent_Frames, Silent_findElement|intros [el|]].
  - apply Frames_bind; [apply Frames_highlightElement|intros _].
    apply Frames_bind; [apply Frames_setTimeout; reflexivity|intros _].
    apply Frames_ret.
  - apply Frames_ret.
Qed.

Lemma Frames_executeChange step : Frames (executeChange env step).
Proof.
  unfold executeChange.
  apply Frames_bind; [apply Silent_Frames, Silent_findElement|intros [el|]].
  - destruct (value step); [|apply Frames_ret].
    apply Frames_bind; [apply Frames_highlightElement|intros _].
    apply Frames_bind; [apply Frames_setTimeout; reflexivity|intros _].
    apply Frames_ret.
  - apply Frames_ret.
Qed.

Lemma Frames_executeKeyPress step : Frames (executeKeyPress env step).
Proof.
  unfold executeKeyPress.
  apply Frames_bind; [apply Silent_Frames, Silent_findElement|intros [el|]].
  - destruct (truthyString _); [|apply Frames_ret].
    apply Frames_bind; [apply Frames_highlightElement|intros _].
    apply Frames_bind; [apply Frames_setTimeout; reflexivity|intros _].
    apply Frames_ret.
  - apply Frames_ret.
Qed.

Lemma Frames_executeScroll step : Frames (executeScroll env step).
Proof.
  unfold executeScroll.
  apply Frames_bind; [apply Silent_Frames, Silent_get|intro s0].
  apply Silent_Frames, Silent_domCall; reflexivity.
Qed.

Lemma Frames_dispatchStep step : Frames (dispatchStep env step).
Proof.
  unfold dispatchStep; destruct (type step);
    first [ apply Frames_executeNavigate | apply Frames_executeClick
          | apply Frames_executeChange | apply Frames_executeKeyPress
          | apply Frames_executeScroll
          | apply Silent_Frames, Silent_emit; reflexivity ].
Qed.

(** [executeStep] never throws: it announces the step, and whatever the
    executor does, it leaves the player alone. *)
Lemma executeStep_spec step s :
  exists calls new,
    executeStep env step s = (Ok tt, extended s (announce step :: calls) new) /\
    forallb quiet calls = true /\
    forallb inertTimer new = true.
Proof.
  unfold executeStep, bind, emit, update, try_catch.
  fold (announce step).
  destruct (Frames_dispatchStep step (record (announce step) s))
    as (calls & new & H & Q & I).
  destruct (dispatchStep env step (record (announce step) s)) as [[[]|e] s1];
    cbn [snd] in H; subst s1.
  - exists calls, new; repeat split; auto.
    now rewrite extended_record.
  - exists (calls ++ [console_error "[Zordon Player] Error executing step:" (ErrorArg e)]), new.
    repeat split; auto.
    + cbn [fst snd]. now rewrite extended_record, record_extended.
    + rewrite forallb_app, Q; reflexivity.
Qed.

(** The closures of the executors only make quiet calls. *)
Lemma Silent_inert_callback cb :
  inertCallback cb = true -> Silent (runCallback env cb).
Proof.
  destruct cb; cbn; try discriminate; intros _.
  - unfold dispatchClick.
    apply Silent_bind; [apply Silent_domRead; reflexivity|intro r].
    apply Silent_domCall; reflexivity.
  - unfold applyChange.
    apply Silent_bind; [apply Silent_domCall; reflexivity|intros _].
    apply Silent_bind; [apply Silent_domCall; reflexivity|intros _].
    apply Silent_domCall; reflexivity.
  - unfold dispatchKey. apply Silent_domCall; reflexivity.
  - unfold restoreStyle. apply Silent_domCall; reflexivity.
Qed.

End Page.
End FrameFacts.

(* ================================================================== *)
(** * The playback loop *)
(* ================================================================== *)

Module LoopFacts.
Import Recording Runtime Player Observe LocatorFacts FrameFacts.

(** ** Lists of timers and traces *)

Lemma removeAt_length {A} (l : list A) i t :
  nth_error l i = Some t -> S (length (removeAt i l)) = length l.
Proof.
  revert i; induction l as [|x l IH]; intros [|i] H; cbn in *; try discriminate.
  - reflexivity.
  - now rewrite (IH i H).
Qed.

Lemma filter_removeAt_off {A} (p : A -> bool) (l : list A) i t :
  nth_error l i = Some t -> p t = false ->
  filter p (removeAt i l) = filter p l.
Proof.
  revert i; induction l as [|x l IH]; intros [|i] H Hp; cbn in *; try discriminate.
  - injection H as ->; now rewrite Hp.
  - now rewrite (IH i H Hp).
Qed.

Lemma filter_removeAt_on {A B} (p : A -> bool) (f : A -> B) (l : list A) i t x :
  nth_error l i = Some t -> p t = true ->
  map f (filter p l) = [x] ->
  filter p (removeAt i l) = [] /\ f t = x.
Proof.
  revert i; induction l as [|y l IH]; intros [|i] H Hp Hm; cbn in *; try discriminate.
  - injection H as ->; rewrite Hp in Hm; cbn in Hm.
    injection Hm as Hx Hr; split; [|assumption].
    destruct (filter p l); [reflexivity|discriminate].
  - destruct (p y) eqn:Hy; cbn in Hm.
    + injection Hm as Hx Hr.
      assert (Hin : In t (filter p l))
        by (apply filter_In; split; [eapply nth_error_In; eassumption|assumption]).
      destruct (filter p l); [contradiction|discriminate].
    + apply (IH i H Hp Hm).
Qed.

Lemma executedSteps_app a b :
  executedSteps (a ++ b) = executedSteps a ++ executedSteps b.
Proof.
  induction a as [|c a IH]; cbn; [reflexivity|].
  destruct (executedStep c); cbn; now rewrite IH.
Qed.

Lemma executedSteps_quiet calls :
  forallb quiet calls = true -> executedSteps calls = [].
Proof.
  induction calls as [|c r IH]; cbn; [reflexivity|].
  intro H; apply andb_prop in H as [Hc Hr].
  unfold quiet in Hc. destruct (executedStep c); [discriminate|auto].
Qed.

Lemma nextStepDelays_app a b :
  nextStepDelays (a ++ b) = nextStepDelays a ++ nextStepDelays b.
Proof.
  induction a as [|c a IH]; cbn; [reflexivity|].
  destruct (nextStepDelay c); cbn; now rewrite IH.
Qed.

Lemma nextStepDelays_quiet calls :
  forallb quiet calls = true -> nextStepDelays calls = [].
Proof.
  induction calls as [|c r IH]; cbn; [reflexivity|].
  intro H; apply andb_prop in H as [Hc Hr].
  unfold quiet in Hc.
  destruct (executedStep c); [discriminate|].
  destruct (nextStepDelay c); [discriminate|auto].
Qed.

Lemma executedSteps_announce step : executedSteps [announce step] = [step].
Proof. reflexivity. Qed.

Lemma firstn_snoc {A} (l : list A) k x :
  nth_error l k = Some x -> firstn (S k) l = firstn k l ++ [x].
Proof.
  revert k; induction l as [|y l IH]; intros [|k] H; cbn in *; try discriminate.
  - now injection H as ->.
  - now rewrite <- (IH k H).
Qed.

Lemma filter_inert_new new :
  forallb inertTimer new = true -> filter active new = [].
Proof.
  induction new as [|t r IH]; cbn; [reflexivity|].
  intro H; apply andb_prop in H as [Ht Hr].
  unfold active; rewrite Ht; cbn; auto.
Qed.

Section Page.
Variable env : Env.

(** ** One turn of the loop *)

Lemma stepDelay_initial p : playbackSpeed p = 1%Q -> stepDelay p = 1000%Q.
Proof. unfold stepDelay; intros ->; reflexivity. Qed.

(** With steps left, [executeNextStep] announces the next one, runs it,
    moves the cursor past it and schedules itself again. *)
Lemma executeNextStep_advances base ss k s :
  Ready base ss k s -> k < length ss ->
  exists s', executeNextStep env s = (Ok tt, s') /\ Playing base ss (S k) s'.
Proof.
  intros [(Hp & Hs & Hk & Hle & Hc & Hx) Ht] Hlt.
  destruct (nth_error ss k) as [step|] eqn:Hn;
    [|apply nth_error_None in Hn; lia].
  destruct (executeStep_spec env step s) as (calls & new & He & Q & I).
  unfold executeNextStep, bind, get, setPlayer, update, js_setTimeout.
  rewrite Hp, Hs, Hk; cbn [negb orb].
  destruct (Nat.leb_spec (length ss) k) as [|_]; [lia|].
  rewrite Hn, He; cbn.
  eexists; split; [reflexivity|].
  repeat split; cbn; auto.
  - lia.
  - rewrite !executedSteps_app, Hx.
    replace (announce step :: calls) with ([announce step] ++ calls) by reflexivity.
    rewrite executedSteps_app, executedSteps_announce, (executedSteps_quiet _ Q).
    cbn. rewrite app_nil_r, <- app_assoc. f_equal.
    symmetry; now apply firstn_snoc.
  - rewrite !filter_app, Ht, (filter_inert_new _ I); reflexivity.
Qed.

(** From here on the page lets the player fill, attach and rewrite its
    container. *)
Hypothesis Hallowed : ContainerAllowed env.

(** With no step left, [executeNextStep] stops and shows completion. *)
Lemma executeNextStep_completes base ss s :
  Ready base ss (length ss) s ->
  exists s', executeNextStep env s = (Ok tt, s') /\ Completed base ss s'.
Proof.
  intros [(Hp & Hs & Hk & Hle & Hc & Hx) Ht].
  unfold executeNextStep, bind, get, setPlayer, update.
  rewrite Hp, Hs, Hk, Nat.leb_refl; cbn.
  unfold showCompletionMessage, bind, get, setPlayer, update, domCall,
    js_setTimeout; cbn.
  destruct (playerContainer (player s)) as [d|] eqn:Hd; [|contradiction].
  cbn. rewrite (Hallowed _ showCompletion eq_refl); cbn.
  eexists; split; [reflexivity|].
  repeat split; cbn; auto.
  - rewrite !executedSteps_app, Hx; cbn. now rewrite firstn_all, !app_nil_r.
  - exists (trace s), (nextTimerId s). now rewrite <- app_assoc.
Qed.

(** ** One timer firing *)

Lemma tick_Playing sched base ss k s :
  Playing base ss k s ->
  Completed base ss (tick env sched s)
  \/ (Playing base ss k (tick env sched s)
      /\ length (timers (tick env sched s)) < length (timers s))
  \/ (k < length ss /\ Playing base ss (S k) (tick env sched s)).
Proof.
  intros [HU Ht].
  assert (Hne : timers s <> []) by (destruct (timers s); [discriminate|discriminate]).
  set (i := Nat.modulo (sched s) (length (timers s))).
  assert (Hi : i < length (timers s)).
  { apply Nat.mod_upper_bound. destruct (timers s); [contradiction|cbn; lia]. }
  destruct (nth_error (timers s) i) as [t|] eqn:Hn;
    [|apply nth_error_None in Hn; lia].
  unfold tick; fold i; unfold fire; rewrite Hn.
  set (s1 := mkSys (player s) (trace s) (removeAt i (timers s)) (nextTimerId s)
                   (Qmax (now s) (due t)) (uncaught s)).
  assert (HU1 : Underway base ss k s1) by exact HU.
  destruct (inertTimer t) eqn:Hin.
  - (* a closure of an executor *)
    right; left.
    destruct (Silent_inert_callback env (callback t) Hin s1) as (calls & Hs & Q).
    assert (Hgoal : forall s2 u,
      Playing base ss k
              (mkSys (player (logged s1 calls)) (trace (logged s1 calls))
                     (timers (logged s1 calls)) (nextTimerId s2) (now s2) u)
      /\ length (timers (logged s1 calls)) < length (timers s)).
    { intros s2 u. destruct HU as (Hp & Hs' & Hk & Hle & Hc & Hx).
      split.
      - repeat split; cbn; auto.
        + now rewrite executedSteps_app, (executedSteps_quiet _ Q), app_nil_r.
        + rewrite (filter_removeAt_off active (timers s) i t Hn); [assumption|].
          unfold active; now rewrite Hin.
      - cbn. pose proof (removeAt_length _ _ _ Hn). lia. }
    destruct (runCallback env (callback t) s1) as [[[]|e] s2];
      cbn [snd] in Hs; subst s2.
    + destruct (Hgoal (logged s1 calls) (uncaught (logged s1 calls))) as [G1 G2].
      split; [exact G1|exact G2].
    + destruct (Hgoal (logged s1 calls) (uncaught (logged s1 calls) ++ [e]))
        as [G1 G2].
      split; [exact G1|exact G2].
  - (* the timer of the next step *)
    destruct (filter_removeAt_on active callback (timers s) i t CbExecuteNextStep
                Hn) as [Hnone Hcb]; [unfold active; now rewrite Hin|assumption|].
    rewrite Hcb; cbn [runCallback].
    assert (HR : Ready base ss k s1) by (split; [exact HU1|exact Hnone]).
    destruct HU as (Hp & Hs' & Hk & Hle & Hc & Hx).
    destruct (Nat.eq_dec k (length ss)) as [->|Hneq].
    + left. destruct (executeNextStep_completes base ss s1 HR) as (s' & -> & HC).
      exact HC.
    + right; right. assert (Hlt : k < length ss) by lia.
      destruct (executeNextStep_advances base ss k s1 HR Hlt) as (s' & -> & HP).
      split; assumption.
Qed.

(** Playback under way completes, whatever order the timers fire in. *)
Lemma Playing_completes sched base ss :
  forall r n k s,
    length ss - k = r -> length (timers s) = n -> Playing base ss k s ->
    exists fuel, Completed base ss (run env sched fuel s).
Proof.
  induction r as [|r IHr];
    (induction n as [n IHn] using lt_wf_ind; intros k s Hr Hlen HP;
     destruct (tick_Playing sched base ss k s HP)
       as [HC | [[HP' Hless] | [Hlt HP']]];
     [ exists 1; exact HC
     | destruct (IHn (length (timers (tick env sched s))) ltac:(lia) k
                     (tick env sched s) Hr eq_refl HP') as (fuel & HC);
       exists (S fuel); exact HC
     | ]).
  - lia.
  - destruct (IHr (length (timers (tick env sched s))) (S k) (tick env sched s)
                  ltac:(lia) eq_refl HP') as (fuel & HC).
    exists (S fuel); exact HC.
Qed.

(** ** Starting playback *)

Lemma filter_active_cleared (l : list Timer) id :
  (forall t, In t l -> active t = true -> timerId t = id) ->
  filter active (filter (fun t => negb (Nat.eqb (timerId t) id)) l) = [].
Proof.
  induction l as [|t r IH]; intro H; cbn; [reflexivity|].
  assert (Hr : forall t', In t' r -> active t' = true -> timerId t' = id)
    by (intros t' Hin; apply H; now right).
  destruct (Nat.eqb (timerId t) id) eqn:E; cbn; [now apply IH|].
  destruct (active t) eqn:Ha; [|now apply IH].
  rewrite (H t (or_introl eq_refl) Ha), Nat.eqb_refl in E; discriminate.
Qed.

Lemma filter_active_none (l : list Timer) :
  (forall t, In t l -> active t = true -> False) -> filter active l = [].
Proof.
  induction l as [|t r IH]; intro H; cbn; [reflexivity|].
  destruct (active t) eqn:Ha; [destruct (H t (or_introl eq_refl) Ha)|].
  apply IH; intros t' Hin; apply H; now right.
Qed.

(** [cleanup] cancels the tracked timer and removes the container; it
    announces no step. *)
Lemma cleanup_clears s :
  Tracked s ->
  exists s' calls,
    cleanup s = (Ok tt, s') /\
    playerContainer (player s') = None /\
    trace s' = trace s ++ calls /\
    executedSteps calls = [] /\
    filter active (timers s') = [].
Proof.
  intro HT. unfold Tracked in HT.
  destruct s as [[cont playing idx sts speed handle] tr tm nid nw unc].
  cbn [player timers playbackInterval] in HT.
  unfold cleanup, bind, get, setPlayer, update, js_clearTimeout, emit.
  cbn [player playbackInterval].
  destruct (truthyHandle handle) as [id|] eqn:Hh; destruct cont as [d|]; cbn.
  - eexists _, [clearTimeout id; removePlayerContainer].
    split; [reflexivity|]; cbn; rewrite <- app_assoc; repeat split.
    apply filter_active_cleared; intros t Hin Ha.
    specialize (HT t Hin Ha); now injection HT as <-.
  - eexists _, [clearTimeout id].
    split; [reflexivity|]; cbn; repeat split.
    apply filter_active_cleared; intros t Hin Ha.
    specialize (HT t Hin Ha); now injection HT as <-.
  - eexists _, [removePlayerContainer].
    split; [reflexivity|]; cbn; repeat split.
    apply filter_active_none; intros t Hin Ha.
    specialize (HT t Hin Ha); discriminate.
  - eexists _, [].
    split; [reflexivity|]; cbn; rewrite app_nil_r; repeat split.
    apply filter_active_none; intros t Hin Ha.
    specialize (HT t Hin Ha); discriminate.
Qed.

(** In any state, [cleanup] leaves the player idle; it announces no step
    and registers no timer. *)
Lemma cleanup_resets s :
  exists s' calls,
    cleanup s = (Ok tt, s') /\
    trace s' = trace s ++ calls /\
    executedSteps calls = [] /\
    isPlaying (player s') = false /\
    Runtime.steps (player s') = [] /\
    currentStepIndex (player s') = 0 /\
    playerContainer (player s') = None /\
    nextTimerId s' = nextTimerId s /\
    (forall t, In t (timers s') -> In t (timers s)).
Proof.
  destruct s as [[cont playing idx sts speed handle] tr tm nid nw unc].
  unfold cleanup, bind, get, setPlayer, update, js_clearTimeout, emit.
  cbn [player playbackInterval].
  destruct (truthyHandle handle) as [id|] eqn:Hh; destruct cont as [d|]; cbn.
  - eexists _, [clearTimeout id; removePlayerContainer].
    split; [reflexivity|]; cbn; rewrite <- app_assoc; repeat split.
    intros t Hin; now apply filter_In in Hin.
  - eexists _, [clearTimeout id].
    split; [reflexivity|]; cbn; repeat split.
    intros t Hin; now apply filter_In in Hin.
  - eexists _, [removePlayerContainer].
    split; [reflexivity|]; cbn; repeat split. auto.
  - eexists _, [].
    split; [reflexivity|]; cbn; rewrite app_nil_r; repeat split. auto.
Qed.

(** A recording with steps, handed to a player whose timers are tracked,
    starts playing: its first step is run at once. *)
Lemma playRecording_starts recording ss s :
  Recording.steps recording = Some ss -> ss <> [] -> Tracked s ->
  exists s', playRecording env recording s = (Ok tt, s')
             /\ Playing (executedSteps (trace s)) ss 1 s'.
Proof.
  intros Hs Hne HT.
  set (hello := console_log "[Zordon] Starting playback for:"
                            (TextArg (recordingId recording))).
  assert (HT1 : Tracked (record hello s)) by exact HT.
  destruct (cleanup_clears (record hello s) HT1)
    as (s1 & calls & Hc & Hcont & Htr & Hex & Hact).
  set (fill := fillPlayerContainer (orString (title recording) "Untitled")).
  set (s0 := mkSys (mkDOMPlayer (Some display_none) true 0 ss
                                (playbackSpeed (player s1))
                                (playbackInterval (player s1)))
                   ((trace s1 ++ [fill]) ++ [appendPlayerContainer])
                   (timers s1) (nextTimerId s1) (now s1) (uncaught s1)).
  assert (HR : Ready (executedSteps (trace s)) ss 0 s0).
  { repeat split; cbn; auto; try lia; try discriminate.
    rewrite Htr; cbn.
    rewrite !executedSteps_app, Hex; cbn. now rewrite !app_nil_r. }
  assert (Hlt : 0 < length ss) by (destruct ss; [contradiction|cbn; lia]).
  destruct (executeNextStep_advances _ ss 0 s0 HR Hlt) as (s' & He & HP).
  exists s'; split; [|exact HP].
  rewrite <- He.
  unfold playRecording, bind, emit, update. fold hello. rewrite Hc.
  unfold get, setPlayer, update, createPlayerUI, startPlayback, bind, domCall,
    get, setPlayer, update; cbn.
  rewrite Hs. destruct ss as [|st ss']; [contradiction|]. cbn.
  fold fill. rewrite (Hallowed _ fill eq_refl); cbn.
  rewrite (Hallowed _ appendPlayerContainer eq_refl); cbn.
  reflexivity.
Qed.

Lemma Tracked_initial : Tracked initialSys.
Proof. intros t []. Qed.

(** A page built from a document tree refuses nothing the player does to
    its own container. *)
Lemma static_allowed doc rects scrollTop href :
  ContainerAllowed (Page.static doc rects scrollTop href).
Proof. intros tr c Hc; destruct c; try discriminate Hc; reflexivity. Qed.

(** ** Nothing pending *)

Lemma tick_idle sched s : timers s = [] -> tick env sched s = s.
Proof.
  intro H; unfold tick, fire; rewrite H.
  destruct (Nat.modulo _ _); reflexivity.
Qed.

Lemma run_add sched a b s :
  run env sched (a + b) s = run env sched b (run env sched a s).
Proof. revert s; induction a as [|a IH]; intro s; cbn; [reflexivity|apply IH]. Qed.

Lemma run_idle sched fuel s : timers s = [] -> run env sched fuel s = s.
Proof.
  intro H; induction fuel as [|f IH]; [reflexivity|].
  cbn [run]; now rewrite tick_idle.
Qed.

End Page.
End LoopFacts.

(* ================================================================== *)
(** * The pace of playback *)
(* ================================================================== *)

Module PaceFacts.
Import Recording Runtime Player Observe LocatorFacts FrameFacts LoopFacts.

Lemma pace_extended s calls new :
  SteadyPace s -> nextStepDelays calls = [] -> SteadyPace (extended s calls new).
Proof.
  intros [Hp Hd] Q; split; cbn; [assumption|].
  now rewrite nextStepDelays_app, Q, app_nil_r.
Qed.

Lemma pace_record s c :
  SteadyPace s -> nextStepDelay c = None -> SteadyPace (record c s).
Proof.
  intros [Hp Hd] Hc; split; cbn; [assumption|].
  rewrite nextStepDelays_app; cbn; rewrite Hc, app_nil_r; assumption.
Qed.

Lemma Paced_ret {A} (a : A) : Paced (ret a).
Proof. intros s H; exact H. Qed.

Lemma Paced_bind {A B} (m : M A) (k : A -> M B) :
  Paced m -> (forall a, Paced (k a)) -> Paced (bind m k).
Proof.
  intros Hm Hk s H; unfold bind.
  pose proof (Hm s H) as H1.
  destruct (m s) as [[a|e] s1]; cbn [snd] in *; [apply Hk|]; assumption.
Qed.

Lemma Paced_get_bind {B} (k : Sys -> M B) :
  (forall s, SteadyPace s -> SteadyPace (snd (k s s))) -> Paced (bind get k).
Proof. intros Hk s H; unfold bind, get; now apply Hk. Qed.

Lemma Paced_emit c : nextStepDelay c = None -> Paced (emit c).
Proof. intros Hc s H; now apply pace_record. Qed.

Lemma Paced_setPlayer f :
  (forall p, playbackSpeed (f p) = playbackSpeed p) -> Paced (setPlayer f).
Proof. intros Hf s [Hp Hd]; split; cbn; [now rewrite Hf|assumption]. Qed.

Lemma Paced_Frames {A} (m : M A) : Frames m -> Paced m.
Proof.
  intros Hm s H; destruct (Hm s) as (calls & new & -> & Q & _).
  apply pace_extended; [assumption|now apply nextStepDelays_quiet].
Qed.

Lemma Paced_clearTimeout id : Paced (js_clearTimeout id).
Proof.
  intros s [Hp Hd]; split; cbn; [assumption|].
  rewrite nextStepDelays_app; cbn; now rewrite app_nil_r.
Qed.

Lemma Paced_cleanup : Paced cleanup.
Proof.
  unfold cleanup.
  apply Paced_get_bind; intros s H.
  assert (Hrest : Paced (setPlayer (set_isPlaying false) ;;
                         setPlayer (set_currentStepIndex 0) ;;
                         setPlayer (set_steps []) ;;
                         s' <- get ;;
                         match playerContainer (player s') with
                         | Some _ => emit removePlayerContainer ;;
                                     setPlayer (set_playerContainer None)
                         | None => ret tt
                         end)%js).
  { repeat (apply Paced_bind; [apply Paced_setPlayer; reflexivity|intros _]).
    apply Paced_get_bind; intros s' H'.
    destruct (playerContainer (player s')); [|exact H'].
    apply Paced_bind; [apply Paced_emit; reflexivity|intros _|exact H'].
    apply Paced_setPlayer; reflexivity. }
  apply Paced_bind; [|intros _; exact Hrest|exact H].
  destruct (truthyHandle _); [|apply Paced_ret].
  apply Paced_bind; [apply Paced_clearTimeout|intros _].
  apply Paced_setPlayer; reflexivity.
Qed.

Lemma Paced_setTimeout cb delay :
  nextStepDelay (setTimeout 0 cb delay) = None \/ delay = 1000%Q ->
  Paced (js_setTimeout cb delay).
Proof.
  intros Hd s [Hp Hf]; split; cbn; [assumption|].
  rewrite nextStepDelays_app; apply Forall_app; split; [assumption|].
  destruct cb; cbn in *; try constructor;
    destruct Hd as [Hd|Hd]; try discriminate; auto.
Qed.

Section Page.
Variable env : Env.

Lemma Paced_domCall c : nextStepDelay c = None -> Paced (domCall env c).
Proof.
  intros Hc s H; unfold domCall.
  destruct (throws env (trace s) c); now apply pace_record.
Qed.

Lemma Paced_showCompletionMessage : Paced (showCompletionMessage env).
Proof.
  unfold showCompletionMessage.
  apply Paced_get_bind; intros s H.
  destruct (playerContainer (player s)); [|exact H].
  apply Paced_bind; [apply Paced_setPlayer; reflexivity|intros _|exact H].
  apply Paced_bind; [apply Paced_domCall; reflexivity|intros _].
  apply Paced_bind; [apply Paced_setTimeout; left; reflexivity|intros _].
  apply Paced_ret.
Qed.

Lemma Paced_executeStep step : Paced (executeStep env step).
Proof.
  intros s H.
  destruct (executeStep_spec env step s) as (calls & new & -> & Q & _).
  apply pace_extended; [assumption|]. cbn; now apply nextStepDelays_quiet.
Qed.

Lemma Paced_executeNextStep : Paced (executeNextStep env).
Proof.
  unfold executeNextStep.
  apply Paced_get_bind; intros s H.
  destruct (_ || _).
  - apply Paced_bind; [apply Paced_setPlayer; reflexivity|intros _|exact H].
    apply Paced_showCompletionMessage.
  - destruct (nth_error _ _) as [step|]; [|exact H].
    apply Paced_bind; [apply Paced_executeStep|intros _|exact H].
    apply Paced_bind; [apply Paced_setPlayer; reflexivity|intros _].
    apply Paced_get_bind; intros s' H'.
    apply Paced_bind; [|intro id|exact H'].
    + apply Paced_setTimeout; right. apply stepDelay_initial, H'.
    + apply Paced_setPlayer; reflexivity.
Qed.

Lemma Paced_runCallback cb : Paced (runCallback env cb).
Proof.
  destruct cb;
    try (apply Paced_Frames, Silent_Frames, Silent_inert_callback; reflexivity).
  - apply Paced_executeNextStep.
  - apply Paced_cleanup.
Qed.

Lemma pace_tick sched s : SteadyPace s -> SteadyPace (tick env sched s).
Proof.
  intro H; unfold tick, fire.
  destruct (nth_error _ _) as [t|]; [|exact H].
  match goal with |- context [runCallback env (callback t) ?s1] =>
    assert (H1 : SteadyPace (snd (runCallback env (callback t) s1)))
      by (apply Paced_runCallback; exact H);
    destruct (runCallback env (callback t) s1) as [[a|e] s2]
  end; exact H1.
Qed.

Lemma pace_run sched fuel s : SteadyPace s -> SteadyPace (run env sched fuel s).
Proof.
  revert s; induction fuel as [|f IH]; intros s H; cbn; [exact H|].
  apply IH, pace_tick, H.
Qed.

Lemma Paced_playRecording recording : Paced (playRecording env recording).
Proof.
  unfold playRecording.
  apply Paced_bind; [apply Paced_emit; reflexivity|intros _].
  apply Paced_bind; [apply Paced_cleanup|intros _].
  apply Paced_bind; [apply Paced_setPlayer; reflexivity|intros _].
  apply Paced_bind; [apply Paced_setPlayer; reflexivity|intros _].
  apply Paced_get_bind; intros s H.
  destruct (Nat.eqb _ 0).
  - apply Paced_bind; [apply Paced_emit; reflexivity|intros _|exact H].
    apply Paced_emit; reflexivity.
  - apply Paced_bind; [|intros _|exact H].
    + unfold createPlayerUI.
      apply Paced_bind; [apply Paced_setPlayer; reflexivity|intros _].
      apply Paced_bind; [apply Paced_domCall; reflexivity|intros _].
      apply Paced_domCall; reflexivity.
    + unfold startPlayback.
      apply Paced_get_bind; intros s' H'.
      destruct (Nat.eqb _ 0); [exact H'|].
      apply Paced_bind; [apply Paced_setPlayer; reflexivity|intros _|exact H'].
      apply Paced_executeNextStep.
Qed.

End Page.
End PaceFacts.

(* ================================================================== *)
(** * Properties of playback *)
(* ================================================================== *)

Module PlayerFacts.
Import Recording Runtime Player Observe Described.
Import LocatorFacts FrameFacts LoopFacts PaceFacts.

(** ** The playback loop *)

(** For every recording with a non-empty step sequence, handed to a
    player whose timers are tracked, on every page that lets the player
    fill, attach and rewrite its own container, and with timers firing in
    any order: [executeStep] never throws, whatever the calls it makes on
    the page do; starting playback does not throw; and playback reaches
    completion, with [isPlaying] false, the cursor at the sequence length,
    the completion message shown, and the steps announced exactly once
    each, in order. *)
Theorem playback_completes (env : Env) (sched : Scheduler)
        (recording : RecordingSession) (ss : list Step) (s : Sys) :
  Recording.steps recording = Some ss -> ss <> [] -> Tracked s ->
  ContainerAllowed env ->
  (forall step s0, fst (executeStep env step s0) = Ok tt) /\
  fst (playRecording env recording s) = Ok tt /\
  exists fuel,
    Completed (executedSteps (trace s)) ss
              (run env sched fuel (snd (playRecording env recording s))).
Proof.
  intros Hs Hne HT Hok. split; [|split].
  - intros step s0.
    destruct (executeStep_spec env step s0) as (calls & new & -> & _); reflexivity.
  - destruct (playRecording_starts env Hok recording ss s Hs Hne HT)
      as (s' & -> & _).
    reflexivity.
  - destruct (playRecording_starts env Hok recording ss s Hs Hne HT)
      as (s' & -> & HP).
    exact (Playing_completes env Hok sched _ ss _ _ 1 s' eq_refl eq_refl HP).
Qed.

(** On the example page, the long session played by a fresh player. *)
Lemma playback_completes_fresh :
  (forall step s, fst (executeStep Examples.env step s) = Ok tt) /\
  fst (playRecording Examples.env Examples.longSession initialSys) = Ok tt /\
  exists fuel,
    Completed []
      [Examples.plainStep navigate None; Examples.clickStep;
       Examples.fileStep; Examples.scrollStep;
       Examples.plainStep waitForElement None]
      (run Examples.env earliest fuel
           (snd (playRecording Examples.env Examples.longSession initialSys))).
Proof.
  apply (playback_completes Examples.env earliest Examples.longSession _
                            initialSys).
  - reflexivity.
  - discriminate.
  - exact Tracked_initial.
  - apply static_allowed.
Defined.

Lemma secondReplay_later fuel :
  Scenario.secondReplay (1 + fuel)
  = run Examples.env earliest fuel (Scenario.secondReplay 1).
Proof. unfold Scenario.secondReplay; apply run_add. Qed.

(** C2, where it fails.  When the long session has completed, the timer
    that hides the completion message three seconds later is pending, and
    the player does not hold its handle.  The same session requested again
    two and a half seconds after completion runs its first step and
    schedules the second; half a second later the pending timer fires:
    its [cleanup] cancels the timer of the second step, stops the player,
    puts the cursor back to 0 and empties the steps.  Nothing is pending
    after that: steps two to five are never run and completion is never
    reached. *)
Lemma second_replay_cut_short :
  Completed [] Scenario.longSteps Scenario.afterFirstReplay /\
  map (fun t => (due t, callback t)) (timers Scenario.afterFirstReplay)
    = [(8000%Q, CbCleanup)] /\
  now (Scenario.later 2500 Scenario.afterFirstReplay) = 7500%Q /\
  ~ Tracked Scenario.afterFirstReplay /\
  map (fun t => (due t, callback t)) (timers (Scenario.secondReplay 0))
    = [(8000%Q, CbCleanup); (8500%Q, CbExecuteNextStep)] /\
  (forall fuel,
     ~ Completed Scenario.longSteps Scenario.longSteps
                 (Scenario.secondReplay fuel)) /\
  (forall fuel, Scenario.secondReplay (1 + fuel) = Scenario.secondReplay 1) /\
  executedSteps (trace (Scenario.secondReplay 1))
    = Scenario.longSteps ++ firstn 1 Scenario.longSteps /\
  player (Scenario.secondReplay 1) = initialPlayer /\
  timers (Scenario.secondReplay 1) = [].
Proof.
  assert (Hidle : timers (Scenario.secondReplay 1) = [])
    by (vm_compute; reflexivity).
  assert (Hrest : forall fuel,
            Scenario.secondReplay (1 + fuel) = Scenario.secondReplay 1).
  { intro fuel. rewrite secondReplay_later. now apply run_idle. }
  split; [|split; [|split; [|split; [|split; [|split; [|split; [|split;
    [|split]]]]]]]].
  - unfold Completed.
    split; [vm_compute; reflexivity|].
    split; [vm_compute; reflexivity|].
    split; [vm_compute; reflexivity|].
    split; [vm_compute; reflexivity|].
    split; [vm_compute; reflexivity|].
    exists (removelast (removelast (trace Scenario.afterFirstReplay))), 10.
    vm_compute; reflexivity.
  - vm_compute; reflexivity.
  - vm_compute; reflexivity.
  - intro HT.
    assert (Hin : In (mkTimer 10 8000%Q CbCleanup)
                     (timers Scenario.afterFirstReplay))
      by (vm_compute; left; reflexivity).
    pose proof (HT _ Hin eq_refl) as H. vm_compute in H. discriminate H.
  - vm_compute; reflexivity.
  - intros fuel (Hp & _ & Hk & _).
    destruct fuel as [|fuel];
      [vm_compute in Hp, Hk; first [discriminate Hp | discriminate Hk]|].
    change (S fuel) with (1 + fuel) in Hk.
    rewrite Hrest in Hk. vm_compute in Hk. discriminate Hk.
  - exact Hrest.
  - vm_compute; reflexivity.
  - vm_compute; reflexivity.
  - exact Hidle.
Qed.

(** On the example page the run of the long session is over after nine
    timers; the file input refused its value in a timer callback, which
    nobody caught and which stopped nothing. *)
Example long_session_run :
  let s := run Examples.env earliest 9
               (snd (playRecording Examples.env Examples.longSession initialSys)) in
  isPlaying (player s) = false /\
  currentStepIndex (player s) = 5 /\
  playerContainer (player s) = Some display_block /\
  uncaught s = [DOMException "InvalidStateError"] /\
  map callback (timers s) = [CbCleanup].
Proof. vm_compute. repeat split. Qed.

(** C3, as the code has it.  The delay before the next step is
    [max(500, 1000 / playbackSpeed)], and [playbackSpeed] keeps its initial
    value 1: a fresh player keeps a steady pace, a replay request and a
    timer firing preserve it, and at a steady pace every next step is and
    was scheduled exactly 1000 ms ahead, whatever the recorded timestamps
    are.  So it is throughout every playback. *)
Theorem next_step_delay_is_fixed (env : Env) :
  SteadyPace initialSys /\
  (forall s recording,
     SteadyPace s -> SteadyPace (snd (playRecording env recording s))) /\
  (forall s sched, SteadyPace s -> SteadyPace (tick env sched s)) /\
  (forall s,
     SteadyPace s ->
     stepDelay (player s) = Qmax 500 (1000 / playbackSpeed (player s)) /\
     stepDelay (player s) = 1000%Q /\
     Forall (fun d => d = 1000%Q) (nextStepDelays (trace s))) /\
  (forall sched recording fuel,
     Forall (fun d => d = 1000%Q)
       (nextStepDelays
          (trace (run env sched fuel
                      (snd (playRecording env recording initialSys)))))).
Proof.
  assert (H0 : SteadyPace initialSys) by (split; [reflexivity|constructor]).
  split; [exact H0|].
  split; [intros s recording H; now apply Paced_playRecording|].
  split; [intros s sched H; now apply pace_tick|].
  split.
  - intros s [Hp Hd]. split; [reflexivity|].
    split; [now apply stepDelay_initial|exact Hd].
  - intros sched recording fuel.
    apply (pace_run env sched fuel _ (Paced_playRecording env recording _ H0)).
Qed.

Lemma next_step_delay_is_fixed_witness :
  SteadyPace initialSys /\
  SteadyPace (tick Examples.env earliest
                (snd (playRecording Examples.env Examples.session initialSys))).
Proof.
  destruct (next_step_delay_is_fixed Examples.env) as (H0 & Hplay & Htick & _).
  split; [exact H0|].
  apply Htick, Hplay, H0.
Defined.

(** C3, as the specification words it, fails: the two events of the
    example session were captured 100 ms apart, and the step after the
    first is scheduled 1000 ms ahead, which no cap makes of a gap of
    100 ms at speed 1. *)
Lemma inter_step_delay_counterexample :
  nextStepDelays
    (trace (snd (playRecording Examples.env Examples.session initialSys)))
    = [1000%Q] /\
  (recordedGap Examples.firstEvent Examples.secondEvent == 100)%Q /\
  forall cap,
    ~ (1000 == interStepDelay
                 (recordedGap Examples.firstEvent Examples.secondEvent)
                 (playbackSpeed initialPlayer) cap)%Q.
Proof.
  split; [vm_compute; reflexivity|].
  split; [vm_compute; reflexivity|].
  intros cap H.
  assert (Hg : (recordedGap Examples.firstEvent Examples.secondEvent == 100)%Q)
    by (vm_compute; reflexivity).
  unfold interStepDelay in H; cbn [playbackSpeed initialPlayer] in H.
  destruct cap as [c|].
  - pose proof (Q.le_min_l (recordedGap Examples.firstEvent Examples.secondEvent) c)
      as Hle.
    rewrite Hg in Hle.
    assert (E : (Qmin (recordedGap Examples.firstEvent Examples.secondEvent) c / 1
                 == Qmin (recordedGap Examples.firstEvent Examples.secondEvent) c)%Q)
      by (field).
    rewrite E in H. rewrite <- H in Hle. revert Hle. unfold Qle; cbn; lia.
  - rewrite Hg in H. revert H. unfold Qeq; cbn; lia.
Qed.

End PlayerFacts.

(* ================================================================== *)
(** * Properties of the step executors *)
(* ================================================================== *)

Module ExecutorFacts.
Import Recording Runtime Player Observe Described RecorderEvents.
Import LocatorFacts FrameFacts LoopFacts.

Lemma orString_value v : orString (Some v) EmptyString = v.
Proof. unfold orString; destruct v; reflexivity. Qed.

Lemma orNumber_recorded x d : ~ (x == 0)%Q -> orNumber (Some x) d = x.
Proof.
  intro H; unfold orNumber.
  destruct (Qeq_bool x 0) eqn:E; [|reflexivity].
  apply Qeq_bool_iff in E; contradiction.
Qed.


(** The recorder stores an [input] event and a [change] event alike as a
    [change] step carrying the [value] property of the target, as it was
    read. *)
Lemma input_and_change_recorded_as_change selectors ev :
  domType ev = "input" \/ domType ev = "change" ->
  createStep selectors ev =
  mkStep change (Some selectors) None None None None (inputValue ev) None.
Proof. unfold createStep; intros [-> | ->]; reflexivity. Qed.

Section Page.
Variable env : Env.

(** The highlight, on a page that lets its two calls through. *)
Lemma highlightElement_accepted el s :
  Accepted env (trace s) (highlightCalls env (trace s) el) ->
  let original := orString (styleAttribute env (trace s) el) EmptyString in
  highlightElement env el s =
  (Ok tt,
   extended s
     (highlightCalls env (trace s) el
      ++ [setTimeout (nextTimerId s) (CbRestoreStyle el original) 1000])
     [mkTimer (nextTimerId s) (now s + 1000)%Q (CbRestoreStyle el original)]).
Proof.
  intros (H1 & H2 & _); cbv zeta.
  unfold highlightElement, bind, domRead, domCall, js_setTimeout, ret.
  rewrite H1; cbn [trace record with_trace].
  unfold highlightCalls in H2; rewrite H2.
  unfold extended, highlightCalls; cbn.
  now rewrite <- !app_assoc, Nat.add_1_r.
Qed.

Lemma executeStep_unfold step s :
  executeStep env step s =
  match dispatchStep env step (record (announce step) s) with
  | (Ok a, s') => (Ok a, s')
  | (Throw e, s') =>
      (Ok tt, record (console_error "[Zordon Player] Error executing step:"
                                    (ErrorArg e)) s')
  end.
Proof. reflexivity. Qed.

(** The closure of [executeChange], call by call: it assigns the value,
    dispatches [input], dispatches [change], and stops at the first of
    these calls that throws. *)
Lemma applyChange_run el step v s2 :
  value step = Some v ->
  let assign := set_value el v in
  let input := dispatchEvent el (Event "input" true) in
  let change := dispatchEvent el (Event "change" true) in
  runCallback env (CbApplyChange el step) s2 =
  match throws env (trace s2) assign with
  | Some e => (Throw e, logged s2 [assign])
  | None =>
      match throws env (trace s2 ++ [assign]) input with
      | Some e => (Throw e, logged s2 [assign; input])
      | None =>
          match throws env (trace s2 ++ [assign; input]) change with
          | Some e => (Throw e, logged s2 [assign; input; change])
          | None => (Ok tt, logged s2 [assign; input; change])
          end
      end
  end.
Proof.
  intros Hv assign input change.
  cbn [runCallback]; unfold applyChange, bind, domCall.
  rewrite Hv, orString_value. fold assign input change.
  destruct (throws env (trace s2) assign) as [e|];
    cbn [trace record with_trace]; [reflexivity|].
  destruct (throws env (trace s2 ++ [assign]) input) as [e|];
    cbn [trace record with_trace];
    [unfold logged, record, with_trace; cbn; now rewrite <- !app_assoc|].
  rewrite <- app_assoc; cbn [app].
  destruct (throws env (trace s2 ++ [assign; input]) change) as [e|];
    unfold logged, record, with_trace; cbn; now rewrite <- !app_assoc.
Qed.

End Page.




(** The closure of the example change step, run on the example page. *)
Example change_closure_run :
  runCallback Examples.env
    (CbApplyChange Examples.queryInput Examples.changeStep) initialSys =
  (Ok tt, logged initialSys
            [set_value Examples.queryInput "hello";
             dispatchEvent Examples.queryInput (Event "input" true);
             dispatchEvent Examples.queryInput (Event "change" true)]).
Proof. vm_compute; reflexivity. Qed.



(** A click recorded exactly on the corner of its target, offsets 0 and
    0, replayed on the example page, where every box is 100 by 40 at
    (10, 20): the click is dispatched at the middle of the box, not at
    its corner. *)
Example click_recorded_on_the_corner_run :
  runCallback Examples.env
    (CbDispatchClick [0; 1]
       (mkStep click (Some [["#app"]]) (Some 0%Q) (Some 0%Q) (Some primary)
               None None None))
    initialSys =
  (Ok tt,
   logged initialSys
     [getBoundingClientRect [0; 1];
      dispatchEvent [0; 1]
        (MouseEvent "click" true true (10 + 100 / 2)%Q (20 + 40 / 2)%Q 0)]).
Proof. vm_compute; reflexivity. Qed.


(** C5, as the code has it.  For every [scroll] step, with or without a
    target: executing it makes no query for the target; it scrolls the
    window, smoothly, to 100 px below its current position, and logs the
    error should that call throw. *)
Theorem scroll_step_scrolls_window (env : Env) (step : Step) (s : Sys) :
  type step = scroll ->
  let tr := trace s ++ [announce step] in
  let call := window_scrollTo (window_scrollY env tr + 100)%Q "smooth" in
  executeStep env step s =
  (Ok tt,
   logged s
     (announce step :: call ::
      match throws env tr call with
      | Some e => [console_error "[Zordon Player] Error executing step:"
                                 (ErrorArg e)]
      | None => []
      end)).
Proof.
  intros Ht tr call.
  rewrite executeStep_unfold. unfold dispatchStep; rewrite Ht.
  unfold executeScroll, bind, get, domCall; cbn [trace record with_trace].
  fold tr; fold call.
  destruct (throws env tr call);
    unfold logged, record, with_trace; cbn; subst tr;
    now rewrite <- !app_assoc.
Qed.

Lemma scroll_step_scrolls_window_witness :
  executeStep Examples.env Examples.scrollStep initialSys =
  (Ok tt,
   logged initialSys
     [announce Examples.scrollStep; window_scrollTo (0 + 100)%Q "smooth"]).
Proof.
  exact (scroll_step_scrolls_window Examples.env Examples.scrollStep initialSys
           eq_refl).
Defined.

(** C5, as the specification words it, fails.  The example scroll step
    targets a [span] whose parent is taken to be scrollable: the claim has
    that parent scrolled by the recorded delta, whatever it is; the player
    scrolls the window by 100.  And a scroll recorded as 250 px on the
    document is replayed as 100 px. *)
Lemma scroll_counterexample :
  let calls := trace (snd (executeStep Examples.env Examples.scrollStep initialSys)) in
  calls = [announce Examples.scrollStep; window_scrollTo 100 "smooth"] /\
  fst (findElement Examples.env (target Examples.scrollStep) initialSys)
    = Ok (Some [0; 1; 1]) /\
  (forall scrollable delta,
     scrollable [1; 1] = true ->
     scrollEffect scrollable (Some [0; 1; 1]) delta = (Container [1; 1], delta) /\
     ~ In (Some (scrollEffect scrollable (Some [0; 1; 1]) delta))
          (map (observedScroll 0) calls)) /\
  (forall scrollable,
     ~ In (Some (scrollEffect scrollable None 250)) (map (observedScroll 0) calls)).
Proof.
  cbv zeta.
  replace (trace (snd (executeStep Examples.env Examples.scrollStep initialSys)))
    with [announce Examples.scrollStep; window_scrollTo 100 "smooth"]
    by (vm_compute; reflexivity).
  split; [reflexivity|].
  split; [vm_compute; reflexivity|].
  split.
  - intros scrollable delta Hs.
    assert (E : scrollEffect scrollable (Some [0; 1; 1]) delta
                = (Container [1; 1], delta))
      by (unfold scrollEffect; cbn; now rewrite Hs).
    split; [exact E|].
    rewrite E; cbn. intros [H|[H|[]]]; discriminate H.
  - intros scrollable; cbn. intros [H|[H|[]]]; discriminate H.
Qed.

(** C9.  A recording whose step sequence is absent or empty is refused at
    the start, whatever state the player is in: [playRecording] reports it
    on the console and with an alert, announces no step, registers no
    timer and leaves the player idle, without container; on a player with
    no timer pending nothing happens afterwards either.  The service
    worker and the content script refuse likewise, by a thrown error and
    by an alert, a recording without events. *)
Theorem empty_recording_rejected (env : Env) (recording : RecordingSession)
        (s : Sys) :
  Recording.steps recording = None \/ Recording.steps recording = Some [] ->
  (exists s' calls,
     playRecording env recording s = (Ok tt, s') /\
     trace s' =
       trace s
       ++ console_log "[Zordon] Starting playback for:"
                      (TextArg (recordingId recording))
          :: calls
       ++ [console_error "[Zordon] No steps found in recording" NoArg;
           alert "This recording has no steps to play back."] /\
     executedSteps (trace s') = executedSteps (trace s) /\
     isPlaying (player s') = false /\
     Runtime.steps (player s') = [] /\
     currentStepIndex (player s') = 0 /\
     playerContainer (player s') = None /\
     nextTimerId s' = nextTimerId s /\
     (forall t, In t (timers s') -> In t (timers s)) /\
     (timers s = [] -> forall sched fuel, run env sched fuel s' = s')) /\
  (events recording = None \/ events recording = Some [] ->
   (forall others send tab,
      Background.playRecording (recording :: others) send
                               (recordingId recording) (Some (S tab))
      = Background.Thrown "Recording has no events") /\
   (forall scriptLoads,
      ContentScript.playRecording true scriptLoads recording
      = ContentScript.Alerted "This recording has no events to play back.")).
Proof.
  intros Hs. split.
  - set (hello := console_log "[Zordon] Starting playback for:"
                              (TextArg (recordingId recording))).
    destruct (cleanup_resets (record hello s))
      as (s1 & calls & Hc & Htr & Hex & Hp & Hst & Hk & Hcont & Hid & Htm).
    exists (mkSys (set_currentStepIndex 0 (set_steps [] (player s1)))
                  (trace s1 ++ [console_error "[Zordon] No steps found in recording" NoArg;
                                alert "This recording has no steps to play back."])
                  (timers s1) (nextTimerId s1) (now s1) (uncaught s1)), calls.
    split; [|split; [|split; [|split; [|split; [|split; [|split; [|split;
      [|split]]]]]]]]; cbn.
    + unfold playRecording, bind, emit, update. fold hello. rewrite Hc.
      unfold get, setPlayer, update; cbn.
      destruct Hs as [-> | ->]; cbn;
        unfold record, with_trace; cbn; now rewrite <- app_assoc.
    + rewrite Htr; cbn. now rewrite <- !app_assoc.
    + rewrite Htr; cbn. rewrite !executedSteps_app, Hex; cbn.
      now rewrite !app_nil_r.
    + exact Hp.
    + reflexivity.
    + reflexivity.
    + exact Hcont.
    + exact Hid.
    + exact Htm.
    + intros Hnone sched fuel. apply run_idle; cbn.
      destruct (timers s1) as [|t r]; [reflexivity|].
      specialize (Htm t (or_introl eq_refl)). cbn in Htm. rewrite Hnone in Htm.
      destruct Htm.
  - intros He. split.
    + intros others send tab. unfold Background.playRecording; cbn.
      rewrite String.eqb_refl. destruct He as [-> | ->]; reflexivity.
    + intros scriptLoads. unfold ContentScript.playRecording.
      destruct He as [-> | ->]; reflexivity.
Qed.

Lemma empty_recording_rejected_witness :
  exists s' calls,
    playRecording Examples.env Examples.emptySession initialSys = (Ok tt, s') /\
    trace s' =
      trace initialSys
      ++ console_log "[Zordon] Starting playback for:" (TextArg "rec_3")
         :: calls
      ++ [console_error "[Zordon] No steps found in recording" NoArg;
          alert "This recording has no steps to play back."] /\
    executedSteps (trace s') = executedSteps (trace initialSys) /\
    isPlaying (player s') = false /\
    Runtime.steps (player s') = [] /\
    currentStepIndex (player s') = 0 /\
    playerContainer (player s') = None /\
    nextTimerId s' = nextTimerId initialSys /\
    (forall t, In t (timers s') -> In t (timers initialSys)) /\
    (timers initialSys = [] ->
     forall sched fuel, run Examples.env sched fuel s' = s').
Proof.
  exact (proj1 (empty_recording_rejected Examples.env Examples.emptySession
                  initialSys (or_intror eq_refl))).
Defined.

(** The empty session on the example page, as it runs. *)
Example empty_session_run :
  playRecording Examples.env Examples.emptySession initialSys =
  (Ok tt,
   mkSys initialPlayer
     [console_log "[Zordon] Starting playback for:" (TextArg "rec_3");
      console_error "[Zordon] No steps found in recording" NoArg;
      alert "This recording has no steps to play back."]
     [] 1 0%Q []).
Proof. vm_compute; reflexivity. Qed.

End ExecutorFacts.

(* ================================================================== *)
(** * The selectors the recorder writes, and what the player finds *)
(* ================================================================== *)

Module SelectorFacts.
Import JsString Dom Recorder Legacy Recording Runtime Player Observe.
Import RecorderFacts LocatorFacts.

(** The walk puts its selectors in front of those it was given. *)
Lemma walkPath_acc doc e path :
  walkPath doc e path = walkPath doc e [] ++ path.
Proof.
  revert path; induction e as [|i up IH]; intro path; cbn [walkPath].
  - destruct (is_body doc []); [reflexivity|].
    destruct (node_at doc []); [|reflexivity].
    destruct (truthy _); reflexivity.
  - destruct (is_body doc (i :: up)); [reflexivity|].
    destruct (node_at doc (i :: up)) as [n|]; [|reflexivity].
    destruct (truthy _); [reflexivity|].
    rewrite (IH (_ :: path)), (IH [_]), <- app_assoc; reflexivity.
Qed.

Lemma filter_length_le {A} (p : A -> bool) (l : list A) :
  length (filter p l) <= length l.
Proof.
  induction l as [|x l IH]; cbn; [lia|].
  destruct (p x); cbn; lia.
Qed.

Lemma filter_length_all {A} (p : A -> bool) (l : list A) :
  length (filter p l) = length l <-> forall x, In x l -> p x = true.
Proof.
  induction l as [|x l IH]; cbn.
  - split; [intros _ x []|reflexivity].
  - pose proof (filter_length_le p l) as Hle.
    destruct (p x) eqn:Hx; cbn; split.
    + intros H y [<-|Hy]; [assumption|]. apply IH; [lia|assumption].
    + intro H. f_equal. apply IH. intros y Hy; apply H; now right.
    + intro H; lia.
    + intro H. rewrite (H x (or_introl eq_refl)) in Hx; discriminate.
Qed.

Lemma In_firstn_nth {A} (l : list A) i x :
  In x (firstn i l) <-> exists j, j < i /\ nth_error l j = Some x.
Proof.
  revert i; induction l as [|y l IH]; intros [|i]; cbn.
  - split; [intros []|intros (j & Hj & _); lia].
  - split; [intros []|intros ([|j] & _ & H); discriminate].
  - split; [intros []|intros (j & Hj & _); lia].
  - rewrite IH; split.
    + intros [<-|(j & Hj & Hn)]; [exists 0; split; [lia|reflexivity]|].
      exists (S j); split; [lia|assumption].
    + intros ([|j] & Hj & Hn); cbn in Hn.
      * left; now injection Hn.
      * right; exists j; split; [lia|assumption].
Qed.

(** X1.  The index the path strategy writes into [:nth-child(...)] is the
    rank of the element among the children of its parent that carry its
    tag name, not its position among all the children.  For every child
    at position [i] (from 0) of a parent with several children of that
    tag, the level selector is the lower-cased tag followed by
    [:nth-child(k)], where [k] lies between 1 and [i + 1], and equals
    [i + 1], the position that [:nth-child] tests, exactly when every
    earlier sibling carries the same tag; an only child of its tag gets
    the bare tag. *)
Theorem nth_child_index_counts_same_tag (doc : Document) (i : nat)
        (up : Element) (parent n : Node) :
  node_at doc up = Some parent ->
  nth_error (children parent) i = Some n ->
  let tag := tagName (data n) in
  let k := indexOfSameTag tag (children parent) i + 1 in
  (1 < length (filter (sameTag tag) (children parent)) ->
   levelSelector doc (i :: up) (data n) =
   toLowerCase tag +++ ":nth-child(" +++ of_nat k +++ ")") /\
  (length (filter (sameTag tag) (children parent)) <= 1 ->
   levelSelector doc (i :: up) (data n) = toLowerCase tag) /\
  1 <= k <= i + 1 /\
  (k = i + 1 <->
   forall j m, j < i -> nth_error (children parent) j = Some m ->
               tagName (data m) = tag).
Proof.
  intros Hp Hn tag k; subst k tag.
  set (tag := tagName (data n)).
  assert (Hi : i < length (children parent))
    by (apply nth_error_Some; rewrite Hn; discriminate).
  assert (Hlen : length (firstn i (children parent)) = i)
    by (rewrite length_firstn; lia).
  pose proof (filter_length_le (sameTag tag) (firstn i (children parent))) as Hle.
  split; [|split; [|split]].
  - intro Hmany. apply Nat.ltb_lt in Hmany.
    unfold levelSelector; rewrite Hp; fold tag. now rewrite Hmany.
  - intro Hone. apply Nat.ltb_ge in Hone.
    unfold levelSelector; rewrite Hp; fold tag. now rewrite Hone.
  - unfold indexOfSameTag; lia.
  - unfold indexOfSameTag.
    pose proof (filter_length_all (sameTag tag) (firstn i (children parent))) as Hall.
    rewrite Hlen in Hall. split.
    + intros Hk j m Hj Hm.
      assert (E : sameTag tag m = true).
      { apply (proj1 Hall); [lia|]. apply In_firstn_nth; exists j; auto. }
      now apply String.eqb_eq in E.
    + intro H. assert (E : length (filter (sameTag tag) (firstn i (children parent))) = i).
      { apply Hall. intros m Hm. apply In_firstn_nth in Hm as (j & Hj & Hm).
        apply String.eqb_eq. exact (H j m Hj Hm). }
      lia.
Qed.

(** On the example page the input named [q] is the second child of its
    parent and the only [input] among them; the second [span] is the third
    child and gets the index 2. *)
Lemma nth_child_index_counts_same_tag_witness :
  levelSelector Examples.page [2; 1; 1]
    (mkElementData "SPAN" EmptyString (ClassString EmptyString) []) =
  "span:nth-child(2)" /\
  levelSelector Examples.page Examples.queryInput
    (mkElementData "INPUT" EmptyString (ClassString EmptyString) [("name", "q")]) =
  "input".
Proof.
  split.
  - refine (proj1 (nth_child_index_counts_same_tag Examples.page 2 [1; 1]
             (Examples.el "DIV" EmptyString "  " [] [
                Examples.el "SPAN" EmptyString EmptyString [] [];
                Examples.el "INPUT" EmptyString EmptyString [("name", "q")] [];
                Examples.el "SPAN" EmptyString EmptyString [] [] ])
             (Examples.el "SPAN" EmptyString EmptyString [] [])
             eq_refl eq_refl) _).
    vm_compute; lia.
  - refine (proj1 (proj2 (nth_child_index_counts_same_tag Examples.page 1 [1; 1]
             (Examples.el "DIV" EmptyString "  " [] [
                Examples.el "SPAN" EmptyString EmptyString [] [];
                Examples.el "INPUT" EmptyString EmptyString [("name", "q")] [];
                Examples.el "SPAN" EmptyString EmptyString [] [] ])
             (Examples.el "INPUT" EmptyString EmptyString [("name", "q")] [])
             eq_refl eq_refl)) _).
    vm_compute; lia.
Defined.

(** The path of an element without id, other than [document.body]. *)
Lemma pathStrategy_child doc i up n :
  node_at doc (i :: up) = Some n -> is_body doc (i :: up) = false ->
  truthy (id (data n)) = false ->
  pathStrategy doc (i :: up) =
    Some (walkPath doc up [] ++ [levelSelector doc (i :: up) (data n)]).
Proof.
  intros Hn Hb Hid.
  unfold pathStrategy; cbn [walkPath]. rewrite Hb, Hn, Hid, walkPath_acc.
  destruct (walkPath doc up []); reflexivity.
Qed.

(** X2.  The path strategy works upwards from the element and writes
    outermost first: for an element of the document other than
    [document.body], an element with an id has the one-selector path
    [#id]; an element without id has the path of its parent followed by
    its own level selector, the path of the parent being empty when the
    parent is [document.body]. *)
Theorem path_continues_parent_path (doc : Document) (e : Element) (n : Node) :
  node_at doc e = Some n -> is_body doc e = false ->
  (truthy (id (data n)) = true ->
   pathStrategy doc e = Some ["#" +++ id (data n)]) /\
  (truthy (id (data n)) = false ->
   forall i up, e = i :: up ->
     pathStrategy doc e =
       Some (walkPath doc up [] ++ [levelSelector doc e (data n)]) /\
     (is_body doc up = true ->
      pathStrategy doc e = Some [levelSelector doc e (data n)])).
Proof.
  intros Hn Hb. split.
  - intro Hid. unfold pathStrategy.
    destruct e as [|i up]; cbn [walkPath]; rewrite Hb, Hn, Hid; reflexivity.
  - intros Hid i up ->.
    pose proof (pathStrategy_child doc i up n Hn Hb Hid) as E.
    split; [exact E|].
    intro Hup. rewrite E.
    destruct up as [|j up']; cbn [walkPath]; rewrite Hup; reflexivity.
Qed.

Lemma path_continues_parent_path_witness :
  pathStrategy Examples.page Examples.queryInput =
  Some (walkPath Examples.page Examples.blankDiv [] ++ ["input"]).
Proof.
  refine (proj1 (proj2 (path_continues_parent_path Examples.page Examples.queryInput
            (Examples.el "INPUT" EmptyString EmptyString [("name", "q")] [])
            eq_refl eq_refl) eq_refl 1 [1; 1] eq_refl)).
Defined.

Lemma produced_with_id doc e d :
  truthy (id d) = true ->
  exists rest, generateSelectorsOf doc e d = ["#" +++ id d] :: rest.
Proof.
  intro Hid. rewrite generateSelectorsOf_cases.
  unfold produced, idStrategy; rewrite Hid; cbn. eexists; reflexivity.
Qed.

(** X3.  Recording and locating compose on an id: for an element of the
    document with a non-empty id, the first candidate [generateSelectors]
    writes is [#id], and [findElement], given these candidates on a page
    where [#id] selects the element first, returns the element after that
    one query. *)
Theorem recorded_id_is_found_again (doc : Document) (e : Element) (n : Node)
        (env : Env) (s : Sys) (more : list Element) :
  node_at doc e = Some n ->
  truthy (id (data n)) = true ->
  querySelectorAll env (trace s) ("#" +++ id (data n)) = Some (e :: more) ->
  exists sels,
    generateSelectors doc e = Some sels /\
    findElement env (Some sels) s =
    (Ok (Some e), logged s [querySelector ("#" +++ id (data n))]).
Proof.
  intros Hn Hid Hq.
  destruct (produced_with_id doc e (data n) Hid) as (rest & Hg).
  exists (["#" +++ id (data n)] :: rest). split.
  - unfold generateSelectors; rewrite Hn, Hg; reflexivity.
  - rewrite findElement_scan; cbn [candidates concat app scan].
    rewrite Hq; reflexivity.
Qed.

Lemma recorded_id_is_found_again_witness :
  exists sels,
    generateSelectors Examples.page [0; 1] = Some sels /\
    findElement Examples.env (Some sels) initialSys =
    (Ok (Some [0; 1]), logged initialSys [querySelector "#app"]).
Proof.
  apply (recorded_id_is_found_again Examples.page [0; 1]
           (Examples.el "DIV" "app" EmptyString [] [
              Examples.el "BUTTON" EmptyString " btn  primary "
                [("data-testid", "go"); ("type", "submit")] [];
              Examples.el "BUTTON" EmptyString EmptyString [] [] ])
           Examples.env initialSys []).
  - reflexivity.
  - reflexivity.
  - vm_compute; reflexivity.
Defined.

(** X4.  The recorder writes the ancestor path as one array holding a
    selector per level, and the player queries the strings of an array one
    by one.  So for an element without id and without class whose parent,
    not [document.body], has an id: the first candidate string is the
    parent's [#id], and [findElement], on a page where that selector
    selects the parent, returns the parent, not the element, after that
    one query. *)
Theorem path_candidate_locates_the_parent (doc : Document) (i : nat)
        (up : Element) (n pn : Node) (env : Env) (s : Sys)
        (more : list Element) :
  node_at doc (i :: up) = Some n ->
  is_body doc (i :: up) = false ->
  idStrategy (data n) = None ->
  classStrategy (data n) = None ->
  node_at doc up = Some pn ->
  is_body doc up = false ->
  truthy (id (data pn)) = true ->
  querySelectorAll env (trace s) ("#" +++ id (data pn)) = Some (up :: more) ->
  exists rest,
    generateSelectors doc (i :: up) =
      Some (["#" +++ id (data pn); levelSelector doc (i :: up) (data n)] :: rest) /\
    findElement env (generateSelectors doc (i :: up)) s =
      (Ok (Some up), logged s [querySelector ("#" +++ id (data pn))]) /\
    up <> i :: up.
Proof.
  intros Hn Hb Hid Hcl Hpn Hpb Hpid Hq.
  assert (Hnoid : truthy (id (data n)) = false).
  { unfold idStrategy in Hid. destruct (truthy (id (data n))); [discriminate|reflexivity]. }
  pose proof (pathStrategy_child doc i up n Hn Hb Hnoid) as Hp.
  assert (Hup : walkPath doc up [] = ["#" +++ id (data pn)]).
  { destruct up as [|j up']; cbn [walkPath]; rewrite Hpb, Hpn, Hpid; reflexivity. }
  rewrite Hup in Hp; cbn [app] in Hp.
  assert (Hg : generateSelectors doc (i :: up) =
               Some (["#" +++ id (data pn); levelSelector doc (i :: up) (data n)]
                     :: optlist (attrStrategy (data n)))).
  { unfold generateSelectors; rewrite Hn, generateSelectorsOf_cases.
    unfold produced; rewrite Hid, Hcl, Hp; reflexivity. }
  exists (optlist (attrStrategy (data n))). split; [exact Hg|]. split.
  - rewrite Hg, findElement_scan; cbn [candidates concat app scan].
    rewrite Hq; reflexivity.
  - intro H. apply (f_equal (@length nat)) in H. cbn in H. lia.
Qed.

Lemma path_candidate_locates_the_parent_witness :
  exists rest,
    generateSelectors Examples.page Examples.plainButton =
      Some (["#app"; "button:nth-child(2)"] :: rest) /\
    findElement Examples.env
      (generateSelectors Examples.page Examples.plainButton) initialSys =
      (Ok (Some [0; 1]), logged initialSys [querySelector "#app"]) /\
    [0; 1] <> Examples.plainButton.
Proof.
  apply (path_candidate_locates_the_parent Examples.page 1 [0; 1]
           (Examples.el "BUTTON" EmptyString EmptyString [] [])
           (Examples.el "DIV" "app" EmptyString [] [
              Examples.el "BUTTON" EmptyString " btn  primary "
                [("data-testid", "go"); ("type", "submit")] [];
              Examples.el "BUTTON" EmptyString EmptyString [] [] ])
           Examples.env initialSys []).
  - reflexivity.
  - reflexivity.
  - reflexivity.
  - reflexivity.
  - reflexivity.
  - reflexivity.
  - reflexivity.
  - vm_compute; reflexivity.
Defined.

Lemma split_ws_from_nonempty s cur skipping : split_ws_from s cur skipping <> [].
Proof.
  revert cur skipping; induction s as [|c r IH]; intros cur skipping; cbn.
  - discriminate.
  - destruct (is_ws c); [destruct skipping; [apply IH|discriminate]|apply IH].
Qed.

(** X5.  The single selector stored with a recorded event
    ([getUniqueSelector]) is never [null] for an element, and whenever the
    element has a non-empty id or a non-empty class string it is the one
    string of the first candidate that [generateSelectors] writes for the
    same element. *)
Theorem stored_selector_is_first_candidate (doc : Document) (e : Element)
        (n : Node) :
  node_at doc e = Some n ->
  (truthy (id (data n)) = true \/
   exists s, className (data n) = ClassString s /\ truthy s = true) ->
  exists sel rest,
    getUniqueSelector (Some (data n)) = Some sel /\
    generateSelectors doc e = Some ([sel] :: rest).
Proof.
  intros Hn H. unfold generateSelectors; rewrite Hn.
  rewrite generateSelectorsOf_cases. unfold getUniqueSelector, produced, idStrategy.
  destruct (truthy (id (data n))) eqn:Hid.
  - eexists _, _; split; reflexivity.
  - destruct H as [H|(s & Hc & Hs)]; [discriminate|].
    unfold classStrategy; rewrite Hc, Hs.
    destruct (Nat.ltb_spec 0 (length (split_ws (trim s)))) as [_|H0].
    + eexists _, _; split; reflexivity.
    + exfalso. pose proof (split_ws_from_nonempty (trim s) EmptyString false) as Hne.
      unfold split_ws in H0. destruct (split_ws_from _ _ _); [contradiction|cbn in H0; lia].
Qed.

Lemma stored_selector_is_first_candidate_witness :
  exists sel rest,
    getUniqueSelector
      (Some (mkElementData "BUTTON" EmptyString (ClassString " btn  primary ")
               [("data-testid", "go"); ("type", "submit")])) = Some sel /\
    generateSelectors Examples.page Examples.goButton = Some ([sel] :: rest).
Proof.
  apply (stored_selector_is_first_candidate Examples.page Examples.goButton
           (Examples.el "BUTTON" EmptyString " btn  primary "
              [("data-testid", "go"); ("type", "submit")] [])).
  - reflexivity.
  - right; exists " btn  primary "; split; reflexivity.
Defined.

End SelectorFacts.

(* ================================================================== *)
(** * From the recorded event to the replayed one *)
(* ================================================================== *)

Module ReplayFacts.
Import Recording Runtime Player Observe RecorderEvents Reach.
Import LocatorFacts FrameFacts LoopFacts ExecutorFacts.

Lemma scan_all_fail env tr cands :
  AllFail env tr cands -> scan env tr cands = (None, cands).
Proof.
  revert tr; induction cands as [|c r IH]; intros tr H; cbn [scan].
  - reflexivity.
  - destruct H as [Hc Hr]. rewrite (IH _ Hr).
    destruct Hc as [-> | ->]; reflexivity.
Qed.

Lemma logged_record s c calls :
  logged (record c s) calls = logged s (c :: calls).
Proof. unfold logged, record, with_trace; cbn. now rewrite <- app_assoc. Qed.

(** The state in which the queries of [findElement] leave the system. *)
Lemma findElement_after env step s :
  findElement env (target step) (record (announce step) s) =
  (Ok (fst (scan env (trace s ++ [announce step]) (candidates (target step)))),
   logged s (announce step ::
             map querySelector
               (snd (scan env (trace s ++ [announce step])
                          (candidates (target step)))))).
Proof. rewrite findElement_scan, logged_record; reflexivity. Qed.

(** X6.  A [click], [change], [keyDown] or [keyUp] step none of whose
    candidates matches an element (each being invalid or matching nothing
    when it is queried) is passed over in silence: [executeStep] returns
    normally, having announced the step and queried every candidate in
    order; it highlights nothing, registers no timer, reports no error and
    leaves the player as it was. *)
Theorem unlocated_target_is_skipped (env : Env) (step : Step) (s : Sys) :
  In (type step) [click; change; keyDown; keyUp] ->
  AllFail env (trace s ++ [announce step]) (candidates (target step)) ->
  executeStep env step s =
  (Ok tt,
   logged s (announce step :: map querySelector (candidates (target step)))).
Proof.
  intros Ht Hfail.
  rewrite executeStep_unfold. unfold dispatchStep.
  destruct Ht as [<-|[<-|[<-|[<-|[]]]]];
    unfold executeClick, executeChange, executeKeyPress, bind;
    rewrite findElement_after, (scan_all_fail _ _ _ Hfail); reflexivity.
Qed.

Lemma unlocated_target_is_skipped_witness :
  executeStep Examples.env
    (Examples.plainStep click (Some [["#missing"; "div."]; ["video"]]))
    initialSys =
  (Ok tt,
   logged initialSys
     [announce (Examples.plainStep click (Some [["#missing"; "div."]; ["video"]]));
      querySelector "#missing"; querySelector "div."; querySelector "video"]).
Proof.
  apply (unlocated_target_is_skipped Examples.env
           (Examples.plainStep click (Some [["#missing"; "div."]; ["video"]]))
           initialSys).
  - simpl; auto.
  - simpl. repeat split; first [left; vm_compute; reflexivity
                               | right; vm_compute; reflexivity].
Defined.

(** X7.  A [change] step that carries no value, and a [keyDown] or [keyUp]
    step whose key is absent or empty, does nothing beyond looking for its
    target: whether the target is found or not, [executeStep] announces
    the step, makes the queries of [findElement], and stops there, without
    highlight, timer or error. *)
Theorem step_without_payload_is_skipped (env : Env) (step : Step) (s : Sys) :
  (type step = change /\ value step = None) \/
  ((type step = keyDown \/ type step = keyUp) /\
   truthyString (key step) = false) ->
  executeStep env step s =
  (Ok tt,
   logged s (announce step ::
             map querySelector
               (snd (scan env (trace s ++ [announce step])
                          (candidates (target step)))))).
Proof.
  intros H. rewrite executeStep_unfold. unfold dispatchStep.
  destruct H as [[Ht Hv]|[Ht Hk]].
  - rewrite Ht. unfold executeChange, bind. rewrite findElement_after, Hv.
    destruct (fst (scan _ _ _)); reflexivity.
  - assert (E : dispatchStep env step = executeKeyPress env step)
      by (unfold dispatchStep; destruct Ht as [-> | ->]; reflexivity).
    unfold dispatchStep in E; rewrite E.
    unfold executeKeyPress, bind. rewrite findElement_after, Hk.
    destruct (fst (scan _ _ _)); reflexivity.
Qed.

Lemma step_without_payload_is_skipped_witness :
  executeStep Examples.env (Examples.plainStep keyDown (Some [["#app"]]))
              initialSys =
  (Ok tt,
   logged initialSys
     [announce (Examples.plainStep keyDown (Some [["#app"]]));
      querySelector "#app"]).
Proof.
  apply (step_without_payload_is_skipped Examples.env
           (Examples.plainStep keyDown (Some [["#app"]])) initialSys).
  right; split; [left; reflexivity|reflexivity].
Defined.

(** X8.  For every [keyDown] or [keyUp] step with a non-empty key whose
    target is located, on a page that lets the highlight through:
    executing the step schedules, 200 ms ahead, the closure that
    dispatches the key, and that closure dispatches on the element one
    keyboard event, [keydown] for a [keyDown] step and [keyup] for a
    [keyUp] step, carrying the recorded key, bubbling and cancelable. *)
Theorem key_step_dispatches_key_event (env : Env) (step : Step)
        (el : Element) (k : string) (s : Sys) :
  type step = keyDown \/ type step = keyUp ->
  key step = Some k -> JsString.truthy k = true ->
  fst (findElement env (target step) (record (announce step) s)) = Ok (Some el) ->
  (let s1 := snd (findElement env (target step) (record (announce step) s)) in
   Accepted env (trace s1) (highlightCalls env (trace s1) el)) ->
  (exists s' id,
     executeStep env step s = (Ok tt, s') /\
     In (mkTimer id (now s + 200)%Q (CbDispatchKey el step)) (timers s')) /\
  (forall s2,
     let event :=
       KeyboardEvent (match type step with keyDown => "keydown" | _ => "keyup" end)
                     k true true in
     throws env (trace s2) (dispatchEvent el event) = None ->
     runCallback env (CbDispatchKey el step) s2 =
     (Ok tt, logged s2 [dispatchEvent el event])) /\
  (type step = keyDown ->
   forall s2, exists r,
     runCallback env (CbDispatchKey el step) s2 =
     (r, logged s2 [dispatchEvent el (KeyboardEvent "keydown" k true true)])).
Proof.
  intros Ht Hk Hkt Hf Ha. split; [|split].
  - rewrite executeStep_unfold.
    assert (E : dispatchStep env step = executeKeyPress env step)
      by (unfold dispatchStep; destruct Ht as [-> | ->]; reflexivity).
    rewrite E. unfold executeKeyPress, bind.
    cbv zeta in Ha.
    destruct (findElement env (target step) (record (announce step) s))
      as [r s1] eqn:Hfind.
    cbn [fst snd] in Hf, Ha; subst r.
    unfold truthyString; rewrite Hk, Hkt.
    rewrite (highlightElement_accepted env el s1 Ha).
    unfold js_setTimeout, ret; cbn.
    eexists _, _; split; [reflexivity|].
    cbn. apply in_or_app; right. left.
    assert (Hn : now s1 = now s).
    { pose proof (findElement_scan env (target step) (record (announce step) s)) as E'.
      rewrite Hfind in E'. injection E' as _ ->. reflexivity. }
    rewrite Hn. reflexivity.
  - intros s2 event Hthrow.
    cbn [runCallback]; unfold dispatchKey, domCall.
    rewrite Hk. unfold orString; rewrite Hkt. fold event. rewrite Hthrow.
    reflexivity.
  - intros Hd s2.
    cbn [runCallback]; unfold dispatchKey, domCall.
    rewrite Hk, Hd. unfold orString; rewrite Hkt.
    destruct (throws env (trace s2) _); eexists; reflexivity.
Qed.

Lemma key_step_dispatches_key_event_witness :
  exists s' id,
    executeStep Examples.env
      (mkStep keyDown (Some [["#app"]]) None None None (Some "Enter") None None)
      initialSys = (Ok tt, s') /\
    In (mkTimer id (now initialSys + 200)%Q
          (CbDispatchKey [0; 1]
             (mkStep keyDown (Some [["#app"]]) None None None (Some "Enter")
                     None None)))
       (timers s').
Proof.
  apply (key_step_dispatches_key_event Examples.env
           (mkStep keyDown (Some [["#app"]]) None None None (Some "Enter") None None)
           [0; 1] "Enter" initialSys).
  - left; reflexivity.
  - reflexivity.
  - reflexivity.
  - vm_compute; reflexivity.
  - vm_compute; repeat split.
Defined.

(** X9.  The highlight is undone with what was read: on a page that lets
    the two calls of the highlight through, [highlightElement] reads the
    [style] attribute, appends the outline to it and registers one timer,
    one second ahead; the closure of that timer sets the attribute back to
    the string that was read, and to the empty string when the element had
    no [style] attribute, so that such an element ends with an empty
    attribute rather than none. *)
Theorem highlight_is_undone (env : Env) (el : Element) (s : Sys) :
  Accepted env (trace s) (highlightCalls env (trace s) el) ->
  let original := orString (styleAttribute env (trace s) el) EmptyString in
  exists s' t,
    highlightElement env el s = (Ok tt, s') /\
    player s' = player s /\
    timers s' = timers s ++ [t] /\
    (due t == now s + 1000)%Q /\
    trace s' =
      trace s ++ [getAttribute el "style";
                  setAttribute el "style" (original +++ highlightStyle);
                  setTimeout (timerId t) (callback t) 1000] /\
    (styleAttribute env (trace s) el = None -> original = EmptyString) /\
    forall s2,
      throws env (trace s2) (setAttribute el "style" original) = None ->
      runCallback env (callback t) s2 =
      (Ok tt, logged s2 [setAttribute el "style" original]).
Proof.
  intros Ha original.
  rewrite (highlightElement_accepted env el s Ha). subst original.
  eexists _, _; split; [reflexivity|].
  cbn [extended player timers trace due timerId callback].
  split; [reflexivity|]. split; [reflexivity|]. split; [reflexivity|].
  split; [reflexivity|]. split.
  - intro Hnone. rewrite Hnone; reflexivity.
  - intros s2 Hthrow. cbn [runCallback callback]; unfold restoreStyle, domCall.
    rewrite Hthrow; reflexivity.
Qed.

Lemma highlight_is_undone_witness :
  exists s' t,
    highlightElement Examples.env Examples.goButton initialSys = (Ok tt, s') /\
    player s' = player initialSys /\
    timers s' = timers initialSys ++ [t] /\
    (due t == now initialSys + 1000)%Q /\
    trace s' =
      trace initialSys
      ++ [getAttribute Examples.goButton "style";
          setAttribute Examples.goButton "style" (EmptyString +++ highlightStyle);
          setTimeout (timerId t) (callback t) 1000] /\
    (styleAttribute Examples.env (trace initialSys) Examples.goButton = None ->
     EmptyString = EmptyString) /\
    forall s2,
      throws Examples.env (trace s2)
             (setAttribute Examples.goButton "style" EmptyString) = None ->
      runCallback Examples.env (callback t) s2 =
      (Ok tt, logged s2 [setAttribute Examples.goButton "style" EmptyString]).
Proof.
  apply (highlight_is_undone Examples.env Examples.goButton initialSys).
  vm_compute; repeat split.
Defined.

(** X10.  [executeStep] contains every failure of the page: on every page
    and in every state it returns normally; what it adds is the
    announcement of the step, calls that announce no step and schedule no
    next step, and timers of executor closures only; the player's own
    fields are untouched.  When the executor of the step throws, the
    exception is reported with [console.error] as the last call, and is
    not passed on. *)
Theorem executeStep_contains_failures (env : Env) (step : Step) (s : Sys) :
  (exists calls new,
     executeStep env step s = (Ok tt, extended s (announce step :: calls) new) /\
     forallb quiet calls = true /\
     forallb inertTimer new = true) /\
  player (snd (executeStep env step s)) = player s /\
  (forall e s1,
     dispatchStep env step (record (announce step) s) = (Throw e, s1) ->
     trace (snd (executeStep env step s)) =
     trace s1 ++ [console_error "[Zordon Player] Error executing step:"
                                (ErrorArg e)]).
Proof.
  split; [apply executeStep_spec|split].
  - destruct (executeStep_spec env step s) as (calls & new & -> & _); reflexivity.
  - intros e s1 H. rewrite executeStep_unfold, H. reflexivity.
Qed.

(** A page on which scrolling the window is refused. *)
Lemma executeStep_contains_failures_witness :
  let env :=
    mkEnv (fun _ _ => Some []) (fun _ _ => None)
          (fun _ _ => Examples.box 0 0 0 0) (fun _ => 0%Q)
          (fun _ => EmptyString)
          (fun _ c => match c with
                      | window_scrollTo _ _ => Some (DOMException "SecurityError")
                      | _ => None
                      end) in
  fst (executeStep env Examples.scrollStep initialSys) = Ok tt /\
  trace (snd (executeStep env Examples.scrollStep initialSys)) =
    [announce Examples.scrollStep; window_scrollTo (0 + 100)%Q "smooth";
     console_error "[Zordon Player] Error executing step:"
                   (ErrorArg (DOMException "SecurityError"))].
Proof.
  intro env.
  destruct (executeStep_contains_failures env Examples.scrollStep initialSys)
    as ((calls & new & E & _) & _ & H).
  split; [now rewrite E|].
  rewrite (H (DOMException "SecurityError")
             (logged initialSys [announce Examples.scrollStep;
                                 window_scrollTo (0 + 100)%Q "smooth"]))
    by reflexivity.
  reflexivity.
Defined.

(** X11.  A [navigate] step never navigates, and a [waitForElement] or
    [assertElement] step neither waits nor asserts: executing one makes no
    call on the page.  After the announcement at most one more line is
    written to the console, and nothing else happens. *)
Theorem declarative_steps_only_log (env : Env) (step : Step) (s : Sys) :
  In (type step) [navigate; waitForElement; assertElement] ->
  exists logs,
    executeStep env step s = (Ok tt, logged s (announce step :: logs)) /\
    forallb isConsoleLog logs = true /\
    length logs <= 1.
Proof.
  intros Ht. rewrite executeStep_unfold. unfold dispatchStep.
  destruct Ht as [<-|[<-|[<-|[]]]].
  - unfold executeNavigate, bind, get.
    destruct (url step) as [u|].
    + destruct (_ && _).
      * eexists [_]; unfold emit, update; cbn [fst snd].
        rewrite record_logged, logged_record; repeat split; cbn; lia.
      * exists []; unfold ret. rewrite record_logged; repeat split; cbn; lia.
    + exists []; unfold ret. rewrite record_logged; repeat split; cbn; lia.
  - eexists [_]; unfold emit, update; cbn [fst snd].
    rewrite record_logged, logged_record; repeat split; cbn; lia.
  - eexists [_]; unfold emit, update; cbn [fst snd].
    rewrite record_logged, logged_record; repeat split; cbn; lia.
Qed.

Lemma declarative_steps_only_log_witness :
  exists logs,
    executeStep Examples.env
      (mkStep navigate None None None None None None (Some "https://other.test/"))
      initialSys =
    (Ok tt,
     logged initialSys
       (announce (mkStep navigate None None None None None None
                         (Some "https://other.test/")) :: logs)) /\
    forallb isConsoleLog logs = true /\
    length logs <= 1.
Proof.
  apply (declarative_steps_only_log Examples.env
           (mkStep navigate None None None None None None
                   (Some "https://other.test/")) initialSys).
  simpl; auto.
Defined.

(** X12.  The button of a click survives recording and replay when it is
    the main, the middle or the secondary button: the recorder stores
    button 0 as [primary], 1 as [middle] and every other as [secondary],
    and the player turns these back into 0, 1 and 2; the buttons 3 and 4
    come back as 2. *)
Theorem click_button_round_trip (selectors : list (list string))
        (ev : DomEventInfo) :
  domType ev = "click" ->
  buttonCode (button (createStep selectors ev)) = Nat.min (mouseButton ev) 2.
Proof.
  intro Ht. unfold createStep; rewrite Ht; cbn.
  destruct (mouseButton ev) as [|[|[|b]]]; reflexivity.
Qed.

Lemma click_button_round_trip_witness :
  buttonCode
    (button (createStep [["#app"]]
               (mkDomEventInfo "click" 60 30 1 (Examples.box 10 20 100 40)
                               None EmptyString 0))) = Nat.min 1 2.
Proof.
  apply (click_button_round_trip [["#app"]]
           (mkDomEventInfo "click" 60 30 1 (Examples.box 10 20 100 40)
                           None EmptyString 0)).
  reflexivity.
Defined.

Lemma eqb_not_in (t : string) (l : list string) x :
  ~ In t l -> In x l -> String.eqb t x = false.
Proof.
  intros Hn Hx. apply String.eqb_neq. intros ->. contradiction.
Qed.

(** X13.  Every event the recorder listens to other than [click],
    [input], [change], [keydown], [keyup] and [scroll] (a [focus], a
    [mousedown], a [submit], ...) is stored as a [click] step with the
    selectors of its target and neither offsets nor button; replayed, such
    a step dispatches a [click] mouse event at the middle of the current
    box of the element, with button code 2. *)
Theorem unhandled_event_replays_as_click (env : Env)
        (selectors : list (list string)) (ev : DomEventInfo) (el : Element) :
  ~ In (domType ev) ["click"; "input"; "change"; "keydown"; "keyup"; "scroll"] ->
  createStep selectors ev =
    mkStep click (Some selectors) None None None None None None /\
  forall s2,
    let rect := boundingClientRect env (trace s2) el in
    let event :=
      MouseEvent "click" true true
        (rectLeft rect + rectWidth rect / 2)%Q
        (rectTop rect + rectHeight rect / 2)%Q 2 in
    Accepted env (trace s2) [getBoundingClientRect el; dispatchEvent el event] ->
    runCallback env (CbDispatchClick el (createStep selectors ev)) s2 =
    (Ok tt, logged s2 [getBoundingClientRect el; dispatchEvent el event]).
Proof.
  intro Hn.
  assert (E : createStep selectors ev =
              mkStep click (Some selectors) None None None None None None).
  { unfold createStep.
    rewrite !(eqb_not_in _ _ _ Hn) by (simpl; auto 10). reflexivity. }
  split; [exact E|].
  intros s2 rect event (H1 & H2 & _).
  rewrite E. cbn [runCallback]; unfold dispatchClick, bind, domRead, domCall.
  rewrite H1; cbn [trace record with_trace].
  unfold clickPoint; cbn [fst snd offsetX offsetY button orNumber buttonCode].
  fold rect. fold event. rewrite H2.
  unfold logged, record, with_trace; cbn. now rewrite <- !app_assoc.
Qed.

Lemma unhandled_event_replays_as_click_witness :
  createStep [["#app"]]
    (mkDomEventInfo "focus" 0 0 0 (Examples.box 10 20 100 40)
                    None EmptyString 0) =
  mkStep click (Some [["#app"]]) None None None None None None.
Proof.
  refine (proj1 (unhandled_event_replays_as_click Examples.env [["#app"]]
            (mkDomEventInfo "focus" 0 0 0 (Examples.box 10 20 100 40)
                            None EmptyString 0) [0; 1] _)).
  simpl. intros [H|[H|[H|[H|[H|[H|[]]]]]]]; discriminate H.
Defined.

(** X14.  A recorded click keeps its offsets: for a [click] event made
    off the left and top edges of the box of its target, the step the
    recorder stores carries the distances of the event from the left and
    the top edge of the box the target had, and its replay dispatches one
    [click] at the left and top edges of the box the located element has
    at that time plus those distances, with the button of X12.  The
    coordinates are the sums the code forms, the edge of the current box
    plus the difference recorded; the sum is not claimed to equal the
    coordinate of the original event, which on the same box it does only
    up to the rounding of the subtraction and of the addition. *)
Theorem recorded_click_keeps_its_offsets (env : Env)
        (selectors : list (list string)) (ev : DomEventInfo) (el : Element)
        (s2 : Sys) :
  domType ev = "click" ->
  ~ (clientX ev - rectLeft (targetRect ev) == 0)%Q ->
  ~ (clientY ev - rectTop (targetRect ev) == 0)%Q ->
  throws env (trace s2) (getBoundingClientRect el) = None ->
  (forall event,
     throws env (trace s2 ++ [getBoundingClientRect el])
            (dispatchEvent el event) = None) ->
  let rect := boundingClientRect env (trace s2) el in
  offsetX (createStep selectors ev)
    = Some (clientX ev - rectLeft (targetRect ev))%Q /\
  offsetY (createStep selectors ev)
    = Some (clientY ev - rectTop (targetRect ev))%Q /\
  runCallback env (CbDispatchClick el (createStep selectors ev)) s2 =
  (Ok tt,
   logged s2 [getBoundingClientRect el;
              dispatchEvent el
                (MouseEvent "click" true true
                   (rectLeft rect + (clientX ev - rectLeft (targetRect ev)))%Q
                   (rectTop rect + (clientY ev - rectTop (targetRect ev)))%Q
                   (Nat.min (mouseButton ev) 2))]).
Proof.
  intros Ht Hx Hy H1 H2 rect.
  assert (E : createStep selectors ev =
              mkStep click (Some selectors)
                     (Some (clientX ev - rectLeft (targetRect ev))%Q)
                     (Some (clientY ev - rectTop (targetRect ev))%Q)
                     (Some (recordedButton (mouseButton ev))) None None None)
    by (unfold createStep; rewrite Ht; reflexivity).
  rewrite E. split; [reflexivity|split; [reflexivity|]].
  cbn [runCallback]; unfold dispatchClick, bind, domRead, domCall.
  rewrite H1; cbn [trace record with_trace]. fold rect.
  rewrite H2.
  unfold clickPoint; cbn [fst snd offsetX offsetY button].
  rewrite !orNumber_recorded by assumption.
  assert (Hb : buttonCode (Some (recordedButton (mouseButton ev)))
               = Nat.min (mouseButton ev) 2)
    by (destruct (mouseButton ev) as [|[|[|b]]]; reflexivity).
  rewrite Hb.
  unfold logged, record, with_trace; cbn. now rewrite <- !app_assoc.
Qed.

(** A click made at (60, 30) on a box at (10, 20), replayed on the same
    page with every box twice as large. *)
Lemma recorded_click_keeps_its_offsets_witness :
  let ev := mkDomEventInfo "click" 60 30 0 (Examples.box 10 20 100 40)
                           None EmptyString 0 in
  offsetX (createStep [["#app"]] ev) = Some (60 - 10)%Q /\
  offsetY (createStep [["#app"]] ev) = Some (30 - 20)%Q /\
  runCallback Examples.envResized
    (CbDispatchClick [0; 1] (createStep [["#app"]] ev)) initialSys =
  (Ok tt,
   logged initialSys
     [getBoundingClientRect [0; 1];
      dispatchEvent [0; 1]
        (MouseEvent "click" true true (10 + (60 - 10))%Q (20 + (30 - 20))%Q
                    (Nat.min 0 2))]).
Proof.
  intro ev.
  apply (recorded_click_keeps_its_offsets Examples.envResized [["#app"]] ev
           [0; 1] initialSys).
  - reflexivity.
  - vm_compute; discriminate.
  - vm_compute; discriminate.
  - reflexivity.
  - intro event; reflexivity.
Defined.

(** X15.  A click made exactly on the left edge of its target is not
    replayed there: its recorded horizontal offset is 0, which the player
    takes for a missing offset, so that the click is replayed at the
    horizontal middle of the current box; likewise, vertically, for a
    click on the top edge. *)
Theorem click_on_the_edge_replays_at_the_middle
        (selectors : list (list string)) (ev : DomEventInfo) (rect : Rect) :
  domType ev = "click" ->
  ((clientX ev == rectLeft (targetRect ev))%Q ->
   (fst (clickPoint (createStep selectors ev) rect)
    == rectLeft rect + rectWidth rect / 2)%Q) /\
  ((clientY ev == rectTop (targetRect ev))%Q ->
   (snd (clickPoint (createStep selectors ev) rect)
    == rectTop rect + rectHeight rect / 2)%Q).
Proof.
  intro Ht. unfold createStep; rewrite Ht; cbn. split; intro H.
  - assert (E : Qeq_bool (clientX ev - rectLeft (targetRect ev)) 0 = true)
      by (apply Qeq_bool_iff; rewrite H; ring).
    rewrite E; reflexivity.
  - assert (E : Qeq_bool (clientY ev - rectTop (targetRect ev)) 0 = true)
      by (apply Qeq_bool_iff; rewrite H; ring).
    rewrite E; reflexivity.
Qed.

Lemma click_on_the_edge_replays_at_the_middle_witness :
  (fst (clickPoint
          (createStep [["#app"]]
             (mkDomEventInfo "click" 10 30 0 (Examples.box 10 20 100 40)
                             None EmptyString 0))
          (Examples.box 10 20 100 40)) == 10 + 100 / 2)%Q.
Proof.
  refine (proj1 (click_on_the_edge_replays_at_the_middle [["#app"]]
            (mkDomEventInfo "click" 10 30 0 (Examples.box 10 20 100 40)
                            None EmptyString 0)
            (Examples.box 10 20 100 40) eq_refl) _).
  reflexivity.
Defined.

(** X16.  What was typed is replayed, where the target had a value: for
    an [input] or [change] event the step the recorder stores is a
    [change] step carrying the [value] property of the target as it was
    read.  Where the target has no such property (an element edited in
    place), the step carries no value, and the player, executing it,
    looks the target up and does nothing more: no highlight, no timer,
    nothing assigned and nothing dispatched.  Where the value read is a
    string, empty or not, the closure that replays the step assigns that
    very string to the located element's [value], then dispatches
    [input], then [change], and stops at the first of these calls that
    throws: where the assignment throws, as on a file input for a
    non-empty value, nothing is dispatched. *)
Theorem recorded_input_is_replayed (env : Env)
        (selectors : list (list string)) (ev : DomEventInfo) (el : Element) :
  domType ev = "input" \/ domType ev = "change" ->
  let step := createStep selectors ev in
  type step = change /\
  value step = inputValue ev /\
  (inputValue ev = None ->
   forall s,
     executeStep env step s =
     (Ok tt,
      logged s (announce step ::
                map querySelector
                  (snd (scan env (trace s ++ [announce step])
                             (concat selectors)))))) /\
  (forall v s2,
     inputValue ev = Some v ->
     let assign := set_value el v in
     let input := dispatchEvent el (Event "input" true) in
     let change := dispatchEvent el (Event "change" true) in
     runCallback env (CbApplyChange el step) s2 =
     match throws env (trace s2) assign with
     | Some e => (Throw e, logged s2 [assign])
     | None =>
         match throws env (trace s2 ++ [assign]) input with
         | Some e => (Throw e, logged s2 [assign; input])
         | None =>
             match throws env (trace s2 ++ [assign; input]) change with
             | Some e => (Throw e, logged s2 [assign; input; change])
             | None => (Ok tt, logged s2 [assign; input; change])
             end
         end
     end).
Proof.
  intros Ht step. subst step.
  rewrite (input_and_change_recorded_as_change selectors ev Ht).
  split; [reflexivity|split; [reflexivity|split]].
  - intros Hv s. rewrite Hv.
    rewrite executeStep_unfold. unfold dispatchStep; cbn [type].
    unfold executeChange, bind. rewrite findElement_after; cbn [value target].
    destruct (fst (scan _ _ _)); reflexivity.
  - intros v s2 Hv. rewrite Hv.
    apply (applyChange_run env el _ v s2). reflexivity.
Qed.

(** The word typed into the query input of the example page, and the
    text typed into an element that has no value. *)
Lemma recorded_input_is_replayed_witness :
  let typed := mkDomEventInfo "input" 0 0 0 (Examples.box 10 20 100 40)
                              (Some "hello") EmptyString 0 in
  let edited := mkDomEventInfo "input" 0 0 0 (Examples.box 10 20 100 40)
                               None EmptyString 0 in
  runCallback Examples.env
    (CbApplyChange Examples.queryInput (createStep [["input"]] typed))
    initialSys =
  (Ok tt, logged initialSys
            [set_value Examples.queryInput "hello";
             dispatchEvent Examples.queryInput (Event "input" true);
             dispatchEvent Examples.queryInput (Event "change" true)]) /\
  executeStep Examples.env (createStep [["#app"]] edited) initialSys =
  (Ok tt, logged initialSys
            [announce (createStep [["#app"]] edited); querySelector "#app"]).
Proof.
  intros typed edited. split.
  - exact (proj2 (proj2 (proj2
             (recorded_input_is_replayed Examples.env [["input"]] typed
                Examples.queryInput (or_introl eq_refl))))
             "hello" initialSys eq_refl).
  - exact (proj1 (proj2 (proj2
             (recorded_input_is_replayed Examples.env [["#app"]] edited
                Examples.queryInput (or_introl eq_refl))))
             eq_refl initialSys).
Defined.

End ReplayFacts.

(* ================================================================== *)
(** * What holds in every state the player can reach *)
(* ================================================================== *)

Module ReachFacts.
Import Recording Runtime Player Observe Reach.
Import LocatorFacts FrameFacts LoopFacts.

(** ** Handles *)

Lemma fresh_app tm next new :
  FreshHandles tm next ->
  map timerId new = seq next (length new) ->
  FreshHandles (tm ++ new) (next + length new).
Proof.
  intros (H1 & Hb & Hd) Hnew. split; [lia|split].
  - intros t Hin. apply in_app_or in Hin as [Hin|Hin].
    + specialize (Hb t Hin); lia.
    + assert (Hi : In (timerId t) (seq next (length new)))
        by (rewrite <- Hnew; now apply in_map).
      apply in_seq in Hi; lia.
  - rewrite map_app, Hnew. apply NoDup_app; [assumption|apply seq_NoDup|].
    intros a Ha Hs. apply in_seq in Hs.
    apply in_map_iff in Ha as (t & <- & Hin). specialize (Hb t Hin); lia.
Qed.

Lemma fresh_one tm next t :
  FreshHandles tm next -> timerId t = next ->
  FreshHandles (tm ++ [t]) (S next).
Proof.
  intros H Ht. rewrite <- Nat.add_1_r.
  apply (fresh_app tm next [t] H). cbn; now rewrite Ht.
Qed.

Lemma distinct_handles_filter (keep : Timer -> bool) (tm : list Timer) :
  NoDup (map timerId tm) -> NoDup (map timerId (filter keep tm)).
Proof.
  induction tm as [|x tm IH]; cbn; [auto|].
  intro H; inversion H as [|? ? Hx Hl]; subst.
  destruct (keep x); cbn; [constructor|]; auto.
  intro Hin. apply Hx. apply in_map_iff in Hin as (y & Hy & Hin).
  apply in_map_iff; exists y; split; [assumption|].
  now apply filter_In in Hin.
Qed.

Lemma fresh_filter tm next p :
  FreshHandles tm next -> FreshHandles (filter p tm) next.
Proof.
  intros (H1 & Hb & Hd). split; [assumption|split].
  - intros t Hin. apply filter_In in Hin as [Hin _]. now apply Hb.
  - now apply distinct_handles_filter.
Qed.

Lemma In_removeAt {A} (l : list A) i x : In x (removeAt i l) -> In x l.
Proof.
  revert i; induction l as [|y l IH]; intros [|i]; cbn; auto.
  intros [<-|H]; [now left|right; eauto].
Qed.

Lemma In_removeAt_or {A} (l : list A) i t x :
  nth_error l i = Some t -> In x l -> x = t \/ In x (removeAt i l).
Proof.
  revert i; induction l as [|y l IH]; intros [|i] Hn Hin; cbn in *;
    try discriminate.
  - injection Hn as <-. destruct Hin as [<-|Hin]; auto.
  - destruct Hin as [<-|Hin]; [right; now left|].
    destruct (IH i Hn Hin); auto.
Qed.

Lemma NoDup_map_removeAt {A B} (f : A -> B) (l : list A) i t :
  nth_error l i = Some t -> NoDup (map f l) ->
  NoDup (map f (removeAt i l)) /\
  forall x, In x (removeAt i l) -> f x <> f t.
Proof.
  revert i; induction l as [|y l IH]; intros [|i] Hn Hd; cbn in *;
    try discriminate; inversion Hd as [|? ? Hy Hl]; subst.
  - injection Hn as <-. split; [assumption|].
    intros x Hin E. apply Hy. rewrite <- E. now apply in_map.
  - destruct (IH i Hn Hl) as [Hd' Hne]. split.
    + constructor; [|assumption].
      intro Hin. apply Hy. apply in_map_iff in Hin as (z & Hz & Hin).
      apply in_map_iff; exists z; split; [assumption|].
      eapply In_removeAt; eassumption.
    + intros x [<-|Hin]; [|now apply Hne].
      intro E. apply Hy. rewrite E. apply in_map.
      eapply nth_error_In; eassumption.
Qed.

Lemma fresh_removeAt tm next i t :
  nth_error tm i = Some t -> FreshHandles tm next ->
  FreshHandles (removeAt i tm) next /\
  forall x, In x (removeAt i tm) -> timerId x <> timerId t.
Proof.
  intros Hn (H1 & Hb & Hd).
  destruct (NoDup_map_removeAt timerId tm i t Hn Hd) as [Hd' Hne].
  split; [|assumption].
  split; [assumption|split; [|assumption]].
  intros x Hin. apply Hb. eapply In_removeAt; eassumption.
Qed.

Lemma inert_not_next t : inertTimer t = true -> isNextStep t = false.
Proof. unfold inertTimer, isNextStep; destruct (callback t); auto; discriminate. Qed.

Lemma inert_all_not_next new t :
  forallb inertTimer new = true -> In t new -> isNextStep t = false.
Proof.
  intros H Hin. apply inert_not_next.
  rewrite forallb_forall in H; now apply H.
Qed.

(** ** Computations that register executor timers in order *)

Lemma Orderly_Silent {A} (m : M A) : Silent m -> Orderly m.
Proof.
  intros H s; destruct (H s) as (calls & Hs & _).
  exists calls, []; rewrite Hs, logged_extended; auto.
Qed.

Lemma Orderly_ret {A} (a : A) : Orderly (ret a).
Proof. apply Orderly_Silent, Silent_ret. Qed.

Lemma Orderly_bind {A B} (m : M A) (k : A -> M B) :
  Orderly m -> (forall a, Orderly (k a)) -> Orderly (bind m k).
Proof.
  intros Hm Hk s; unfold bind.
  destruct (Hm s) as (c1 & n1 & H1 & I1 & S1).
  destruct (m s) as [[a|e] s1]; cbn [snd] in *; subst s1.
  - destruct (Hk a (extended s c1 n1)) as (c2 & n2 & H2 & I2 & S2).
    exists (c1 ++ c2), (n1 ++ n2).
    rewrite H2, extended_extended, forallb_app, I1, I2.
    repeat split.
    cbn [extended nextTimerId] in S2.
    now rewrite map_app, length_app, seq_app, S1, S2.
  - exists c1, n1; auto.
Qed.

Lemma Orderly_setTimeout cb delay :
  inertCallback cb = true -> Orderly (js_setTimeout cb delay).
Proof.
  intros Hcb s.
  exists [setTimeout (nextTimerId s) cb delay],
         [mkTimer (nextTimerId s) (now s + delay)%Q cb].
  unfold js_setTimeout, extended; cbn.
  rewrite Nat.add_1_r. repeat split.
  unfold inertTimer; cbn; now rewrite Hcb.
Qed.

Section Page.
Variable env : Env.

Lemma Orderly_highlightElement el : Orderly (highlightElement env el).
Proof.
  unfold highlightElement.
  apply Orderly_bind; [apply Orderly_Silent, Silent_domRead; reflexivity|intro a].
  apply Orderly_bind; [apply Orderly_Silent, Silent_domCall; reflexivity|intros _].
  apply Orderly_bind; [apply Orderly_setTimeout; reflexivity|intros _].
  apply Orderly_ret.
Qed.

Lemma Orderly_dispatchStep step : Orderly (dispatchStep env step).
Proof.
  assert (Hhl : forall el cb, inertCallback cb = true ->
            Orderly (bind (highlightElement env el)
                          (fun _ => bind (js_setTimeout cb 200)
                                         (fun _ => ret tt)))).
  { intros el cb Hcb.
    apply Orderly_bind; [apply Orderly_highlightElement|intros _].
    apply Orderly_bind; [now apply Orderly_setTimeout|intros _].
    apply Orderly_ret. }
  unfold dispatchStep; destruct (type step).
  - apply Orderly_Silent.
    unfold executeNavigate.
    apply Silent_bind; [apply Silent_get|intro s0].
    destruct (url step) as [u|]; [|apply Silent_ret].
    destruct (_ && _); [|apply Silent_ret].
    apply Silent_emit; reflexivity.
  - unfold executeClick.
    apply Orderly_bind; [apply Orderly_Silent, Silent_findElement|intros [el|]].
    + now apply Hhl.
    + apply Orderly_ret.
  - unfold executeChange.
    apply Orderly_bind; [apply Orderly_Silent, Silent_findElement|intros [el|]].
    + destruct (value step); [now apply Hhl|apply Orderly_ret].
    + apply Orderly_ret.
  - unfold executeKeyPress.
    apply Orderly_bind; [apply Orderly_Silent, Silent_findElement|intros [el|]].
    + destruct (truthyString _); [now apply Hhl|apply Orderly_ret].
    + apply Orderly_ret.
  - unfold executeKeyPress.
    apply Orderly_bind; [apply Orderly_Silent, Silent_findElement|intros [el|]].
    + destruct (truthyString _); [now apply Hhl|apply Orderly_ret].
    + apply Orderly_ret.
  - unfold executeScroll. apply Orderly_Silent.
    apply Silent_bind; [apply Silent_get|intro s0].
    apply Silent_domCall; reflexivity.
  - apply Orderly_Silent, Silent_emit; reflexivity.
  - apply Orderly_Silent, Silent_emit; reflexivity.
Qed.

Lemma executeStep_orderly step s :
  exists calls new,
    executeStep env step s = (Ok tt, extended s (announce step :: calls) new) /\
    forallb inertTimer new = true /\
    map timerId new = seq (nextTimerId s) (length new).
Proof.
  unfold executeStep, bind, emit, update, try_catch.
  fold (announce step).
  destruct (Orderly_dispatchStep step (record (announce step) s))
    as (calls & new & H & I & Hseq).
  cbn [record with_trace nextTimerId] in Hseq.
  destruct (dispatchStep env step (record (announce step) s)) as [[[]|e] s1];
    cbn [snd] in H; subst s1.
  - exists calls, new; repeat split; auto.
    now rewrite extended_record.
  - exists (calls ++ [console_error "[Zordon Player] Error executing step:" (ErrorArg e)]), new.
    repeat split; auto.
    cbn [fst snd]. now rewrite extended_record, record_extended.
Qed.

(** ** The invariant *)

Lemma Coherent_same s s' :
  player s' = player s -> timers s' = timers s ->
  nextTimerId s' = nextTimerId s -> Coherent env s -> Coherent env s'.
Proof.
  unfold Coherent, HandlesFresh, HandleKnown.
  intros -> -> ->; auto.
Qed.

(** A player that is not playing and has no timer of the next step. *)
Lemma idle_coherent s :
  HandlesFresh s -> HandleKnown s -> NoNextStep s ->
  isPlaying (player s) = false ->
  currentStepIndex (player s) = length (Runtime.steps (player s))
  \/ Stranded env (player s) ->
  Coherent env s.
Proof.
  intros HF HK HN Hp Hi.
  split; [exact HF|]. split.
  { unfold CursorSound. rewrite Hp.
    split; [|split; [intros _; exact Hi|discriminate]].
    destruct Hi as [->|(-> & _)]; lia. }
  split; [exact HK|]. split.
  - intros t Hin Hn. rewrite (HN t Hin) in Hn; discriminate.
  - split.
    + rewrite Hp; discriminate.
    + intros (t & Hin & Hn). rewrite (HN t Hin) in Hn; discriminate.
Qed.

(** [executeNextStep], started without a timer of the next step pending,
    whether it returns or throws. *)
Lemma executeNextStep_coherent s :
  HandlesFresh s -> HandleKnown s -> NoNextStep s ->
  currentStepIndex (player s) <= length (Runtime.steps (player s)) ->
  (isPlaying (player s) = false ->
   currentStepIndex (player s) = length (Runtime.steps (player s))) ->
  Coherent env (snd (executeNextStep env s)).
Proof.
  intros HF HK HN Hi Hend.
  destruct s as [[cont playing idx sts speed handle] tr tm nid nw unc].
  unfold HandlesFresh, HandleKnown, NoNextStep in HF, HK, HN.
  cbn [player timers nextTimerId playbackInterval currentStepIndex
       Runtime.steps isPlaying] in HF, HK, HN, Hi, Hend.
  unfold executeNextStep, bind, get;
    cbn [player isPlaying Runtime.steps currentStepIndex].
  destruct (negb playing || Nat.leb (length sts) idx) eqn:Hdone.
  - unfold setPlayer, update, showCompletionMessage, bind, get, domCall, update,
      js_setTimeout, ret; cbn.
    assert (Hlen : idx = length sts).
    { destruct playing; [|now apply Hend]. cbn in Hdone.
      apply Nat.leb_le in Hdone. lia. }
    destruct cont as [d|]; cbn;
      [destruct (throws env tr showCompletion) as [e|]; cbn|];
      apply idle_coherent; cbn; auto.
    + unfold HandlesFresh; cbn. now apply fresh_one.
    + unfold HandleKnown; cbn. intros h Hh.
      destruct (HK h Hh) as [Hb Hn]. split; [lia|].
      intros t Hin Ht. apply in_app_or in Hin as [Hin|[<-|[]]]; [now apply Hn|].
      cbn in Ht; lia.
    + unfold NoNextStep; cbn. intros t Hin.
      apply in_app_or in Hin as [Hin|[<-|[]]]; [now apply HN|].
      reflexivity.
  - apply orb_false_elim in Hdone as [Hplay Hlt].
    apply negb_false_iff in Hplay. apply Nat.leb_gt in Hlt. subst playing.
    destruct (nth_error sts idx) as [step|] eqn:Hn;
      [|apply nth_error_None in Hn; lia].
    match goal with |- context [executeStep env step ?s0] =>
      destruct (executeStep_orderly step s0) as (calls & new & He & I & Hseq)
    end.
    rewrite He. cbn [nextTimerId] in Hseq.
    unfold setPlayer, update, js_setTimeout, extended; cbn.
    assert (HF1 : FreshHandles (tm ++ new) (nid + length new))
      by (now apply fresh_app).
    split; [|split; [|split; [|split]]]; unfold HandlesFresh, HandleKnown; cbn.
    + now apply fresh_one.
    + unfold CursorSound; cbn. split; [lia|split; [discriminate|lia]].
    + intros h Hh. injection Hh as <-.
      destruct HF as (H1 & Hb & _). split; [lia|].
      intros t Hin Ht. apply in_app_or in Hin as [Hin|[<-|[]]]; [|reflexivity].
      destruct HF1 as (_ & Hb1 & _). specialize (Hb1 t Hin). lia.
    + intros t Hin Hnext.
      apply in_app_or in Hin as [Hin|[<-|[]]]; [|reflexivity].
      apply in_app_or in Hin as [Hin|Hin].
      * rewrite (HN t Hin) in Hnext; discriminate.
      * rewrite (inert_all_not_next new t I Hin) in Hnext; discriminate.
    + split; [|reflexivity]. intros _.
      eexists; split; [apply in_or_app; right; left; reflexivity|reflexivity].
Qed.

(** [cleanup] in a coherent state: it cancels the timer of the next step,
    and no other. *)
Lemma cleanup_coherent s :
  Coherent env s ->
  exists s',
    cleanup s = (Ok tt, s') /\
    HandlesFresh s' /\ HandleKnown s' /\ NoNextStep s' /\
    isPlaying (player s') = false /\
    currentStepIndex (player s') = 0 /\
    Runtime.steps (player s') = [] /\
    playerContainer (player s') = None /\
    (forall t, In t (timers s) -> isNextStep t = false -> In t (timers s')) /\
    (forall t, In t (timers s') -> In t (timers s)).
Proof.
  intros (HF & _ & HK & HT & HP).
  destruct s as [[cont playing idx sts speed handle] tr tm nid nw unc].
  unfold HandlesFresh, HandleKnown in HF, HK.
  cbn [player timers nextTimerId playbackInterval currentStepIndex
       Runtime.steps isPlaying] in HF, HK, HT, HP.
  unfold cleanup, bind, get, setPlayer, update, js_clearTimeout, emit.
  cbn [player playbackInterval].
  destruct (truthyHandle handle) as [id|] eqn:Hh.
  - assert (Hid : handle = Some id).
    { unfold truthyHandle in Hh. destruct handle as [h|]; [|discriminate].
      destruct (Nat.eqb h 0); [discriminate|now injection Hh as ->]. }
    assert (G : forall cont',
      let s' := mkSys (mkDOMPlayer cont' false 0 [] speed None) tr
                      (filter (fun t => negb (Nat.eqb (timerId t) id)) tm)
                      nid nw unc in
      HandlesFresh s' /\ HandleKnown s' /\ NoNextStep s' /\
      (forall t, In t tm -> isNextStep t = false -> In t (timers s')) /\
      (forall t, In t (timers s') -> In t tm)).
    { intros cont' s'. subst s'. unfold HandlesFresh, HandleKnown, NoNextStep; cbn.
      split; [now apply fresh_filter|]. split; [discriminate|]. split; [|split].
      - intros t Hin. apply filter_In in Hin as [Hin Hne].
        destruct (isNextStep t) eqn:Hn; [|reflexivity].
        specialize (HT t Hin Hn). rewrite Hid in HT. injection HT as ->.
        rewrite Nat.eqb_refl in Hne; discriminate.
      - intros t Hin Hn. apply filter_In; split; [assumption|].
        destruct (Nat.eqb_spec (timerId t) id) as [E|]; [|reflexivity].
        destruct (HK id Hid) as [_ Hk]. rewrite (Hk t Hin E) in Hn; discriminate.
      - intros t Hin. now apply filter_In in Hin. }
    destruct cont as [d|]; cbn; eexists; (split; [reflexivity|]);
      destruct (G None) as (G1 & G2 & G3 & G4 & G5); cbn in G4, G5;
      repeat (split; [first [exact G1|exact G2|exact G3|reflexivity|exact G4]|]);
      exact G5.
  - assert (HN : forall t, In t tm -> isNextStep t = false).
    { intros t Hin. destruct (isNextStep t) eqn:Hn; [|reflexivity].
      specialize (HT t Hin Hn). subst handle. cbn in Hh.
      destruct HF as (_ & Hb & _). specialize (Hb t Hin).
      destruct (Nat.eqb_spec (timerId t) 0); [lia|discriminate]. }
    destruct cont as [d|]; cbn; eexists; (split; [reflexivity|]);
      unfold HandlesFresh, HandleKnown, NoNextStep; cbn;
      repeat (split; [first [exact HF|exact HK|exact HN|reflexivity|auto]|]);
      auto.
Qed.

(** A request keeps the invariant, whether it returns or throws: where
    [createPlayerUI] throws, the player is left stranded. *)
Lemma playRecording_coherent recording s :
  Coherent env s -> Coherent env (snd (playRecording env recording s)).
Proof.
  intros HC.
  set (hello := console_log "[Zordon] Starting playback for:"
                            (TextArg (recordingId recording))).
  assert (HC1 : Coherent env (record hello s))
    by (apply (Coherent_same s); [reflexivity|reflexivity|reflexivity|exact HC]).
  destruct (cleanup_coherent _ HC1)
    as (s1 & Hc & HF & HK & HN & Hp & Hk & Hs & Hcont & _ & _).
  unfold playRecording, bind, emit, update. fold hello. rewrite Hc.
  unfold get, setPlayer, update; cbn [fst snd player Runtime.steps set_steps
                                      set_currentStepIndex with_player].
  assert (Hidle : forall calls,
    Coherent env (mkSys (set_currentStepIndex 0 (set_steps [] (player s1)))
                        (trace s1 ++ calls) (timers s1) (nextTimerId s1) (now s1)
                        (uncaught s1))).
  { intro calls. apply idle_coherent; cbn; auto. }
  destruct (Recording.steps recording) as [[|st ss]|]; cbn [length Nat.eqb].
  - unfold record, with_trace; cbn.
    rewrite <- app_assoc. apply Hidle.
  - set (fill := fillPlayerContainer (orString (title recording) "Untitled")).
    assert (Hstranded : forall c e tr1 tr2,
      onContainer c = true -> throws env tr1 c = Some e ->
      Coherent env
        (mkSys (mkDOMPlayer (Some display_none) (isPlaying (player s1)) 0
                            (st :: ss) (playbackSpeed (player s1))
                            (playbackInterval (player s1)))
               tr2 (timers s1) (nextTimerId s1) (now s1) (uncaught s1))).
    { intros c e tr1 tr2 Hon Hthrow. apply idle_coherent; cbn; auto.
      right. split; [reflexivity|split; [reflexivity|]].
      exists tr1, c, e; auto. }
    unfold createPlayerUI, startPlayback, bind, domCall, get, setPlayer, update;
      cbn [fst snd player Runtime.steps set_steps set_currentStepIndex
           set_playerContainer set_isPlaying with_player record with_trace
           length Nat.eqb trace timers nextTimerId now uncaught
           playerContainer isPlaying currentStepIndex playbackSpeed
           playbackInterval].
    fold fill.
    destruct (throws env (trace s1) fill) as [e|] eqn:Hfill;
      cbn [fst snd player Runtime.steps set_steps set_currentStepIndex
           set_playerContainer set_isPlaying with_player record with_trace
           length Nat.eqb trace timers nextTimerId now uncaught
           playerContainer isPlaying currentStepIndex playbackSpeed
           playbackInterval];
      [exact (Hstranded fill e _ _ eq_refl Hfill)|].
    destruct (throws env (trace s1 ++ [fill]) appendPlayerContainer) as [e|]
      eqn:Happend;
      cbn [fst snd player Runtime.steps set_steps set_currentStepIndex
           set_playerContainer set_isPlaying with_player record with_trace
           length Nat.eqb trace timers nextTimerId now uncaught
           playerContainer isPlaying currentStepIndex playbackSpeed
           playbackInterval];
      [exact (Hstranded appendPlayerContainer e _ _ eq_refl Happend)|].
    apply executeNextStep_coherent; cbn; auto; [lia|discriminate].
  - unfold record, with_trace; cbn.
    rewrite <- app_assoc. apply Hidle.
Qed.

Lemma removeAt_coherent s i t :
  nth_error (timers s) i = Some t -> isNextStep t = false -> Coherent env s ->
  forall nw,
    Coherent env (mkSys (player s) (trace s) (removeAt i (timers s))
                        (nextTimerId s) nw (uncaught s)).
Proof.
  intros Hn Ht (HF & Hi & HK & HT & HP) nw.
  destruct (fresh_removeAt _ _ _ _ Hn HF) as [HF1 _].
  split; [exact HF1|]. split; [exact Hi|]. split; [|split; [|split]]; cbn.
  - intros h Hh. destruct (HK h Hh) as [Hb Hk]. split; [exact Hb|].
    intros x Hin. apply Hk. eapply In_removeAt; eassumption.
  - intros x Hin. apply HT. eapply In_removeAt; eassumption.
  - intro Hplay. destruct (proj1 HP Hplay) as (x & Hin & Hx).
    destruct (In_removeAt_or _ _ _ _ Hn Hin) as [->|Hin'].
    + rewrite Ht in Hx; discriminate.
    + exists x; auto.
  - intros (x & Hin & Hx). apply HP. exists x; split; [|assumption].
    eapply In_removeAt; eassumption.
Qed.

(** The closure of an executor leaves the player and the timers alone,
    whether it returns or throws. *)
Lemma inert_fired_coherent s i t :
  nth_error (timers s) i = Some t -> inertTimer t = true -> Coherent env s ->
  Coherent env (fire env i s).
Proof.
  intros Hn Hin HC. unfold fire; rewrite Hn.
  set (s1 := mkSys (player s) (trace s) (removeAt i (timers s)) (nextTimerId s)
                   (Qmax (now s) (due t)) (uncaught s)).
  assert (HC1 : Coherent env s1)
    by (apply (removeAt_coherent s i t Hn); [now apply inert_not_next|exact HC]).
  destruct (Silent_inert_callback env (callback t) Hin s1) as (calls & Hs & _).
  destruct (runCallback env (callback t) s1) as [[[]|e] s2];
    cbn [snd] in Hs; subst s2;
    apply (Coherent_same s1); try reflexivity; exact HC1.
Qed.

(** A timer firing keeps the invariant. *)
Lemma fire_coherent i s : Coherent env s -> Coherent env (fire env i s).
Proof.
  intro HC.
  destruct (nth_error (timers s) i) as [t|] eqn:Hn;
    [|unfold fire; rewrite Hn; exact HC].
  destruct (inertTimer t) eqn:Hinert;
    [exact (inert_fired_coherent s i t Hn Hinert HC)|].
  unfold fire; rewrite Hn.
  set (s1 := mkSys (player s) (trace s) (removeAt i (timers s)) (nextTimerId s)
                   (Qmax (now s) (due t)) (uncaught s)).
  unfold inertTimer, inertCallback in Hinert.
  destruct (callback t) eqn:Hcb; try discriminate Hinert; cbn [runCallback].
  - (* the next step *)
    destruct HC as (HF & Hi & HK & HT & HP).
    destruct (fresh_removeAt _ _ _ _ Hn HF) as [HF1 Hne].
    assert (Hnext : isNextStep t = true) by (unfold isNextStep; now rewrite Hcb).
    assert (Hplay : isPlaying (player s) = true)
      by (apply HP; exists t; split; [eapply nth_error_In; eassumption|exact Hnext]).
    assert (HN1 : NoNextStep s1).
    { intros x Hin. destruct (isNextStep x) eqn:Hx; [|reflexivity].
      pose proof (HT x (In_removeAt _ _ _ Hin) Hx) as E1.
      pose proof (HT t (nth_error_In _ _ Hn) Hnext) as E2.
      rewrite E1 in E2. injection E2 as E. destruct (Hne x Hin E). }
    assert (HK1 : HandleKnown s1).
    { intros h Hh. destruct (HK h Hh) as [Hb Hk]. split; [exact Hb|].
      intros x Hin. apply Hk. exact (In_removeAt _ _ _ Hin). }
    assert (Hend : isPlaying (player s1) = false ->
                   currentStepIndex (player s1)
                   = length (Runtime.steps (player s1)))
      by (cbn; rewrite Hplay; discriminate).
    pose proof (executeNextStep_coherent s1 HF1 HK1 HN1 (proj1 Hi) Hend) as HC'.
    destruct (executeNextStep env s1) as [[[]|e] s2]; cbn [snd] in HC';
      [exact HC'|].
    apply (Coherent_same s2); try reflexivity; exact HC'.
  - (* the auto-hide *)
    assert (HC1 : Coherent env s1)
      by (apply (removeAt_coherent s i t Hn);
          [unfold isNextStep; now rewrite Hcb|exact HC]).
    destruct (cleanup_coherent s1 HC1)
      as (s' & -> & HF' & HK' & HN' & Hp' & Hk' & Hs' & _).
    apply idle_coherent; auto. left; now rewrite Hk', Hs'.
Qed.

Lemma initial_coherent : Coherent env initialSys.
Proof.
  apply idle_coherent.
  - unfold HandlesFresh, FreshHandles; cbn.
    split; [lia|split; [intros t []|constructor]].
  - intros h Hh; discriminate.
  - intros t [].
  - reflexivity.
  - left; reflexivity.
Qed.

(** Every state the player can reach is coherent. *)
Lemma reachable_coherent s : Reachable env s -> Coherent env s.
Proof.
  induction 1 as [|s messageType recording _ IH|s i _ IH|s d _ IH].
  - exact initial_coherent.
  - unfold onMessage. destruct (String.eqb messageType "ZORDON_PLAY").
    + now apply playRecording_coherent.
    + exact IH.
  - now apply fire_coherent.
  - apply (Coherent_same s); try reflexivity; exact IH.
Qed.

(** ** Where control throws *)

Lemma cleanup_ok s : fst (cleanup s) = Ok tt /\ uncaught (snd (cleanup s)) = uncaught s.
Proof.
  destruct s as [[cont playing idx sts speed handle] tr tm nid nw unc].
  unfold cleanup, bind, get, setPlayer, update, js_clearTimeout, emit.
  cbn [player playbackInterval].
  destruct (truthyHandle handle); destruct cont; cbn; split; reflexivity.
Qed.

(** [executeNextStep] throws what the assignment of the completion
    message throws, and nothing else; the player has stopped by then and
    no auto-hide is registered. *)
Lemma executeNextStep_throw s e :
  fst (executeNextStep env s) = Throw e ->
  throws env (trace s) showCompletion = Some e /\
  player (snd (executeNextStep env s))
    = set_playerContainer (Some display_block)
        (set_isPlaying false (player s)) /\
  trace (snd (executeNextStep env s)) = trace s ++ [showCompletion] /\
  timers (snd (executeNextStep env s)) = timers s.
Proof.
  destruct s as [[cont playing idx sts speed handle] tr tm nid nw unc].
  unfold executeNextStep, bind, get;
    cbn [player isPlaying Runtime.steps currentStepIndex].
  destruct (negb playing || Nat.leb (length sts) idx).
  - unfold setPlayer, update, showCompletionMessage, bind, get, domCall, update,
      js_setTimeout, ret; cbn.
    destruct cont as [d|]; cbn; [|discriminate].
    destruct (throws env tr showCompletion) as [e'|]; cbn; [|discriminate].
    intros [= ->]. repeat split.
  - destruct (nth_error sts idx) as [step|]; [|discriminate].
    match goal with |- context [executeStep env step ?s0] =>
      destruct (executeStep_spec env step s0) as (calls & new & He & _)
    end.
    rewrite He. discriminate.
Qed.

(** A request throws what [createPlayerUI] throws, and nothing else: the
    assignment of the status or the attachment of the container was
    refused.  No step was announced by then and no timer registered. *)
Lemma playRecording_throw recording s e :
  fst (playRecording env recording s) = Throw e ->
  let s' := snd (playRecording env recording s) in
  (exists tr c,
     (c = fillPlayerContainer (orString (title recording) "Untitled")
      \/ c = appendPlayerContainer) /\
     throws env tr c = Some e) /\
  isPlaying (player s') = false /\
  currentStepIndex (player s') = 0 /\
  Recording.steps recording = Some (Runtime.steps (player s')) /\
  playerContainer (player s') = Some display_none /\
  executedSteps (trace s') = executedSteps (trace s) /\
  nextTimerId s' = nextTimerId s /\
  (forall t, In t (timers s') -> In t (timers s)).
Proof.
  set (hello := console_log "[Zordon] Starting playback for:"
                            (TextArg (recordingId recording))).
  destruct (cleanup_resets (record hello s))
    as (s1 & calls & Hc & Htr & Hex & Hp & Hst & Hk & Hcont & Hid & Htm).
  unfold playRecording, bind, emit, update. fold hello. rewrite Hc.
  unfold get, setPlayer, update; cbn [fst snd player Runtime.steps set_steps
                                      set_currentStepIndex with_player].
  destruct (Recording.steps recording) as [[|st ss]|]; cbn [length Nat.eqb];
    try discriminate.
  set (fill := fillPlayerContainer (orString (title recording) "Untitled")).
  assert (Hsteps : forall more,
    executedSteps more = [] ->
    executedSteps (trace s1 ++ more) = executedSteps (trace s)).
  { intros more E. rewrite Htr; cbn.
    rewrite !executedSteps_app, Hex, E; cbn. now rewrite !app_nil_r. }
  unfold createPlayerUI, startPlayback, bind, domCall, get, setPlayer, update;
    cbn [fst snd player Runtime.steps set_steps set_currentStepIndex
         set_playerContainer set_isPlaying with_player record with_trace
         length Nat.eqb trace timers nextTimerId now uncaught
         playerContainer isPlaying currentStepIndex playbackSpeed
         playbackInterval].
  fold fill.
  destruct (throws env (trace s1) fill) as [e1|] eqn:Hfill;
    cbn [fst snd player Runtime.steps set_steps set_currentStepIndex
         set_playerContainer set_isPlaying with_player record with_trace
         length Nat.eqb trace timers nextTimerId now uncaught
         playerContainer isPlaying currentStepIndex playbackSpeed
         playbackInterval].
  { intros [= ->]. split; [exists (trace s1), fill; auto|].
    split; [exact Hp|]. split; [reflexivity|]. split; [reflexivity|].
    split; [reflexivity|]. split; [now apply Hsteps|].
    split; [exact Hid|exact Htm]. }
  destruct (throws env (trace s1 ++ [fill]) appendPlayerContainer) as [e2|]
    eqn:Happend;
    cbn [fst snd player Runtime.steps set_steps set_currentStepIndex
         set_playerContainer set_isPlaying with_player record with_trace
         length Nat.eqb trace timers nextTimerId now uncaught
         playerContainer isPlaying currentStepIndex playbackSpeed
         playbackInterval].
  { intros [= ->].
    split; [exists (trace s1 ++ [fill]), appendPlayerContainer; auto|].
    split; [exact Hp|]. split; [reflexivity|]. split; [reflexivity|].
    split; [reflexivity|]. split; [|split; [exact Hid|exact Htm]].
    rewrite <- app_assoc. now apply Hsteps. }
  intro Hthrow. exfalso.
  match type of Hthrow with context [executeNextStep env ?s0] =>
    assert (Hgo : fst (executeNextStep env s0) = Ok tt)
  end; [|rewrite Hgo in Hthrow; discriminate].
  clear Hthrow.
  unfold executeNextStep, bind, get; cbn -[executeStep].
  match goal with |- context [executeStep env st ?s0] =>
    destruct (executeStep_spec env st s0) as (calls' & new & He & _)
  end.
  rewrite He. reflexivity.
Qed.

(** ** On a page that lets the player fill, attach and rewrite its
    container *)

Hypothesis Hallowed : ContainerAllowed env.

Lemma executeNextStep_ok s :
  fst (executeNextStep env s) = Ok tt /\
  uncaught (snd (executeNextStep env s)) = uncaught s.
Proof.
  destruct s as [[cont playing idx sts speed handle] tr tm nid nw unc].
  unfold executeNextStep, bind, get;
    cbn [player isPlaying Runtime.steps currentStepIndex].
  destruct (negb playing || Nat.leb (length sts) idx).
  - unfold setPlayer, update, showCompletionMessage, bind, get, domCall, update,
      js_setTimeout, ret; cbn.
    destruct cont; cbn; [|split; reflexivity].
    rewrite (Hallowed _ showCompletion eq_refl); cbn. split; reflexivity.
  - destruct (nth_error sts idx) as [step|]; [|split; reflexivity].
    match goal with |- context [executeStep env step ?s0] =>
      destruct (executeStep_spec env step s0) as (calls & new & He & _)
    end.
    rewrite He. split; reflexivity.
Qed.

Lemma playRecording_ok recording s :
  fst (playRecording env recording s) = Ok tt /\
  uncaught (snd (playRecording env recording s)) = uncaught s.
Proof.
  set (hello := console_log "[Zordon] Starting playback for:"
                            (TextArg (recordingId recording))).
  destruct (cleanup_ok (record hello s)) as [Hc Hu].
  unfold playRecording, bind, emit, update. fold hello.
  destruct (cleanup (record hello s)) as [[[]|e] s1]; cbn [fst snd] in Hc, Hu;
    [|discriminate].
  cbn [uncaught record with_trace] in Hu.
  unfold get, setPlayer, update; cbn [fst snd player Runtime.steps set_steps
                                      set_currentStepIndex with_player].
  destruct (Recording.steps recording) as [[|st ss]|]; cbn [length Nat.eqb].
  - split; [reflexivity|exact Hu].
  - unfold createPlayerUI, startPlayback, bind, domCall, get, setPlayer, update;
      cbn [fst snd player Runtime.steps set_steps set_currentStepIndex
           set_playerContainer set_isPlaying with_player record with_trace
           length Nat.eqb trace timers nextTimerId now uncaught
           playerContainer isPlaying currentStepIndex playbackSpeed
           playbackInterval].
    rewrite (Hallowed _ (fillPlayerContainer _) eq_refl);
      cbn [fst snd player Runtime.steps set_steps set_currentStepIndex
           set_playerContainer set_isPlaying with_player record with_trace
           length Nat.eqb trace timers nextTimerId now uncaught
           playerContainer isPlaying currentStepIndex playbackSpeed
           playbackInterval].
    rewrite (Hallowed _ appendPlayerContainer eq_refl);
      cbn [fst snd player Runtime.steps set_steps set_currentStepIndex
           set_playerContainer set_isPlaying with_player record with_trace
           length Nat.eqb trace timers nextTimerId now uncaught
           playerContainer isPlaying currentStepIndex playbackSpeed
           playbackInterval].
    match goal with |- context [executeNextStep env ?s0] =>
      destruct (executeNextStep_ok s0) as [Ho Hu']
    end.
    split; [exact Ho|]. rewrite Hu'. exact Hu.
  - split; [reflexivity|exact Hu].
Qed.

End Page.

Lemma filter_at_most_one {A} (p : A -> bool) (f : A -> nat) (l : list A) h :
  (forall t, In t l -> p t = true -> f t = h) -> NoDup (map f l) ->
  filter p l = [] \/ exists t, filter p l = [t].
Proof.
  induction l as [|x l IH]; intros Hh Hd; cbn; [now left|].
  inversion Hd as [|? ? Hx Hl]; subst.
  assert (Hh' : forall t, In t l -> p t = true -> f t = h)
    by (intros t Hin; apply Hh; now right).
  destruct (p x) eqn:Hp; [|now apply IH].
  right; exists x. f_equal.
  destruct (filter p l) as [|y r] eqn:E; [reflexivity|exfalso].
  assert (Hy : In y (filter p l)) by (rewrite E; now left).
  apply filter_In in Hy as [Hin Hpy].
  apply Hx. rewrite (Hh x (or_introl eq_refl) Hp), <- (Hh' y Hin Hpy).
  now apply in_map.
Qed.

(** X17.  In every state the player can reach, by messages arriving and
    timers firing in any order, on any page, the cursor lies within the
    steps, and it is at least 1 while the player is playing (the first
    step is run at once when playback starts).  While the player is not
    playing, the cursor equals the number of steps (0 of 0 steps when
    idle, all of them when playback has completed), with one exception: a
    request during which [createPlayerUI] threw leaves the player not
    playing, the steps loaded, the cursor at 0 and the container created
    but hidden, and that takes a page that refuses a call on the
    container.  On a page that refuses none, the cursor of a player that
    is not playing equals the number of steps. *)
Theorem cursor_stays_within_steps (env : Env) (s : Sys) :
  Reachable env s ->
  currentStepIndex (player s) <= length (Runtime.steps (player s)) /\
  (isPlaying (player s) = true -> 1 <= currentStepIndex (player s)) /\
  (isPlaying (player s) = false ->
   currentStepIndex (player s) = length (Runtime.steps (player s)) \/
   (currentStepIndex (player s) = 0 /\
    playerContainer (player s) = Some display_none /\
    exists tr c e, onContainer c = true /\ throws env tr c = Some e)) /\
  (ContainerAllowed env -> isPlaying (player s) = false ->
   currentStepIndex (player s) = length (Runtime.steps (player s))).
Proof.
  intro HR. destruct (reachable_coherent env s HR) as (_ & (H1 & H2 & H3) & _).
  split; [exact H1|split; [exact H3|split; [exact H2|]]].
  intros Hok Hidle.
  destruct (H2 Hidle) as [E|(_ & _ & tr & c & e & Hc & Hthrow)]; [exact E|].
  rewrite (Hok tr c Hc) in Hthrow. discriminate Hthrow.
Qed.

(** The example session requested on the page that refuses strings for
    [innerHTML]: the request throws and leaves the cursor at 0 of 2. *)
Lemma cursor_stays_within_steps_witness :
  let s := snd (onMessage Examples.envTrustedTypes "ZORDON_PLAY"
                          Examples.session initialSys) in
  (isPlaying (player s) = false /\
   currentStepIndex (player s) = 0 /\
   length (Runtime.steps (player s)) = 2) /\
  currentStepIndex (player s) <= length (Runtime.steps (player s)) /\
  (isPlaying (player s) = true -> 1 <= currentStepIndex (player s)) /\
  (isPlaying (player s) = false ->
   currentStepIndex (player s) = length (Runtime.steps (player s)) \/
   (currentStepIndex (player s) = 0 /\
    playerContainer (player s) = Some display_none /\
    exists tr c e, onContainer c = true /\
                   throws Examples.envTrustedTypes tr c = Some e)) /\
  (ContainerAllowed Examples.envTrustedTypes ->
   isPlaying (player s) = false ->
   currentStepIndex (player s) = length (Runtime.steps (player s))).
Proof.
  split; [vm_compute; repeat split|].
  apply (cursor_stays_within_steps Examples.envTrustedTypes).
  apply reach_message, reach_initial.
Defined.

(** X18.  One playback at a time: in every state the player can reach,
    while the player is playing exactly one timer of the next step is
    pending, and the player holds its handle in [playbackInterval]; while
    it is not playing, none is pending.  So two playbacks never run
    side by side, and a playing player never stalls for want of a
    scheduled step. *)
Theorem one_next_step_timer_while_playing (env : Env) (s : Sys) :
  Reachable env s ->
  (isPlaying (player s) = true ->
   exists t, filter isNextStep (timers s) = [t] /\
             playbackInterval (player s) = Some (timerId t)) /\
  (isPlaying (player s) = false -> filter isNextStep (timers s) = []).
Proof.
  intro HR.
  destruct (reachable_coherent env s HR) as ((_ & _ & Hd) & _ & HK & HT & HP).
  split.
  - intro Hplay. destruct (proj1 HP Hplay) as (t & Hin & Hn).
    pose proof (HT t Hin Hn) as Hh.
    assert (Hsame : forall x, In x (timers s) -> isNextStep x = true ->
                              timerId x = timerId t).
    { intros x Hx Hnx. pose proof (HT x Hx Hnx) as E. rewrite Hh in E.
      now injection E. }
    destruct (filter_at_most_one isNextStep timerId (timers s) (timerId t) Hsame Hd)
      as [E|(y & E)].
    + assert (Hf : In t (filter isNextStep (timers s)))
        by (apply filter_In; auto).
      rewrite E in Hf; destruct Hf.
    + exists y. split; [exact E|].
      assert (Hy : In y (filter isNextStep (timers s))) by (rewrite E; now left).
      apply filter_In in Hy as [Hy1 Hy2]. exact (HT y Hy1 Hy2).
  - intro Hidle.
    destruct (filter isNextStep (timers s)) as [|y r] eqn:E; [reflexivity|exfalso].
    assert (Hy : In y (filter isNextStep (timers s))) by (rewrite E; now left).
    apply filter_In in Hy as [Hy1 Hy2].
    assert (Hp : isPlaying (player s) = true) by (apply HP; exists y; auto).
    rewrite Hidle in Hp; discriminate.
Qed.

Lemma one_next_step_timer_while_playing_witness :
  let s := fire Examples.env 0
             (snd (onMessage Examples.env "ZORDON_PLAY" Examples.session
                             initialSys)) in
  (isPlaying (player s) = true ->
   exists t, filter isNextStep (timers s) = [t] /\
             playbackInterval (player s) = Some (timerId t)) /\
  (isPlaying (player s) = false -> filter isNextStep (timers s) = []).
Proof.
  apply (one_next_step_timer_while_playing Examples.env).
  apply reach_timer, reach_message, reach_initial.
Defined.

Lemma coherent_tracked env s :
  Coherent env s -> (forall t, In t (timers s) -> isAutoHide t = false) ->
  Tracked s.
Proof.
  intros ((_ & Hb & _) & _ & _ & HT & _) Hno t Hin Hact.
  assert (Hn : isNextStep t = true).
  { specialize (Hno t Hin). unfold active, inertTimer, inertCallback in Hact.
    unfold isAutoHide in Hno. unfold isNextStep.
    destruct (callback t); try discriminate; reflexivity. }
  rewrite (HT t Hin Hn). cbn.
  specialize (Hb t Hin).
  destruct (Nat.eqb_spec (timerId t) 0); [lia|reflexivity].
Qed.

Lemma request_completes (env : Env) (sched : Scheduler)
      (recording : RecordingSession) (ss : list Step) (s : Sys) :
  ContainerAllowed env ->
  Reachable env s ->
  (forall t, In t (timers s) -> isAutoHide t = false) ->
  Recording.steps recording = Some ss -> ss <> [] ->
  fst (playRecording env recording s) = Ok tt /\
  exists fuel,
    Completed (executedSteps (trace s)) ss
      (run env sched fuel (snd (playRecording env recording s))).
Proof.
  intros Hok HR Hno Hs Hne.
  pose proof (coherent_tracked env s (reachable_coherent env s HR) Hno) as HT.
  destruct (playRecording_starts env Hok recording ss s Hs Hne HT)
    as (s' & -> & HP).
  split; [reflexivity|].
  exact (Playing_completes env Hok sched _ ss _ _ 1 s' eq_refl eq_refl HP).
Qed.

(** X19.  A replay request is honoured from every state the player can
    reach in which no auto-hide of a completion message is pending, be
    the player idle or in the middle of another playback, on a page that
    lets the player fill, attach and rewrite its container (none of these
    three calls throws) and that stays loaded, so that its pending timers
    go on firing: for a recording with a non-empty step sequence,
    whatever the page answers to the calls of the steps and in whatever
    order the timers fire, the request returns normally, the playback
    under way is dropped, and after finitely many timers the new one
    reaches completion, having announced, after what was announced before
    the request, the steps of the new recording, each once and in order,
    and no step of the old one.  A page that is unloaded meanwhile, by a
    replayed click for instance, fires no further timer: a run describes
    the page for as long as it stays loaded. *)
Theorem replay_completes_unless_autohide_pending (env : Env)
        (sched : Scheduler) (recording : RecordingSession) (ss : list Step)
        (s : Sys) :
  ContainerAllowed env ->
  Reachable env s ->
  (forall t, In t (timers s) -> isAutoHide t = false) ->
  Recording.steps recording = Some ss -> ss <> [] ->
  fst (onMessage env "ZORDON_PLAY" recording s) = Ok tt /\
  exists fuel,
    Completed (executedSteps (trace s)) ss
      (run env sched fuel (snd (onMessage env "ZORDON_PLAY" recording s))).
Proof.
  intros Hok HR Hno Hs Hne.
  change (onMessage env "ZORDON_PLAY" recording s)
    with (playRecording env recording s).
  exact (request_completes env sched recording ss s Hok HR Hno Hs Hne).
Qed.

(** The long session requested while the short one is being played. *)
Lemma replay_completes_unless_autohide_pending_witness :
  let s := fire Examples.env 0
             (snd (onMessage Examples.env "ZORDON_PLAY" Examples.session
                             initialSys)) in
  fst (onMessage Examples.env "ZORDON_PLAY" Examples.longSession s) = Ok tt /\
  exists fuel,
    Completed (executedSteps (trace s))
      [Examples.plainStep navigate None; Examples.clickStep;
       Examples.fileStep; Examples.scrollStep;
       Examples.plainStep waitForElement None]
      (run Examples.env earliest fuel
           (snd (onMessage Examples.env "ZORDON_PLAY" Examples.longSession s))).
Proof.
  apply (replay_completes_unless_autohide_pending Examples.env earliest
           Examples.longSession).
  - apply static_allowed.
  - apply reach_timer, reach_message, reach_initial.
  - assert (E : forallb (fun t => negb (isAutoHide t))
                  (timers (fire Examples.env 0
                     (snd (onMessage Examples.env "ZORDON_PLAY" Examples.session
                                     initialSys)))) = true)
      by (vm_compute; reflexivity).
    intros t Hin. rewrite forallb_forall in E. specialize (E t Hin).
    destruct (isAutoHide t); [discriminate E|reflexivity].
  - reflexivity.
  - discriminate.
Defined.

(** X20.  [cleanup] cancels the timer of the next step and nothing else:
    in every state the player can reach, the timers pending after
    [cleanup] are exactly the pending timers other than that of the next
    step.  The closures of the executors that were scheduled (the click
    200 ms after its step, the style put back one second after a
    highlight) still run after the playback was stopped or replaced, and
    so does a pending auto-hide. *)
Theorem cleanup_cancels_only_the_next_step (env : Env) (s : Sys) :
  Reachable env s ->
  fst (cleanup s) = Ok tt /\
  forall t, In t (timers (snd (cleanup s))) <->
            In t (timers s) /\ isNextStep t = false.
Proof.
  intro HR.
  destruct (cleanup_coherent env s (reachable_coherent env s HR))
    as (s' & -> & _ & _ & HN & _ & _ & _ & _ & Hkeep & Hsub).
  split; [reflexivity|]. cbn [snd]. intro t; split.
  - intro Hin. split; [now apply Hsub|now apply HN].
  - intros [Hin Hn]. now apply Hkeep.
Qed.

Lemma cleanup_cancels_only_the_next_step_witness :
  let s := snd (onMessage Examples.env "ZORDON_PLAY" Examples.session
                          initialSys) in
  map callback (timers s) =
    [CbRestoreStyle [0; 1] EmptyString;
     CbDispatchClick [0; 1] Examples.clickStep; CbExecuteNextStep] /\
  map callback (timers (snd (cleanup s))) =
    [CbRestoreStyle [0; 1] EmptyString;
     CbDispatchClick [0; 1] Examples.clickStep] /\
  forall t, In t (timers (snd (cleanup s))) <->
            In t (timers s) /\ isNextStep t = false.
Proof.
  split; [vm_compute; reflexivity|]. split; [vm_compute; reflexivity|].
  apply (cleanup_cancels_only_the_next_step Examples.env).
  apply reach_message, reach_initial.
Defined.

(** X21.  Where the control of the player throws.  On any page and in
    any state, [cleanup] never throws.  Handling a message throws only
    what [createPlayerUI] throws, that is, what the page raised at the
    assignment of the status to [innerHTML] or at
    [document.body.appendChild]: the player is then left not playing,
    with the steps of the recording loaded, the cursor at 0 and the
    container created but hidden, no step announced and no timer
    registered.  The callback of the next step throws only what the page
    raised at the assignment of the completion message to [innerHTML]:
    the player has stopped by then, and the auto-hide is not scheduled.
    On a page that refuses none of these three calls, handling a message
    returns normally, and when the timer that fires is the one of the
    next step or the auto-hide, its callback returns normally too, so
    that the runtime has no new uncaught exception to report: uncaught
    exceptions then come from the closures of the executors only. *)
Theorem control_throws_only_on_the_container (env : Env) :
  (forall messageType recording s e,
     fst (onMessage env messageType recording s) = Throw e ->
     let s' := snd (onMessage env messageType recording s) in
     (exists tr c,
        (c = fillPlayerContainer (orString (title recording) "Untitled")
         \/ c = appendPlayerContainer) /\
        throws env tr c = Some e) /\
     isPlaying (player s') = false /\
     currentStepIndex (player s') = 0 /\
     Recording.steps recording = Some (Runtime.steps (player s')) /\
     playerContainer (player s') = Some display_none /\
     executedSteps (trace s') = executedSteps (trace s) /\
     nextTimerId s' = nextTimerId s /\
     (forall t, In t (timers s') -> In t (timers s))) /\
  (forall s, fst (cleanup s) = Ok tt) /\
  (forall s e,
     fst (executeNextStep env s) = Throw e ->
     throws env (trace s) showCompletion = Some e /\
     isPlaying (player (snd (executeNextStep env s))) = false /\
     timers (snd (executeNextStep env s)) = timers s) /\
  (ContainerAllowed env ->
   (forall messageType recording s,
      fst (onMessage env messageType recording s) = Ok tt /\
      uncaught (snd (onMessage env messageType recording s)) = uncaught s) /\
   (forall i s t,
      nth_error (timers s) i = Some t -> inertTimer t = false ->
      fst (runCallback env (callback t) s) = Ok tt /\
      uncaught (fire env i s) = uncaught s)).
Proof.
  split; [|split; [|split]].
  - intros messageType recording s e. unfold onMessage.
    destruct (String.eqb messageType "ZORDON_PLAY"); [|discriminate].
    apply playRecording_throw.
  - intro s. apply cleanup_ok.
  - intros s e Hthrow.
    destruct (executeNextStep_throw env s e Hthrow) as (H1 & H2 & _ & H4).
    split; [exact H1|]. split; [now rewrite H2|exact H4].
  - intro Hok. split.
    + intros messageType recording s. unfold onMessage.
      destruct (String.eqb messageType "ZORDON_PLAY");
        [now apply playRecording_ok|split; reflexivity].
    + intros i s t Hn Hin. unfold fire; rewrite Hn.
      set (s1 := mkSys (player s) (trace s) (removeAt i (timers s))
                       (nextTimerId s) (Qmax (now s) (due t)) (uncaught s)).
      unfold inertTimer, inertCallback in Hin.
      destruct (callback t); try discriminate; cbn [runCallback].
      * destruct (executeNextStep_ok env Hok s1) as [Ho Hu].
        split; [now apply executeNextStep_ok|].
        destruct (executeNextStep env s1) as [[[]|e] s2]; cbn [fst snd] in *;
          [exact Hu|discriminate].
      * destruct (cleanup_ok s1) as [Ho Hu].
        split; [apply cleanup_ok|].
        destruct (cleanup s1) as [[[]|e] s2]; cbn [fst snd] in *;
          [exact Hu|discriminate].
Qed.

(** The example session requested on the page that refuses strings for
    [innerHTML], and the timer of the next step on the example page. *)
Lemma control_throws_only_on_the_container_witness :
  (exists tr c,
     (c = fillPlayerContainer "Demo" \/ c = appendPlayerContainer) /\
     throws Examples.envTrustedTypes tr c
     = Some (TypeError "This document requires TrustedHTML assignment.")) /\
  (let s := snd (onMessage Examples.env "ZORDON_PLAY" Examples.session
                           initialSys) in
   fst (runCallback Examples.env CbExecuteNextStep s) = Ok tt /\
   uncaught (fire Examples.env 2 s) = uncaught s).
Proof.
  split.
  - refine (proj1 (proj1 (control_throws_only_on_the_container
                            Examples.envTrustedTypes)
                         "ZORDON_PLAY" Examples.session initialSys
                         (TypeError "This document requires TrustedHTML assignment.")
                         _)).
    vm_compute; reflexivity.
  - refine (proj2 (proj2 (proj2 (proj2 (control_throws_only_on_the_container
                                           Examples.env)))
                         (static_allowed _ _ _ _)) 2 _
                  (mkTimer 3 1000%Q CbExecuteNextStep) _ _).
    + vm_compute; reflexivity.
    + reflexivity.
Defined.

End ReachFacts.

(* ================================================================== *)
(** * What a recording holds *)
(* ================================================================== *)

Module RecordingFacts.
Import Recording RecorderEvents DomRecorder.

Lemma recordNavigations_fields href readings r :
  events (recordNavigations href readings r)
    = events r ++ map (navigationEvent href) readings /\
  isRecording (recordNavigations href readings r) = isRecording r /\
  eventListeners (recordNavigations href readings r) = eventListeners r /\
  captureListeners (recordNavigations href readings r) = captureListeners r /\
  popstateListeners (recordNavigations href readings r) = popstateListeners r /\
  historyWrappers (recordNavigations href readings r) = historyWrappers r /\
  indicators (recordNavigations href readings r) = indicators r.
Proof.
  revert r; induction readings as [|now rest IH]; intro r; cbn.
  - rewrite app_nil_r; repeat split.
  - destruct (IH (recordNavigationStep href now r))
      as (-> & -> & -> & -> & -> & -> & ->).
    cbn. rewrite <- app_assoc. repeat split.
Qed.

Lemma filter_all_members (l keys : list string) :
  (forall t, In t l -> In t keys) ->
  filter (fun t => negb (mem t keys)) l = [].
Proof.
  induction l as [|x l IH]; intro H; cbn; [reflexivity|].
  assert (Hx : mem x keys = true).
  { unfold mem. apply existsb_exists. exists x.
    split; [apply H; now left|apply String.eqb_refl]. }
  rewrite Hx; cbn. apply IH. intros t Ht; apply H; now right.
Qed.

Lemma handled_fields doc ev target now r :
  let r1 := if mem (domType ev) (captureListeners r)
            then handleRecordedEvent doc ev target now r else r in
  isRecording r1 = isRecording r /\
  eventListeners r1 = eventListeners r /\
  captureListeners r1 = captureListeners r /\
  popstateListeners r1 = popstateListeners r /\
  historyWrappers r1 = historyWrappers r /\
  indicators r1 = indicators r.
Proof.
  cbv zeta. unfold handleRecordedEvent.
  destruct (mem (domType ev) (captureListeners r)); [|auto 10].
  destruct (isRecording r) eqn:Hr; [|rewrite Hr; auto 10].
  destruct target as [e|]; [|rewrite Hr; auto 10].
  destruct (Recorder.generateSelectors doc e); cbn; rewrite ?Hr; auto 10.
Qed.

Lemma deliver_fields a r :
  isRecording (deliver a r) = isRecording r /\
  eventListeners (deliver a r) = eventListeners r /\
  captureListeners (deliver a r) = captureListeners r /\
  popstateListeners (deliver a r) = popstateListeners r /\
  historyWrappers (deliver a r) = historyWrappers r /\
  indicators (deliver a r) = indicators r.
Proof.
  destruct (handled_fields (arrivalDocument a) (arrivalEvent a)
              (arrivalTarget a) (arrivalNow a) r)
    as (E1 & E2 & E3 & E4 & E5 & E6).
  unfold deliver.
  destruct (String.eqb (domType (arrivalEvent a)) "popstate"); [|auto 10].
  match goal with |- context [recordNavigations ?h ?l ?r1] =>
    destruct (recordNavigations_fields h l r1)
      as (_ & -> & -> & -> & -> & -> & ->)
  end.
  auto 10.
Qed.

Lemma appended_nil r : appended [] r = r.
Proof. destruct r; unfold appended; cbn. now rewrite app_nil_r. Qed.

Lemma appended_appended a b r :
  appended b (appended a r) = appended (a ++ b) r.
Proof. unfold appended; cbn. now rewrite app_assoc. Qed.

Lemma recordNavigations_appended href readings r :
  recordNavigations href readings r
  = appended (map (navigationEvent href) readings) r.
Proof.
  revert r; induction readings as [|now rest IH]; intro r; cbn.
  - symmetry; apply appended_nil.
  - rewrite IH. unfold appended, recordNavigationStep; cbn.
    now rewrite <- app_assoc.
Qed.

(** A DOM event reaching a recorder that listens in the capture phase to
    nothing: only its [popstate] handlers run. *)
Lemma deliver_idle a r :
  captureListeners r = [] ->
  deliver a r = appended (popstateEvents (popstateListeners r) a) r.
Proof.
  intro Hc. unfold deliver, popstateEvents. rewrite Hc; cbn [mem existsb].
  destruct (String.eqb (domType (arrivalEvent a)) "popstate").
  - apply recordNavigations_appended.
  - symmetry; apply appended_nil.
Qed.

Lemma started_registered n r id href now :
  Registered n r -> isRecording r = false ->
  Registered (S n) (startRecording id href now r) /\
  isRecording (startRecording id href now r) = true /\
  events (startRecording id href now r) = [navigationEvent href now] /\
  indicators (startRecording id href now r) = indicators r + 1.
Proof.
  intros (Hw & Hp & Hc & Hk) Hr. rewrite Hr in Hc, Hk.
  unfold startRecording; rewrite Hr.
  unfold showRecordingIndicator, addListeners, removeListeners,
    recordNavigationStep, Registered; cbn.
  rewrite Hc, Hw, Hp, !Nat.add_1_r. repeat split.
Qed.

Lemma stopped_registered n r :
  Registered n r ->
  Registered n (fst (stopRecording r)) /\
  isRecording (fst (stopRecording r)) = false /\
  events (fst (stopRecording r)) = events r.
Proof.
  intros (Hw & Hp & Hc & Hk). unfold stopRecording.
  destruct (isRecording r) eqn:Hr; cbn [fst].
  - unfold hideRecordingIndicator, removeListeners, Registered; cbn.
    rewrite Hc, Hk. repeat split; auto.
  - unfold Registered; rewrite Hr. repeat split; auto.
Qed.

(** The registrations follow the recordings. *)
Lemma ran_registered n r : Ran n r -> Registered n r.
Proof.
  induction 1 as [|n r id href now _ IH|n r _ IH|n r a _ IH
                  |n r href readings _ IH Hlen|n r href readings _ IH Hlen].
  - unfold Registered; cbn; repeat split.
  - destruct (isRecording r) eqn:Hr.
    + unfold startRecording; rewrite Hr; exact IH.
    + now apply started_registered.
  - now apply stopped_registered.
  - destruct (deliver_fields a r) as (E1 & E2 & E3 & E4 & E5 & _).
    unfold Registered. rewrite E1, E2, E3, E4, E5. exact IH.
  - destruct (recordNavigations_fields href readings r)
      as (_ & E1 & E2 & E3 & E4 & E5 & _).
    unfold Registered. rewrite E1, E2, E3, E4, E5. exact IH.
  - destruct (recordNavigations_fields href readings r)
      as (_ & E1 & E2 & E3 & E4 & E5 & _).
    unfold Registered. rewrite E1, E2, E3, E4, E5. exact IH.
Qed.

Lemma deliverAll_idle l r :
  captureListeners r = [] ->
  deliverAll l r
  = appended (flat_map (popstateEvents (popstateListeners r)) l) r.
Proof.
  revert r; induction l as [|a rest IH]; intros r Hc; cbn [deliverAll flat_map].
  - symmetry; apply appended_nil.
  - rewrite (deliver_idle a r Hc), IH by exact Hc.
    now rewrite appended_appended.
Qed.

Lemma flat_map_no_popstate k l :
  (forall a, In a l -> domType (arrivalEvent a) <> "popstate") ->
  flat_map (popstateEvents k) l = [].
Proof.
  induction l as [|a rest IH]; intro H; cbn; [reflexivity|].
  rewrite IH by (intros x Hx; apply H; now right).
  unfold popstateEvents.
  destruct (String.eqb_spec (domType (arrivalEvent a)) "popstate") as [E|_];
    [destruct (H a (or_introl eq_refl) E)|reflexivity].
Qed.

Lemma deliverAll_recording l r :
  isRecording r = true -> captureListeners r = EVENT_TYPES ->
  events (deliverAll l r)
    = events r ++ flat_map (captured (popstateListeners r)) l /\
  isRecording (deliverAll l r) = true /\
  eventListeners (deliverAll l r) = eventListeners r /\
  captureListeners (deliverAll l r) = EVENT_TYPES /\
  popstateListeners (deliverAll l r) = popstateListeners r /\
  historyWrappers (deliverAll l r) = historyWrappers r /\
  indicators (deliverAll l r) = indicators r.
Proof.
  revert r; induction l as [|a rest IH]; intros r Hr Hc;
    cbn [deliverAll flat_map].
  - rewrite app_nil_r; repeat split; assumption.
  - destruct (deliver_fields a r) as (E1 & E2 & E3 & E4 & E5 & E6).
    destruct (IH (deliver a r)) as (-> & -> & -> & -> & -> & -> & ->);
      [now rewrite E1|now rewrite E3|].
    rewrite E2, E4, E5, E6. repeat split.
    rewrite app_assoc. f_equal.
    destruct (handled_fields (arrivalDocument a) (arrivalEvent a)
                (arrivalTarget a) (arrivalNow a) r) as (_ & _ & _ & Hp & _).
    cbv zeta in Hp.
    unfold deliver, captured, popstateEvents.
    destruct (String.eqb (domType (arrivalEvent a)) "popstate").
    + rewrite recordNavigations_appended, Hp. unfold appended; cbn [events].
      rewrite app_assoc. f_equal.
      unfold handleRecordedEvent. rewrite Hc, Hr.
      destruct (mem (domType (arrivalEvent a)) EVENT_TYPES);
        [|now rewrite app_nil_r].
      destruct (arrivalTarget a) as [e|]; [|now rewrite app_nil_r].
      destruct (Recorder.generateSelectors (arrivalDocument a) e);
        [reflexivity|now rewrite app_nil_r].
    + rewrite !app_nil_r.
      unfold handleRecordedEvent. rewrite Hc, Hr.
      destruct (mem (domType (arrivalEvent a)) EVENT_TYPES);
        [|now rewrite app_nil_r].
      destruct (arrivalTarget a) as [e|]; [|now rewrite app_nil_r].
      destruct (Recorder.generateSelectors (arrivalDocument a) e);
        [reflexivity|now rewrite app_nil_r].
Qed.

(** X22.  What a recording holds: for a recorder that is not recording
    and for which [n] recordings were started before, the events that
    [stopRecording] returns after [startRecording], the page calling
    neither [history.pushState] nor [history.replaceState] in between,
    are the navigation event of the start followed by what the DOM events
    that reached the window in between left, in the order of arrival: one
    event for a DOM event of a type the recorder listens to whose target
    is an element of the document, and [n + 1] navigation events for a
    [popstate] event, one per [popstate] handler in place (X23).  A DOM
    event that arrives before the start or after the stop leaves no
    trace, unless it is a [popstate] event: for each of these every
    handler in place, [n] of them before the start and [n + 1] after the
    stop, appends a navigation event to the events the recorder holds.
    The indicator shown at the start is taken away at the stop, and a
    second [stopRecording] returns no event. *)
Theorem recording_holds_navigation_then_events (n : nat) (r : State)
        (id href : string) (now : Z) (before during after : list Arrival) :
  Ran n r -> isRecording r = false ->
  deliverAll before r = appended (flat_map (popstateEvents n) before) r /\
  ((forall a, In a before -> domType (arrivalEvent a) <> "popstate") ->
   deliverAll before r = r) /\
  let stopped :=
    stopRecording (deliverAll during (startRecording id href now r)) in
  snd stopped
    = navigationEvent href now :: flat_map (captured (S n)) during /\
  isRecording (fst stopped) = false /\
  indicators (fst stopped) = indicators r /\
  deliverAll after (fst stopped)
    = appended (flat_map (popstateEvents (S n)) after) (fst stopped) /\
  ((forall a, In a after -> domType (arrivalEvent a) <> "popstate") ->
   deliverAll after (fst stopped) = fst stopped) /\
  snd (stopRecording (deliverAll after (fst stopped))) = [].
Proof.
  intros HR Hr. pose proof (ran_registered n r HR) as Hreg.
  assert (Hc : captureListeners r = []).
  { destruct Hreg as (_ & _ & Hc & _). now rewrite Hr in Hc. }
  assert (Hpn : popstateListeners r = n) by (destruct Hreg as (_ & Hp & _); exact Hp).
  assert (Hbefore : deliverAll before r
                    = appended (flat_map (popstateEvents n) before) r)
    by (rewrite (deliverAll_idle before r Hc), Hpn; reflexivity).
  split; [exact Hbefore|]. split.
  { intro Hno. rewrite Hbefore, (flat_map_no_popstate n before Hno).
    apply appended_nil. }
  cbv zeta.
  destruct (started_registered n r id href now Hreg Hr)
    as (Hreg1 & Hr1 & He1 & Hi1).
  assert (Hc1 : captureListeners (startRecording id href now r) = EVENT_TYPES).
  { destruct Hreg1 as (_ & _ & Hc1 & _). now rewrite Hr1 in Hc1. }
  assert (Hp1 : popstateListeners (startRecording id href now r) = S n)
    by (destruct Hreg1 as (_ & Hp & _); exact Hp).
  destruct (deliverAll_recording during _ Hr1 Hc1)
    as (He2 & Hr2 & Hk2 & Hc2 & Hp2 & Hw2 & Hi2).
  rewrite Hp1 in He2.
  set (r2 := deliverAll during (startRecording id href now r)) in *.
  assert (Hreg2 : Registered (S n) r2).
  { destruct Hreg1 as (Hw & Hp & _ & Hk). rewrite Hr1 in Hk.
    unfold Registered. rewrite Hr2, Hk2, Hc2, Hp2, Hw2, Hk. repeat split; auto. }
  destruct (stopped_registered (S n) r2 Hreg2) as (Hreg3 & Hr3 & _).
  assert (Hc3 : captureListeners (fst (stopRecording r2)) = []).
  { destruct Hreg3 as (_ & _ & Hc3 & _). now rewrite Hr3 in Hc3. }
  assert (Hp3 : popstateListeners (fst (stopRecording r2)) = S n)
    by (destruct Hreg3 as (_ & Hp & _); exact Hp).
  assert (Hafter : deliverAll after (fst (stopRecording r2))
                   = appended (flat_map (popstateEvents (S n)) after)
                              (fst (stopRecording r2)))
    by (rewrite (deliverAll_idle after _ Hc3), Hp3; reflexivity).
  split; [|split; [exact Hr3|split; [|split; [exact Hafter|split]]]].
  - unfold stopRecording; rewrite Hr2; cbn [snd]. now rewrite He2, He1.
  - unfold stopRecording; rewrite Hr2; cbn. rewrite Hi2, Hi1.
    now rewrite Nat.add_1_r.
  - intro Hno. rewrite Hafter, (flat_map_no_popstate (S n) after Hno).
    apply appended_nil.
  - rewrite Hafter. unfold stopRecording at 1.
    unfold appended; cbn [isRecording]. now rewrite Hr3.
Qed.

(** A first recording on the example page: a wheel event, to which the
    recorder does not listen, a click on an element, a click without a
    target and a [popstate] event arrive in between. *)
Lemma recording_holds_navigation_then_events_witness :
  let click := mkDomEventInfo "click" 60 30 0 (Examples.box 10 20 100 40)
                              None EmptyString 0 in
  let wheel := mkDomEventInfo "wheel" 0 0 0 (Examples.box 10 20 100 40)
                              None EmptyString 0 in
  let back := mkDomEventInfo "popstate" 0 0 0 (Examples.box 0 0 0 0)
                             None EmptyString 0 in
  let at_ ev target t :=
    mkArrival Examples.page ev target t "https://example.test/"
              (fun k => (t + Z.of_nat k)%Z) in
  snd (stopRecording
         (deliverAll
            [at_ wheel (Some [0; 1]) 5%Z;
             at_ click (Some [0; 1]) 7%Z;
             at_ click None 9%Z;
             at_ back None 11%Z]
            (startRecording "rec_1" "https://example.test/" 1 initial)))
  = [navigationEvent "https://example.test/" 1;
     createEventData [["#app"]; ["#app"]] click 7;
     navigationEvent "https://example.test/" 11].
Proof.
  intros click wheel back at_.
  destruct (recording_holds_navigation_then_events 0 initial
              "rec_1" "https://example.test/" 1 []
              [at_ wheel (Some [0; 1]) 5%Z;
               at_ click (Some [0; 1]) 7%Z;
               at_ click None 9%Z;
               at_ back None 11%Z] []
              ran_initial eq_refl) as (_ & _ & H & _).
  rewrite H. vm_compute. reflexivity.
Defined.

(** X23.  The wrappers the recorder puts around [history.pushState] and
    [history.replaceState] are never taken off, its [popstate] handlers
    are never removed, and [recordNavigationStep] does not test whether a
    recording is on: for a recorder for which [n] recordings were started,
    recording or not, each history call is wrapped [n] times and [n]
    [popstate] handlers listen, so that one call of [history.pushState]
    by the page, and one [popstate] event, appends [n] navigation events
    to the recorder's events. *)
Theorem history_wrappers_pile_up (n : nat) (r : State) (href : string)
        (readings : list Z) :
  Ran n r ->
  length readings = historyWrappers r \/
  length readings = popstateListeners r ->
  historyWrappers r = n /\ popstateListeners r = n /\
  events (recordNavigations href readings r)
    = events r ++ map (navigationEvent href) readings /\
  length (events (recordNavigations href readings r)) = length (events r) + n.
Proof.
  intros HR Hlen. destruct (ran_registered n r HR) as (Hw & Hp & _).
  destruct (recordNavigations_fields href readings r) as (He & _).
  split; [exact Hw|split; [exact Hp|split; [exact He|]]].
  rewrite He, length_app, length_map.
  destruct Hlen as [-> | ->]; [now rewrite Hw|now rewrite Hp].
Qed.

(** In a second recording, one call of [history.pushState] is recorded
    twice. *)
Lemma history_wrappers_pile_up_witness :
  let r := startRecording "rec_2" "https://example.test/" 20
             (fst (stopRecording
                     (startRecording "rec_1" "https://example.test/" 10
                                     initial))) in
  historyWrappers r = 2 /\ popstateListeners r = 2 /\
  events (recordNavigations "https://example.test/next" [21%Z; 22%Z] r)
    = events r ++ map (navigationEvent "https://example.test/next") [21%Z; 22%Z] /\
  length (events (recordNavigations "https://example.test/next" [21%Z; 22%Z] r))
    = length (events r) + 2.
Proof.
  apply (history_wrappers_pile_up 2).
  - exact (ran_start 1 _ "rec_2" "https://example.test/" 20%Z
             (ran_stop 1 _
                (ran_start 0 _ "rec_1" "https://example.test/" 10%Z ran_initial))).
  - left; reflexivity.
Defined.

End RecordingFacts.

(* ================================================================== *)
(** * The stored recordings and their way to the player *)
(* ================================================================== *)

Module StoreFacts.
Import Recording Runtime Player Observe Store Worker Reach.
Import LocatorFacts FrameFacts LoopFacts ReachFacts.

Lemma findIndex_None id l :
  findIndex id l = None <-> forall r, In r l -> recordingId r <> id.
Proof.
  induction l as [|x l IH]; cbn.
  - split; [intros _ r []|reflexivity].
  - destruct (String.eqb_spec (recordingId x) id) as [E|E].
    + split; [discriminate|]. intro H. destruct (H x (or_introl eq_refl) E).
    + destruct (findIndex id l) as [i|]; cbn; split.
      * discriminate.
      * intro H. exfalso.
        assert (Hn : Some i = None) by (apply IH; intros r Hr; apply H; now right).
        discriminate.
      * intros _ r [<-|Hr]; [assumption|]. now apply (proj1 IH).
      * reflexivity.
Qed.

Lemma lookup_None id l :
  lookup id l = None <-> forall r, In r l -> recordingId r <> id.
Proof.
  unfold lookup. induction l as [|x l IH]; cbn.
  - split; [intros _ r []|reflexivity].
  - destruct (String.eqb_spec (recordingId x) id) as [E|E].
    + split; [discriminate|]. intro H. destruct (H x (or_introl eq_refl) E).
    + rewrite IH. split.
      * intros H r [<-|Hr]; [assumption|now apply H].
      * intros H r Hr; apply H; now right.
Qed.

Lemma lookup_findIndex id l : lookup id l = None <-> findIndex id l = None.
Proof. now rewrite lookup_None, findIndex_None. Qed.

Lemma lookup_app id a b :
  lookup id (a ++ b) =
  match lookup id a with Some r => Some r | None => lookup id b end.
Proof.
  unfold lookup. induction a as [|x a IH]; cbn; [reflexivity|].
  destruct (String.eqb (recordingId x) id); [reflexivity|exact IH].
Qed.

Lemma setAt_found id l i r :
  findIndex id l = Some i -> recordingId r = id ->
  lookup id (setAt i r l) = Some r /\
  (forall id', id' <> id -> lookup id' (setAt i r l) = lookup id' l) /\
  map recordingId (setAt i r l) = map recordingId l /\
  findIndex id (setAt i r l) = Some i /\
  setAt i r (setAt i r l) = setAt i r l.
Proof.
  intros Hf Hr. revert i Hf; induction l as [|x l IH]; intros i Hf; cbn in Hf.
  - discriminate.
  - destruct (String.eqb_spec (recordingId x) id) as [E|E].
    + injection Hf as <-. unfold lookup; cbn.
      rewrite Hr, String.eqb_refl, E. repeat split.
      intros id' Hne.
      destruct (String.eqb_spec id id') as [->|_]; [contradiction|reflexivity].
    + destruct (findIndex id l) as [j|] eqn:Hj; [|discriminate].
      cbn in Hf. injection Hf as <-.
      destruct (IH j eq_refl) as (H1 & H2 & H3 & H4 & H5).
      unfold lookup in *; cbn.
      destruct (String.eqb_spec (recordingId x) id) as [|_]; [contradiction|].
      split; [exact H1|]. split; [|split; [now rewrite H3|split]].
      * intros id' Hne. destruct (String.eqb (recordingId x) id');
          [reflexivity|now apply H2].
      * now rewrite H4.
      * now rewrite H5.
Qed.

Lemma findIndex_app_absent id l r :
  findIndex id l = None -> recordingId r = id ->
  findIndex id (l ++ [r]) = Some (length l) /\
  setAt (length l) r (l ++ [r]) = l ++ [r].
Proof.
  intros Hf Hr. induction l as [|x l IH]; cbn in *.
  - rewrite Hr, String.eqb_refl. split; reflexivity.
  - destruct (String.eqb (recordingId x) id); [discriminate|].
    destruct (findIndex id l) as [j|]; [discriminate|].
    destruct (IH eq_refl) as [-> ->]. split; reflexivity.
Qed.

Lemma saved_lookup (stored : option (list RecordingSession))
      (recording : RecordingSession) :
  lookup (recordingId recording) (saveRecording stored recording)
    = Some recording.
Proof.
  unfold saveRecording.
  destruct (findIndex (recordingId recording) (orEmpty stored)) as [i|] eqn:Hf.
  - now destruct (setAt_found _ _ _ recording Hf eq_refl) as (H1 & _).
  - rewrite lookup_app, (proj2 (lookup_findIndex _ _) Hf).
    unfold lookup; cbn. now rewrite String.eqb_refl.
Qed.

(** X24.  A recording that was saved is the one found under its id: for
    every content of the store, absent, empty or holding recordings with
    or without that id, looking the id up in what [saveRecording] writes
    back yields the saved recording, and every other id is looked up as
    before. *)
Theorem saved_recording_is_found (stored : option (list RecordingSession))
        (recording : RecordingSession) :
  lookup (recordingId recording) (saveRecording stored recording)
    = Some recording /\
  (forall id, id <> recordingId recording ->
     lookup id (saveRecording stored recording) = lookup id (orEmpty stored)).
Proof.
  split; [apply saved_lookup|].
  intros id Hne. unfold saveRecording.
  destruct (findIndex (recordingId recording) (orEmpty stored)) as [i|] eqn:Hf.
  - destruct (setAt_found _ _ _ recording Hf eq_refl) as (_ & H2 & _).
    now apply H2.
  - rewrite lookup_app.
    destruct (lookup id (orEmpty stored)); [reflexivity|].
    unfold lookup; cbn.
    destruct (String.eqb_spec (recordingId recording) id) as [E|_];
      [symmetry in E; contradiction|reflexivity].
Qed.

Lemma saved_recording_is_found_witness :
  lookup "rec_2"
    (saveRecording (Some [Examples.session]) Examples.longSession)
    = Some Examples.longSession /\
  lookup "rec_1"
    (saveRecording (Some [Examples.session]) Examples.longSession)
    = lookup "rec_1" [Examples.session].
Proof.
  destruct (saved_recording_is_found (Some [Examples.session])
              Examples.longSession) as [H1 H2].
  split; [exact H1|]. apply H2. discriminate.
Defined.

(** X25.  [saveRecording] updates in place or appends, and never
    duplicates: when no stored recording has the id, the recording is put
    at the end; when one has, the array keeps its length and the order of
    its ids; saving the same recording again changes nothing; and ids that
    were pairwise distinct stay so. *)
Theorem saving_updates_in_place_or_appends
        (stored : option (list RecordingSession))
        (recording : RecordingSession) :
  (lookup (recordingId recording) (orEmpty stored) = None ->
   saveRecording stored recording = orEmpty stored ++ [recording]) /\
  (lookup (recordingId recording) (orEmpty stored) <> None ->
   map recordingId (saveRecording stored recording)
     = map recordingId (orEmpty stored)) /\
  saveRecording (Some (saveRecording stored recording)) recording
    = saveRecording stored recording /\
  (NoDup (map recordingId (orEmpty stored)) ->
   NoDup (map recordingId (saveRecording stored recording))).
Proof.
  assert (Hsave : saveRecording stored recording =
                  match findIndex (recordingId recording) (orEmpty stored) with
                  | Some index => setAt index recording (orEmpty stored)
                  | None => orEmpty stored ++ [recording]
                  end) by reflexivity.
  rewrite !Hsave.
  destruct (findIndex (recordingId recording) (orEmpty stored)) as [i|] eqn:Hf.
  - destruct (setAt_found _ _ _ recording Hf eq_refl) as (_ & _ & H3 & H4 & H5).
    split; [|split; [|split]].
    + intro Hn. apply lookup_findIndex in Hn. rewrite Hn in Hf; discriminate.
    + intros _. exact H3.
    + unfold saveRecording; cbn [orEmpty]. now rewrite H4.
    + now rewrite H3.
  - destruct (findIndex_app_absent _ _ recording Hf eq_refl) as [H1 H2].
    split; [|split; [|split]].
    + reflexivity.
    + intro Hn. exfalso. apply Hn. now apply lookup_findIndex.
    + unfold saveRecording; cbn [orEmpty]. now rewrite H1.
    + intro Hd. rewrite map_app.
      apply NoDup_app; [assumption|repeat constructor; auto|].
      intros a Ha [<-|[]]. apply in_map_iff in Ha as (r & Hr & Hin).
      exact (proj1 (findIndex_None _ _) Hf r Hin Hr).
Qed.

Lemma saving_updates_in_place_or_appends_witness :
  saveRecording (Some [Examples.session]) Examples.longSession
    = [Examples.session; Examples.longSession] /\
  map recordingId
      (saveRecording (Some [Examples.session; Examples.longSession])
         (mkRecordingSession "rec_1" None None None))
    = ["rec_1"; "rec_2"].
Proof.
  split.
  - refine (proj1 (saving_updates_in_place_or_appends (Some [Examples.session])
                     Examples.longSession) _).
    reflexivity.
  - refine (proj1 (proj2 (saving_updates_in_place_or_appends
                     (Some [Examples.session; Examples.longSession])
                     (mkRecordingSession "rec_1" None None None))) _).
    discriminate.
Defined.

Lemma lookup_filter id id' l :
  lookup id' (filter (fun r => negb (String.eqb (recordingId r) id)) l) =
  if String.eqb id' id then None else lookup id' l.
Proof.
  unfold lookup. induction l as [|x l IH]; cbn.
  - now destruct (String.eqb id' id).
  - destruct (String.eqb_spec (recordingId x) id) as [E|E]; cbn.
    + rewrite IH. destruct (String.eqb_spec id' id) as [->|Hne]; [reflexivity|].
      destruct (String.eqb_spec (recordingId x) id') as [E'|_];
        [rewrite E' in E; contradiction|reflexivity].
    + destruct (String.eqb_spec (recordingId x) id') as [E'|_].
      * destruct (String.eqb_spec id' id) as [->|_]; [contradiction|reflexivity].
      * exact IH.
Qed.

Lemma filter_absent id l :
  (forall r, In r l -> recordingId r <> id) ->
  filter (fun r => negb (String.eqb (recordingId r) id)) l = l.
Proof.
  induction l as [|x l IH]; intro H; cbn; [reflexivity|].
  destruct (String.eqb_spec (recordingId x) id) as [E|_].
  - destruct (H x (or_introl eq_refl) E).
  - cbn. f_equal. apply IH. intros r Hr; apply H; now right.
Qed.

(** X26.  A recording that was deleted is gone, and only it: after a
    confirmed [deleteRecording] no stored recording is found under the
    id, whether there were none, one or several, and every other id is
    looked up as before; without the confirmation the store is left as it
    was.  Deleting a recording that was saved under an id not in use
    gives back the array as it was before the save. *)
Theorem deleted_recording_is_gone (stored : option (list RecordingSession))
        (id : string) :
  lookup id (orEmpty (deleteRecording true stored id)) = None /\
  (forall id', id' <> id ->
     lookup id' (orEmpty (deleteRecording true stored id))
       = lookup id' (orEmpty stored)) /\
  deleteRecording false stored id = stored /\
  (forall recording,
     recordingId recording = id ->
     lookup id (orEmpty stored) = None ->
     deleteRecording true (Some (saveRecording stored recording)) id
       = Some (orEmpty stored)).
Proof.
  unfold deleteRecording; cbn [orEmpty]. split; [|split; [|split]].
  - rewrite lookup_filter, String.eqb_refl; reflexivity.
  - intros id' Hne. rewrite lookup_filter.
    destruct (String.eqb_spec id' id); [contradiction|reflexivity].
  - reflexivity.
  - intros recording Hid Hn. f_equal.
    unfold saveRecording. rewrite Hid.
    rewrite (proj1 (lookup_findIndex _ _) Hn), filter_app; cbn.
    rewrite Hid, String.eqb_refl; cbn. rewrite app_nil_r.
    apply filter_absent. now apply lookup_None.
Qed.

Lemma deleted_recording_is_gone_witness :
  lookup "rec_1"
    (orEmpty (deleteRecording true
                (Some [Examples.session; Examples.longSession]) "rec_2"))
    = lookup "rec_1" [Examples.session; Examples.longSession] /\
  deleteRecording true
    (Some (saveRecording (Some [Examples.session]) Examples.longSession))
    "rec_2" = Some [Examples.session].
Proof.
  destruct (deleted_recording_is_gone (Some [Examples.session; Examples.longSession])
              "rec_2") as (_ & H2 & _).
  split; [apply H2; discriminate|].
  destruct (deleted_recording_is_gone (Some [Examples.session]) "rec_2")
    as (_ & _ & _ & H4).
  apply (H4 Examples.longSession); reflexivity.
Defined.

(** X27.  The service worker sends to a tab nothing but a stored
    recording of the requested id: whenever [playRecording] sends, there
    was a tab, the recording sent is the first stored one with that id,
    it has at least one event, and the message went through; in every
    other case an error is thrown and nothing is sent. *)
Theorem only_stored_recordings_are_sent
        (recordings : list RecordingSession)
        (sendMessage : nat -> RecordingSession -> bool)
        (id : string) (tabId : option nat) (tab : nat)
        (recording : RecordingSession) :
  Background.playRecording recordings sendMessage id tabId
    = Background.Sent tab recording ->
  tabId = Some tab /\ tab <> 0 /\
  lookup id recordings = Some recording /\
  In recording recordings /\ recordingId recording = id /\
  (exists e es, events recording = Some (e :: es)) /\
  sendMessage tab recording = true.
Proof.
  unfold Background.playRecording, lookup.
  destruct tabId as [[|t]|]; try discriminate.
  destruct (find _ recordings) as [r|] eqn:Hf; [|discriminate].
  destruct (events r) as [[|e es]|] eqn:He; try discriminate.
  destruct (sendMessage (S t) r) eqn:Hs; [|discriminate].
  intros [= <- <-].
  apply find_some in Hf as [Hin Hid]. apply String.eqb_eq in Hid.
  repeat split; auto. rewrite He; eauto.
Qed.

Lemma only_stored_recordings_are_sent_witness :
  Some 7 = Some 7 /\ 7 <> 0 /\
  lookup "rec_2" [Examples.session; Examples.longSession]
    = Some Examples.longSession /\
  In Examples.longSession [Examples.session; Examples.longSession] /\
  recordingId Examples.longSession = "rec_2" /\
  (exists e es, events Examples.longSession = Some (e :: es)) /\
  (fun _ _ => true) 7 Examples.longSession = true.
Proof.
  apply (only_stored_recordings_are_sent
           [Examples.session; Examples.longSession] (fun _ _ => true)
           "rec_2" (Some 7) 7 Examples.longSession).
  reflexivity.
Defined.




Lemma assembled_fields sess :
  Assembled sess ->
  Recording.steps (base sess) = None /\
  (exists idNow, recordingId (base sess) = "rec_" +++ decimal idNow) /\
  (exists t, title (base sess) = Some t /\ JsString.truthy t = true) /\
  events (base sess) <> None /\
  match endTime sess, duration sess with
  | Some e, Some d => d = (e - startTime sess)%Z
  | None, None => True
  | _, _ => False
  end.
Proof.
  induction 1 as [idNow startNow tabUrl tabTitle
                 |payload current _ IH|now current _ IH].
  - cbn. split; [reflexivity|]. split; [now exists idNow|]. split.
    + eexists; split; [reflexivity|].
      unfold orString. destruct tabTitle as [t|]; [|reflexivity].
      destruct (JsString.truthy t) eqn:E; [exact E|reflexivity].
    + split; [discriminate|exact I].
  - destruct IH as (H1 & H2 & H3 & _ & H5). cbn.
    split; [exact H1|]. split; [exact H2|]. split; [exact H3|].
    split; [discriminate|exact H5].
  - destruct IH as (H1 & H2 & H3 & H4 & _). cbn.
    split; [exact H1|]. split; [exact H2|]. split; [exact H3|].
    split; [exact H4|reflexivity].
Qed.

(** X29.  The session the service worker assembles keeps its shape from
    [startRecording] on, through every [RECORDING_DATA] message and
    [stopRecording]: its id is [rec_] followed by the reading of the
    clock at the start, its title is a non-empty string ([Untitled
    Recording] when the tab had none), it has an array of events, its end
    time and its duration are set together, the duration being the end
    time less the start time, and it has no [steps]. *)
Theorem assembled_session_shape (sess : Session) :
  Assembled sess ->
  (exists idNow, recordingId (base sess) = "rec_" +++ decimal idNow) /\
  (exists t, title (base sess) = Some t /\ JsString.truthy t = true) /\
  events (base sess) <> None /\
  Recording.steps (base sess) = None /\
  ((endTime sess = None /\ duration sess = None) \/
   exists e, endTime sess = Some e /\
             duration sess = Some (e - startTime sess)%Z).
Proof.
  intro HA. destruct (assembled_fields sess HA) as (H1 & H2 & H3 & H4 & H5).
  split; [exact H2|]. split; [exact H3|]. split; [exact H4|]. split; [exact H1|].
  destruct (endTime sess) as [e|], (duration sess) as [d|]; try contradiction.
  - right; exists e; split; [reflexivity|now rewrite H5].
  - left; split; reflexivity.
Qed.

Lemma assembled_session_shape_witness :
  let sess := stopRecording 6000
                (recordingData [Examples.firstEvent]
                   (startRecording 1000 1001
                                 (Some "https://example.test/") None)) in
  recordingId (base sess) = "rec_1000" /\
  title (base sess) = Some "Untitled Recording" /\
  duration sess = Some 4999%Z /\
  Recording.steps (base sess) = None.
Proof.
  intro sess.
  destruct (assembled_session_shape sess) as (_ & _ & _ & H & _).
  - apply assembled_stop, assembled_data, assembled_start.
  - split; [vm_compute; reflexivity|]. split; [vm_compute; reflexivity|].
    split; [vm_compute; reflexivity|exact H].
Defined.



End StoreFacts.
